(** * csv_to_json_converter: the import pipeline of [index.js]

    A shallow embedding of the CSV parser ([parseCSVText]), the record
    mapper ([mapRecordToDb], [setNested]), the batch loader
    ([insertBatch], [importCsvFile]) and the age report
    ([printAgeDistribution]), followed by the properties that the
    specification states about them.

    Conventions.
    - A JavaScript string is the list of its UTF-16 code units ([jstring]).
    - A JavaScript object is the ordered list of its own properties;
      [Object.prototype] is explicit state, because [setNested] can reach
      and modify it through the inherited accessor [__proto__].
    - A thrown exception is the [inl] side of a sum.
    - The PostgreSQL client is an explicit store with a transaction buffer;
      whether an INSERT statement fails is decided by an oracle. *)

From Stdlib Require Import String Ascii.
From Stdlib Require Import Floats.
From Stdlib Require Import List Bool Arith ZArith NArith Lia.
Import ListNotations.

Set Implicit Arguments.
#[local] Set Warnings "-register-all".
Local Open Scope bool_scope.

(* ================================================================== *)
(** * Strings *)
(* ================================================================== *)

(** One UTF-16 code unit. *)
Abbreviation char := N.

Abbreviation jstring := (list N).

(** Literals: the code units of an ASCII literal. *)
Definition js (s : string) : jstring :=
  List.map N_of_ascii (list_ascii_of_string s).

Definition DQUOTE : char := 34%N.
Definition COMMA : char := 44%N.
Definition LF : char := 10%N.
Definition CR : char := 13%N.
Definition DOT : char := 46%N.
Definition PLUS : char := 43%N.
Definition MINUS : char := 45%N.
Definition BOM : char := 65279%N. (* 0xfeff *)

Fixpoint eqb_str (a b : jstring) : bool :=
  match a, b with
  | [], [] => true
  | x :: a', y :: b' => N.eqb x y && eqb_str a' b'
  | _, _ => false
  end.

(** [s === ''] *)
Definition is_empty (s : jstring) : bool :=
  match s with [] => true | _ => false end.

(** The characters removed by [String.prototype.trim] (and skipped by
    [parseInt]): ECMAScript WhiteSpace and LineTerminator. *)
Definition is_ws (c : char) : bool :=
  (N.leb 9 c && N.leb c 13) || N.eqb c 32 || N.eqb c 160 || N.eqb c 5760
  || (N.leb 8192 c && N.leb c 8202) || N.eqb c 8232 || N.eqb c 8233
  || N.eqb c 8239 || N.eqb c 8287 || N.eqb c 12288 || N.eqb c 65279.

Fixpoint trimStart (s : jstring) : jstring :=
  match s with
  | c :: s' => if is_ws c then trimStart s' else s
  | [] => []
  end.

Definition trimEnd (s : jstring) : jstring := rev (trimStart (rev s)).

(** [s.trim()] *)
Definition trim (s : jstring) : jstring := trimEnd (trimStart s).

(** [s.split(sep)] for a one-character separator: never the empty list. *)
Fixpoint split (sep : char) (s : jstring) : list jstring :=
  match s with
  | [] => [[]]
  | c :: s' =>
      if N.eqb c sep then [] :: split sep s'
      else match split sep s' with
           | p :: ps => (c :: p) :: ps
           | [] => [[c]]
           end
  end.

(** [s.startsWith(p)] *)
Fixpoint startsWith (p s : jstring) : bool :=
  match p, s with
  | [], _ => true
  | x :: p', y :: s' => N.eqb x y && startsWith p' s'
  | _ :: _, [] => false
  end.

(** [s.slice(n)] for [0 <= n] *)
Definition slice (n : nat) (s : jstring) : jstring := skipn n s.

(* ================================================================== *)
(** * The CSV parser: [parseCSVText] (index.js 30-85) *)
(* ================================================================== *)

(** A flat record: the own properties of [rec], in creation order. *)
Definition FlatRecord := list (jstring * jstring).

Definition PROTO : jstring := js "__proto__".

Fixpoint lookup {V : Type} (k : jstring) (o : list (jstring * V)) : option V :=
  match o with
  | [] => None
  | (k', v) :: o' => if eqb_str k k' then Some v else lookup k o'
  end.

(** Writing an own data property: an existing key keeps its place. *)
Fixpoint set_own {V : Type} (k : jstring) (v : V) (o : list (jstring * V))
  : list (jstring * V) :=
  match o with
  | [] => [(k, v)]
  | (k', v') :: o' =>
      if eqb_str k k' then (k, v) :: o' else (k', v') :: set_own k v o'
  end.

(** [o[k] = s] for a string [s] on an object that inherits from
    [Object.prototype]: the key [__proto__] is the inherited accessor, whose
    setter ignores a value that is neither an object nor null; every other
    key becomes (or stays) an own property. *)
Definition assign_string {V : Type} (inj : jstring -> V)
    (k s : jstring) (o : list (jstring * V)) : list (jstring * V) :=
  if eqb_str k PROTO then o else set_own k (inj s) o.

(** The loop of [readLineAsFields] (lines 39-65), on the text from
    position [i] on.  It returns [fields], [cur] and the text left at the
    position where the loop stops. *)
Fixpoint scan (text : jstring) (fields : list jstring) (cur : jstring)
    (inQuotes : bool) : list jstring * jstring * jstring :=
  match text with
  | [] => (fields, cur, [])
  | ch :: tl =>
      if N.eqb ch DQUOTE then
        match tl with
        | ch2 :: tl2 =>
            if inQuotes && N.eqb ch2 DQUOTE
            then scan tl2 fields (cur ++ [DQUOTE]) inQuotes
            else scan tl fields cur (negb inQuotes)
        | [] => scan tl fields cur (negb inQuotes)
        end
      else if negb inQuotes && N.eqb ch COMMA then
        scan tl (fields ++ [cur]) [] inQuotes
      else if negb inQuotes && (N.eqb ch LF || N.eqb ch CR) then
        (fields ++ [cur], [],
         match tl with
         | ch2 :: tl2 => if N.eqb ch CR && N.eqb ch2 LF then tl2 else tl
         | [] => tl
         end)
      else scan tl fields (cur ++ [ch]) inQuotes
  end.

(** Lines 66-69: at the end of the text, the field being read is stored
    unless nothing at all was read. *)
Definition finish_line (r : list jstring * jstring * jstring)
  : list jstring * jstring :=
  let '(fields, cur, rest) := r in
  match rest with
  | [] =>
      if negb (is_empty cur) || (0 <? length fields)
      then (fields ++ [cur], rest)
      else (fields, rest)
  | _ :: _ => (fields, rest)
  end.

(** [readLineAsFields()] (lines 35-70): the fields of one line and the
    text after it. *)
Definition readLineAsFields (text : jstring) : list jstring * jstring :=
  finish_line (scan text [] [] false).

(** Line 79: pad with empty fields up to the number of headers. *)
Definition pad (n : nat) (fields : list jstring) : list jstring :=
  fields ++ repeat [] (n - length fields).

(** Lines 80-81, from column [k] on. *)
Fixpoint fill (headers : list jstring) (fields : list jstring) (k : nat)
    (rec : FlatRecord) : FlatRecord :=
  match headers with
  | [] => rec
  | h :: headers' =>
      let v := match nth_error fields k with
               | Some f => trim f
               | None => []
               end in
      fill headers' fields (S k) (assign_string (fun s => s) h v rec)
  end.

Definition make_record (headers fields : list jstring) : FlatRecord :=
  fill headers (pad (length headers) fields) 0 [].

(** The loop of lines 76-83.  Every call of [readLineAsFields] on a
    non-empty text consumes a character, so [length text] iterations are
    enough ([rows_loop_total]); [None] is an exhausted budget. *)
Fixpoint rows_loop (fuel : nat) (headers : list jstring) (text : jstring)
    : option (list FlatRecord) :=
  match text with
  | [] => Some []
  | _ :: _ =>
      match fuel with
      | O => None
      | S fuel' =>
          let '(fields, rest) := readLineAsFields text in
          if (length fields =? 1) && is_empty (nth 0 fields [])
             && is_empty rest
          then Some []
          else option_map (cons (make_record headers fields))
                          (rows_loop fuel' headers rest)
      end
  end.

(** The rows the loop leaves in [rows]. *)
Definition parse_rows (headers : list jstring) (text : jstring)
  : list FlatRecord :=
  match rows_loop (length text) headers text with
  | Some rows => rows
  | None => []
  end.

(** [throw new Error('No headers found in CSV')] *)
Inductive parse_error := NoHeaders.

(** Line 71: skip a byte order mark. *)
Definition skip_bom (text : jstring) : jstring :=
  match text with
  | c :: tl => if N.eqb c BOM then tl else text
  | [] => text
  end.

(** [parseCSVText(text)] *)
Definition parseCSVText (text : jstring)
    : parse_error + list FlatRecord :=
  let '(headerFields, rest) := readLineAsFields (skip_bom text) in
  if length headerFields =? 0 then inl NoHeaders
  else
    let headers := List.map trim headerFields in
    inr (parse_rows headers rest).

(* ================================================================== *)
(** * Numbers: [parseInt(s, 10)] and [Number.isNaN] *)
(* ================================================================== *)

(** The Number values that [parseInt] can return.  A finite result is an
    integer-valued binary64 number, kept as the integer it denotes (the sign
    of zero is not kept). *)
Inductive number :=
| NaN
| Infinity (negative : bool)
| Int (z : Z).

Definition isNaN (n : number) : bool :=
  match n with NaN => true | _ => false end.

Definition is_digit (c : char) : bool := N.leb 48 c && N.leb c 57.

Definition digit_val (c : char) : Z := Z.of_N (c - 48).

(** The value of the longest prefix of decimal digits; [None] when that
    prefix is empty ([seen] tells whether a digit has been read). *)
Fixpoint digits (s : jstring) (acc : Z) (seen : bool) : option Z :=
  match s with
  | c :: s' =>
      if is_digit c then digits s' (10 * acc + digit_val c)%Z true
      else if seen then Some acc else None
  | [] => if seen then Some acc else None
  end.

(** The Number value of a mathematical integer: round to nearest, ties to
    even, on a 53-bit significand; a magnitude that rounds to [2^1024] or
    more is infinite. *)
Definition toNumber (z : Z) : number :=
  let a := Z.abs z in
  if (a <? 2 ^ 53)%Z then Int z
  else
    let e := (Z.log2 a - 52)%Z in
    let q := Z.shiftr a e in
    let r := (a - Z.shiftl q e)%Z in
    let half := (2 ^ (e - 1))%Z in
    let q' := if (half <? r)%Z || ((r =? half)%Z && Z.odd q)
              then (q + 1)%Z else q in
    let m := (q' * 2 ^ e)%Z in
    if (2 ^ 1024 <=? m)%Z then Infinity (z <? 0)%Z
    else Int (Z.sgn z * m).

(** The integer [parseInt(s, 10)] reads: skip leading white space, read an
    optional sign, then the longest run of decimal digits; whatever follows
    is ignored.  [None] when there is no digit to read. *)
Definition mathInt (s : jstring) : option Z :=
  let s1 := trimStart s in
  let '(neg, s2) :=
    match s1 with
    | c :: s' =>
        if N.eqb c MINUS then (true, s')
        else if N.eqb c PLUS then (false, s')
        else (false, s1)
    | [] => (false, s1)
    end in
  match digits s2 0%Z false with
  | None => None
  | Some m => Some (if neg then (- m)%Z else m)
  end.

(** [parseInt(s, 10)] *)
Definition parseInt (s : jstring) : number :=
  match mathInt s with
  | None => NaN
  | Some z => toNumber z
  end.

(* ================================================================== *)
(** * Objects and [setNested] (index.js 16-28) *)
(* ================================================================== *)

(** What [setNested] stores: strings and nested plain objects. *)
Inductive value :=
| VStr (s : jstring)
| VObj (props : list (jstring * value)).

(** The own enumerable properties of a plain object, in creation order
    (the order in which JavaScript enumerates them is not used). *)
Definition object := list (jstring * value).

(** [Object.keys(o).length] *)
Definition keys_length (o : object) : nat := length o.

(** The two objects [setNested] can write into: the object it was given and
    [Object.prototype].  [proto] holds the properties the program has
    written on [Object.prototype]; its built-in properties are functions,
    for which lines 23-24 take the same branch as for a missing property
    ([typeof] is not ['object']), and the accessor [__proto__]. *)
Record heap := { root : object; proto : object }.

Inductive base := Root | Proto.

(** The variable [cur]: [null], or an object given by where it hangs (a path
    of keys below the argument object or below [Object.prototype]) together
    with its own properties. *)
Inductive cursor :=
| Null
| At (b : base) (path : list jstring) (here : object).

Fixpoint upd_at (path : list jstring) (f : object -> object) (o : object)
  : object :=
  match path with
  | [] => f o
  | k :: path' =>
      match lookup k o with
      | Some (VObj o') => set_own k (VObj (upd_at path' f o')) o
      | _ => o
      end
  end.

Definition write (b : base) (path : list jstring) (f : object -> object)
    (h : heap) : heap :=
  match b with
  | Root => {| root := upd_at path f (root h); proto := proto h |}
  | Proto => {| root := root h; proto := upd_at path f (proto h) |}
  end.

Definition is_Object_prototype (b : base) (path : list jstring) : bool :=
  match b, path with
  | Proto, [] => true
  | _, _ => false
  end.

(** Lines 23-25, for a part [p] that is not the last one.  [None] is the
    TypeError of [p in null]. *)
Definition descend (p : jstring) (c : cursor) (h : heap)
  : option (cursor * heap) :=
  match c with
  | Null => None
  | At b path here =>
      let fresh := (At b (path ++ [p]) [],
                    write b path (set_own p (VObj [])) h) in
      if eqb_str p PROTO then
        (* inherited accessor: the prototype of [cur] *)
        if is_Object_prototype b path then Some (Null, h)
        else Some (At Proto [] (proto h), h)
      else
        match lookup p here with
        | Some (VObj o') => Some (At b (path ++ [p]) o', h)
        | Some (VStr _) => Some fresh
        | None =>
            if is_Object_prototype b path then Some fresh
            else
              match lookup p (proto h) with
              | Some (VObj o') => Some (At Proto [p] o', h)
              | _ => Some fresh
              end
        end
  end.

(** Line 21: [cur[p] = value] for the last part; [value] is a string in
    every call of this program.  [None] is the TypeError of a write on
    [null]. *)
Definition put (p value : jstring) (c : cursor) (h : heap) : option heap :=
  match c with
  | Null => None
  | At b path _ =>
      Some (write b path (assign_string VStr p value) h)
  end.

(** The loop of lines 19-27.  The heap is returned also when the loop
    throws: what it wrote before stays written. *)
Fixpoint walk (parts : list jstring) (value : jstring) (c : cursor)
    (h : heap) : heap * bool :=
  match parts with
  | [] => (h, true)
  | p :: rest =>
      match rest with
      | [] =>
          match put p value c h with
          | Some h' => (h', true)
          | None => (h, false)
          end
      | _ :: _ =>
          match descend p c h with
          | Some (c', h') => walk rest value c' h'
          | None => (h, false)
          end
      end
  end.

(** [setNested(obj, path, value)] with [Object.prototype] in state [P]:
    the new [obj], the new state of [Object.prototype], and whether the
    call returned ([true]) or threw a TypeError ([false]). *)
Definition setNested (P obj : object) (path value : jstring)
  : object * object * bool :=
  let '(h, ok) := walk (split DOT path) value (At Root [] obj)
                       {| root := obj; proto := P |} in
  (root h, proto h, ok).

(* ================================================================== *)
(** * The record mapper: [mapRecordToDb] (index.js 87-116) *)
(* ================================================================== *)

Record Document := {
  name : jstring;
  age : number;
  address : option object;
  additional_info : option object
}.

(** The two [throw new Error(...)] of lines 92 and 95 (the validation
    errors), and the TypeError the JavaScript engine raises on its own. *)
Inductive map_error :=
| MandatoryMissing (firstName lastName ageRaw : jstring)
| InvalidAge (ageRaw : jstring)
| TypeError.

Definition is_validation_error (e : map_error) : bool :=
  match e with
  | MandatoryMissing _ _ _ | InvalidAge _ => true
  | TypeError => false
  end.

(** What [rec[k]] evaluates to: an own property of [rec], else the property
    inherited from [Object.prototype]. *)
Inductive jsval := Undefined | Str (s : jstring) | Obj.

Definition get_prop (P : object) (rec : FlatRecord) (k : jstring) : jsval :=
  match lookup k rec with
  | Some s => Str s
  | None =>
      match lookup k P with
      | Some (VStr s) => Str s
      | Some (VObj _) => Obj
      | None => Undefined
      end
  end.

(** [(x || '').trim()]; an object has no callable [trim]: TypeError. *)
Definition or_empty_trim (x : jsval) : option jstring :=
  match x with
  | Undefined => Some []
  | Str s => Some (trim s)
  | Obj => None
  end.

Definition field (P : object) (rec : FlatRecord) (k : jstring)
  : option jstring := or_empty_trim (get_prop P rec k).

Definition K_FIRST : jstring := js "name.firstName".
Definition K_LAST : jstring := js "name.lastName".
Definition K_AGE : jstring := js "age".
Definition ADDRESS_DOT : jstring := js "address.".

(** A property key that is an array index: the canonical decimal form of an
    integer below [2^32 - 1].  [Object.entries] lists such keys first, in
    ascending order, then all other keys in creation order. *)
Definition array_index (k : jstring) : option Z :=
  match k with
  | [] => None
  | c :: k' =>
      if forallb is_digit k
         && (negb (N.eqb c 48) || is_empty k')
         && (length k <=? 10)
      then match digits k 0%Z false with
           | Some n => if (n <? 2 ^ 32 - 1)%Z then Some n else None
           | None => None
           end
      else None
  end.

Fixpoint insert_by_index (n : Z) (e : jstring * jstring)
    (l : list (Z * (jstring * jstring))) : list (Z * (jstring * jstring)) :=
  match l with
  | [] => [(n, e)]
  | (m, e') :: l' =>
      if (n <? m)%Z then (n, e) :: l else (m, e') :: insert_by_index n e l'
  end.

Fixpoint index_entries (rec : FlatRecord) : list (Z * (jstring * jstring)) :=
  match rec with
  | [] => []
  | (k, v) :: rec' =>
      match array_index k with
      | Some n => insert_by_index n (k, v) (index_entries rec')
      | None => index_entries rec'
      end
  end.

Definition is_index_key (e : jstring * jstring) : bool :=
  match array_index (fst e) with Some _ => true | None => false end.

(** [Object.entries(rec)] *)
Definition Object_entries (rec : FlatRecord) : list (jstring * jstring) :=
  List.map snd (index_entries rec)
  ++ List.filter (fun e => negb (is_index_key e)) rec.

Definition is_consumed (k : jstring) : bool :=
  eqb_str k K_FIRST || eqb_str k K_LAST || eqb_str k K_AGE.

(** The loop of lines 100-109: [address], [additional] and
    [Object.prototype] after it, and whether it ran to its end. *)
Fixpoint entries_loop (es : list (jstring * jstring))
    (address additional P : object) : object * object * object * bool :=
  match es with
  | [] => (address, additional, P, true)
  | (k, v) :: es' =>
      if is_consumed k then entries_loop es' address additional P
      else if startsWith ADDRESS_DOT k then
        let '(address', P', ok) :=
          setNested P address (slice (length ADDRESS_DOT) k) v in
        if ok then entries_loop es' address' additional P'
        else (address', additional, P', false)
      else
        let '(additional', P', ok) := setNested P additional k v in
        if ok then entries_loop es' address additional' P'
        else (address, additional', P', false)
  end.

(** [Object.keys(o).length ? o : null] *)
Definition or_null (o : object) : option object :=
  if 0 <? keys_length o then Some o else None.

(** [mapRecordToDb(rec)], called when [Object.prototype] carries the
    properties [P]: the Document or the exception, and [Object.prototype]
    afterwards. *)
Definition mapRecordToDb (P : object) (rec : FlatRecord)
  : (map_error + Document) * object :=
  match field P rec K_FIRST, field P rec K_LAST, field P rec K_AGE with
  | Some firstName, Some lastName, Some ageRaw =>
      if is_empty firstName || is_empty lastName || is_empty ageRaw
      then (inl (MandatoryMissing firstName lastName ageRaw), P)
      else
        let age := parseInt ageRaw in
        if isNaN age then (inl (InvalidAge ageRaw), P)
        else
          let nameCombined := firstName ++ js " " ++ lastName in
          let '(address, additional, P', ok) :=
            entries_loop (Object_entries rec) [] [] P in
          if ok then
            (inr {| name := nameCombined;
                    age := age;
                    address := or_null address;
                    additional_info := or_null additional |}, P')
          else (inl TypeError, P')
  | _, _, _ => (inl TypeError, P)
  end.

(** [Object.prototype] as the program finds it at start-up. *)
Definition pristine : object := [].

(* ================================================================== *)
(** * The store behind [client.query] *)
(* ================================================================== *)

(** A row of [public.users]; its [age] column is an integer column. *)
Record PersistedRow := {
  r_name : jstring;
  r_age : Z;
  r_address : option object;
  r_additional_info : option object
}.

(** The row an INSERT parameter list denotes; an age that is not an integer
    has no representation in the integer column. *)
Definition to_row (d : Document) : option PersistedRow :=
  match age d with
  | Int z => Some {| r_name := name d; r_age := z;
                     r_address := address d;
                     r_additional_info := additional_info d |}
  | _ => None
  end.

Fixpoint to_rows (ds : list Document) : option (list PersistedRow) :=
  match ds with
  | [] => Some []
  | d :: ds' =>
      match to_row d, to_rows ds' with
      | Some r, Some rs => Some (r :: rs)
      | _, _ => None
      end
  end.

(** The statements [index.js] sends. *)
Inductive statement :=
| BEGIN
| INSERT (rows : list Document)
| COMMIT
| ROLLBACK
| SELECT_COUNT
| SELECT_BUCKETS.

(** Committed rows, and the rows written by the open transaction. *)
Record store := {
  table : list PersistedRow;
  tx : option (list PersistedRow)
}.

(** The connection: the store, and the statements sent so far (oldest
    first). *)
Record client := {
  db : store;
  sent : list statement
}.

Definition is_insert (s : statement) : bool :=
  match s with INSERT _ => true | _ => false end.

Definition inserts_sent (c : client) : nat :=
  length (List.filter is_insert (sent c)).

(** The rows a SELECT on this connection sees. *)
Definition visible (s : store) : list PersistedRow :=
  match tx s with
  | Some pending => table s ++ pending
  | None => table s
  end.

(** The statements other than INSERT that the store rejects in a run (the
    promise of [client.query] is rejected then, and the [await] throws).  A
    rejected statement leaves the store as it is. *)
Record faults := {
  begin_rejected : bool;
  commit_rejected : bool;
  count_rejected : bool;
  buckets_rejected : bool;
  rollback_rejected : bool
}.

(** The store rejects none of them. *)
Definition no_faults : faults :=
  {| begin_rejected := false; commit_rejected := false;
     count_rejected := false; buckets_rejected := false;
     rollback_rejected := false |}.

Section Loader.

(* ------------------------------------------------------------------ *)
(** ** The batch loader (index.js 118-133, 165-175) *)

(** [insert_fails k rows]: the store rejects the INSERT that is the
    [k]-th one of the connection (counted from 0) and carries [rows]
    (a constraint violation, a lost connection).  Which of BEGIN, COMMIT,
    ROLLBACK and the two SELECTs it rejects is told by [faults]. *)
Variable insert_fails : nat -> list Document -> bool.

(** [BATCH_SIZE], the result of a [parseInt]. *)
Variable BATCH_SIZE : number.

Definition record_sent (s : statement) (c : client) (d : store) : client :=
  {| db := d; sent := sent c ++ [s] |}.

(** [client.query(INSERT ...)]: the client afterwards, and whether the
    promise was fulfilled. *)
Definition query_insert (c : client) (rows : list Document)
  : client * bool :=
  let s := db c in
  match (if insert_fails (inserts_sent c) rows then None else to_rows rows)
  with
  | None => (record_sent (INSERT rows) c s, false)
  | Some rs =>
      let s' := match tx s with
                | Some pending =>
                    {| table := table s; tx := Some (pending ++ rs) |}
                | None => {| table := table s ++ rs; tx := None |}
                end in
      (record_sent (INSERT rows) c s', true)
  end.

Definition query_begin (c : client) : client :=
  record_sent BEGIN c
    {| table := table (db c);
       tx := match tx (db c) with Some p => Some p | None => Some [] end |}.

Definition query_commit (c : client) : client :=
  record_sent COMMIT c {| table := visible (db c); tx := None |}.

Definition query_rollback (c : client) : client :=
  record_sent ROLLBACK c {| table := table (db c); tx := None |}.

(** A statement that the store rejects. *)
Definition query_rejected (s : statement) (c : client) : client :=
  record_sent s c (db c).

(** [insertBatch(client, rows)] (lines 118-133) *)
Definition insertBatch (c : client) (rows : list Document)
  : client * bool :=
  match rows with
  | [] => (c, true)
  | _ :: _ => query_insert c rows
  end.

(** [n >= BATCH_SIZE] for a length [n] *)
Definition ge_BATCH_SIZE (n : nat) : bool :=
  match BATCH_SIZE with
  | NaN => false
  | Infinity negative => negative
  | Int b => (b <=? Z.of_nat n)%Z
  end.

(** What the run prints, line by line: the messages of lines 157, 159 and
    161, the warning of line 171, the progress messages of lines 173 and
    175, the messages of lines 177 and 181, and the lines of the report
    (138, 150 and, with the label and the percentage, 151-154). *)
Inductive event :=
| Starting
| Parsing
| Parsed (n : nat)
| Skipping (row : nat) (e : map_error)
| Inserted (n : nat)
| InsertedFinal (n : nat)
| Committed
| Failed
| NoRecordsLine
| ReportTitle
| ReportLine (label : jstring) (p : Z).

Record loop_state := {
  batch : list Document;
  inserted : nat;
  conn : client;
  log : list event;
  Object_prototype : object
}.

(** The loop of lines 167-174 from index [i] on.  [inl] is the state in
    which a rejected [insertBatch] left the loop. *)
Fixpoint records_loop (records : list FlatRecord) (i : nat)
    (st : loop_state) : loop_state + loop_state :=
  match records with
  | [] => inr st
  | rec :: records' =>
      match mapRecordToDb (Object_prototype st) rec with
      | (inl err, P') =>
          records_loop records' (S i)
            {| batch := batch st; inserted := inserted st;
               conn := conn st;
               log := log st ++ [Skipping (i + 2) err];
               Object_prototype := P' |}
      | (inr mapped, P') =>
          let batch1 := batch st ++ [mapped] in
          if ge_BATCH_SIZE (length batch1) then
            match insertBatch (conn st) batch1 with
            | (c', true) =>
                let inserted' := inserted st + length batch1 in
                records_loop records' (S i)
                  {| batch := []; inserted := inserted';
                     conn := c';
                     log := log st ++ [Inserted inserted'];
                     Object_prototype := P' |}
            | (c', false) =>
                inl {| batch := batch1; inserted := inserted st;
                       conn := c'; log := log st;
                       Object_prototype := P' |}
            end
          else
            records_loop records' (S i)
              {| batch := batch1; inserted := inserted st;
                 conn := conn st; log := log st;
                 Object_prototype := P' |}
      end
  end.

(** Line 175: the last, partial batch. *)
Definition flush (st : loop_state) : loop_state + loop_state :=
  if 0 <? length (batch st) then
    match insertBatch (conn st) (batch st) with
    | (c', true) =>
        let inserted' := inserted st + length (batch st) in
        inr {| batch := batch st; inserted := inserted';
               conn := c';
               log := log st ++ [InsertedFinal inserted'];
               Object_prototype := Object_prototype st |}
    | (c', false) =>
        inl {| batch := batch st; inserted := inserted st;
               conn := c'; log := log st;
               Object_prototype := Object_prototype st |}
    end
  else inr st.

(** Lines 165-175: the loop, then the flush. *)
Definition load (records : list FlatRecord) (st : loop_state)
  : loop_state + loop_state :=
  match records_loop records 0 st with
  | inl st' => inl st'
  | inr st' => flush st'
  end.

(* ------------------------------------------------------------------ *)
(** ** The age report: [printAgeDistribution] (index.js 135-155) *)

(** The four CASE conditions of the query of lines 139-146. *)
Definition lt20 (a : Z) : bool := (a <? 20)%Z.
Definition btw20_40 (a : Z) : bool := (20 <=? a)%Z && (a <=? 40)%Z.
Definition btw40_60 (a : Z) : bool := (40 <? a)%Z && (a <=? 60)%Z.
Definition gt60 (a : Z) : bool := (60 <? a)%Z.

(** [SUM(CASE WHEN cond THEN 1 ELSE 0 END)] over a non-empty table. *)
Definition sum_case (cond : Z -> bool) (rows : list PersistedRow) : Z :=
  Z.of_nat (length (List.filter (fun r => cond (r_age r)) rows)).

(** The binary64 number of a count below [2^63]. *)
Definition to_float (n : Z) : float := PrimFloat.of_uint63 (Uint63.of_Z n).

(** [Math.round(x)]: the integer nearest to [x], a tie going up.  (The
    report rounds finite numbers only.) *)
Definition Math_round (x : float) : Z :=
  match Prim2SF x with
  | S754_finite s m e =>
      let v := if s then Z.neg m else Z.pos m in
      if (0 <=? e)%Z then (v * 2 ^ e)%Z
      else ((2 * v + 2 ^ (- e)) / 2 ^ (- e + 1))%Z
  | _ => 0%Z
  end.

(** Line 149: [pct = n => total === 0 ? 0 : Math.round((n / total) * 100)] *)
Definition pct (total n : Z) : Z :=
  if (total =? 0)%Z then 0%Z
  else Math_round (to_float n / to_float total * to_float 100)%float.

Inductive report :=
| NoRecords
| Distribution (p_lt20 p_20_40 p_40_60 p_gt60 : Z).

(** [printAgeDistribution(client)] *)
Definition printAgeDistribution (c : client) : client * report :=
  let rows := visible (db c) in
  let c1 := record_sent SELECT_COUNT c (db c) in
  let total := Z.of_nat (length rows) in
  if (total =? 0)%Z then (c1, NoRecords)
  else
    let c2 := record_sent SELECT_BUCKETS c1 (db c1) in
    (c2, Distribution (pct total (sum_case lt20 rows))
                      (pct total (sum_case btw20_40 rows))
                      (pct total (sum_case btw40_60 rows))
                      (pct total (sum_case gt60 rows))).

(** What [printAgeDistribution] prints (lines 138, 150-154). *)
Definition report_lines (r : report) : list event :=
  match r with
  | NoRecords => [NoRecordsLine]
  | Distribution a b c d =>
      [ReportTitle; ReportLine (js "< 20") a; ReportLine (js "20 to 40") b;
       ReportLine (js "40 to 60") c; ReportLine (js "> 60") d]
  end.

(** [printAgeDistribution(client)] on a store that may reject its queries:
    the same queries, and the statement that threw instead of the report
    when one is rejected. *)
Definition printAgeDistribution_with (f : faults) (c : client)
  : client * (statement + report) :=
  if count_rejected f then (query_rejected SELECT_COUNT c, inl SELECT_COUNT)
  else
    let '(c', r) := printAgeDistribution c in
    match r with
    | NoRecords => (c', inr r)
    | Distribution _ _ _ _ =>
        if buckets_rejected f then (c', inl SELECT_BUCKETS) else (c', inr r)
    end.

(* ------------------------------------------------------------------ *)
(** ** [importCsvFile] (index.js 156-184) *)

(** The exceptions a run ends with: that of the parser, that of a rejected
    INSERT, that of another rejected statement. *)
Inductive import_error :=
| ParseFailed (e : parse_error)
| InsertRejected
| Rejected (s : statement).

(** What a run leaves behind: its result (the report, or the exception it
    rethrows), the connection, what it printed and [Object.prototype]. *)
Record run := {
  result : import_error + report;
  final : client;
  printed : list event;
  prototype_after : object
}.

(** The [catch] block of lines 179-182 for the exception [err], on the
    connection [c] and after the lines [out]: ROLLBACK, whose own failure
    is swallowed, the message, and the exception rethrown. *)
Definition caught (f : faults) (err : import_error) (c : client)
    (out : list event) (P : object) : run :=
  {| result := inl err;
     final := if rollback_rejected f then query_rejected ROLLBACK c
              else query_rollback c;
     printed := out ++ [Failed];
     prototype_after := P |}.

(** [importCsvFile(filePath)] for a file with content [text], on the
    connection [c0] handed out by the pool, with [Object.prototype] in
    state [P0], on a store that rejects the statements [f] tells. *)
Definition importCsvFile_with (f : faults) (text : jstring) (c0 : client)
    (P0 : object) : run :=
  match parseCSVText text with
  | inl e =>
      {| result := inl (ParseFailed e); final := c0;
         printed := [Starting; Parsing]; prototype_after := P0 |}
  | inr records =>
      let out0 := [Starting; Parsing; Parsed (length records)] in
      if begin_rejected f
      then caught f (Rejected BEGIN) (query_rejected BEGIN c0) out0 P0
      else
        let st0 := {| batch := []; inserted := 0; conn := query_begin c0;
                      log := out0; Object_prototype := P0 |} in
        match load records st0 with
        | inl st =>
            caught f InsertRejected (conn st) (log st) (Object_prototype st)
        | inr st =>
            if commit_rejected f
            then caught f (Rejected COMMIT) (query_rejected COMMIT (conn st))
                   (log st) (Object_prototype st)
            else
              let out := log st ++ [Committed] in
              match printAgeDistribution_with f (query_commit (conn st)) with
              | (c3, inr r) =>
                  {| result := inr r; final := c3;
                     printed := out ++ report_lines r;
                     prototype_after := Object_prototype st |}
              | (c3, inl s) =>
                  caught f (Rejected s) c3 out (Object_prototype st)
              end
        end
  end.

(** The run on a store that rejects no statement other than an INSERT. *)
Definition importCsvFile (text : jstring) (c0 : client) (P0 : object)
  : run := importCsvFile_with no_faults text c0 P0.

(* ------------------------------------------------------------------ *)
(** ** The run seen from its documents *)

(** The documents of the records that [mapRecordToDb] accepts, in order. *)
Fixpoint mapped (P : object) (records : list FlatRecord) : list Document :=
  match records with
  | [] => []
  | rec :: records' =>
      match mapRecordToDb P rec with
      | (inl _, P') => mapped P' records'
      | (inr d, P') => d :: mapped P' records'
      end
  end.

(** The batches into which the loop and the final flush cut the documents
    [ds], starting from the partial batch [b]. *)
Fixpoint batches (b : list Document) (ds : list Document)
  : list (list Document) :=
  match ds with
  | [] => if 0 <? length b then [b] else []
  | d :: ds' =>
      let b1 := b ++ [d] in
      if ge_BATCH_SIZE (length b1) then b1 :: batches [] ds'
      else batches b1 ds'
  end.

(** The store rejects the INSERT of [rows] sent as the [k]-th one. *)
Definition rejects (k : nat) (rows : list Document) : bool :=
  insert_fails k rows
  || match to_rows rows with Some _ => false | None => true end.

(** Sending batches one after the other, up to the first rejected one. *)
Fixpoint send_all (c : client) (bs : list (list Document)) : client * bool :=
  match bs with
  | [] => (c, true)
  | b :: bs' =>
      match query_insert c b with
      | (c', true) => send_all c' bs'
      | (c', false) => (c', false)
      end
  end.

(** The row lists of the INSERT statements in a list of statements. *)
Fixpoint insert_rows (l : list statement) : list (list Document) :=
  match l with
  | [] => []
  | INSERT rows :: l' => rows :: insert_rows l'
  | _ :: l' => insert_rows l'
  end.

End Loader.

(* ================================================================== *)
(** * The settings and the query text (index.js 7-8, 119-132) *)
(* ================================================================== *)

(** The decimal digits of [n >= 0] in front of [acc], the last digit
    first; [fuel] bounds the number of digits. *)
Fixpoint decimal_digits (fuel : nat) (n : Z) (acc : jstring) : jstring :=
  match fuel with
  | O => acc
  | S fuel' =>
      let acc' := Z.to_N (48 + n mod 10) :: acc in
      if (n <? 10)%Z then acc' else decimal_digits fuel' (n / 10) acc'
  end.

(** [String(z)], what a template literal or [parseInt] makes of an
    integer Number (of a magnitude below [10^21], where JavaScript turns
    to the exponent notation). *)
Definition decimal (z : Z) : jstring :=
  let a := Z.abs z in
  let ds := decimal_digits (S (Z.to_nat (Z.log2 a))) a [] in
  if (z <? 0)%Z then MINUS :: ds else ds.

(** Lines 7 and 8: [parseInt(process.env.X || default, 10)]; an unset
    variable is [None]. *)
Definition env_number (env : option jstring) (default : jstring) : number :=
  parseInt match env with
           | Some s => if is_empty s then default else s
           | None => default
           end.

(** Line 7 *)
Definition BATCH_SIZE_of (env : option jstring) : number :=
  env_number env (js "1000").

(** A parameter of a query: a string, a number or [null]. *)
Inductive param :=
| PString (s : jstring)
| PNumber (n : number)
| PNull.

(** [l.join(sep)] *)
Fixpoint join (sep : jstring) (l : list jstring) : jstring :=
  match l with
  | [] => []
  | x :: l' =>
      match l' with
      | [] => x
      | _ :: _ => x ++ sep ++ join sep l'
      end
  end.

Section Query.

(** [JSON.stringify] on the objects of a Document; the text it returns
    plays no part in what is proved of the query. *)
Variable JSON_stringify : object -> jstring.

(** [o ? JSON.stringify(o) : null], for [o] an object or [null]. *)
Definition json_or_null (o : option object) : param :=
  match o with
  | Some obj => PString (JSON_stringify obj)
  | None => PNull
  end.

(** The template of line 125 when [paramIdx] is [p]. *)
Definition placeholder (p : nat) : jstring :=
  js "($" ++ decimal (Z.of_nat p)
  ++ js ", $" ++ decimal (Z.of_nat (p + 1))
  ++ js ", $" ++ decimal (Z.of_nat (p + 2))
  ++ js "::jsonb, $" ++ decimal (Z.of_nat (p + 3)) ++ js "::jsonb)".

(** Lines 126-129: the four values pushed for a row. *)
Definition row_values (r : Document) : list param :=
  [PString (name r); PNumber (age r); json_or_null (address r);
   json_or_null (additional_info r)].

(** The loop of lines 124-130. *)
Fixpoint bind_rows (rows : list Document) (paramIdx : nat)
    (placeholders : list jstring) (vals : list param)
  : list jstring * list param :=
  match rows with
  | [] => (placeholders, vals)
  | r :: rows' =>
      bind_rows rows' (paramIdx + 4) (placeholders ++ [placeholder paramIdx])
        (vals ++ row_values r)
  end.

Definition cols : list jstring :=
  [DQUOTE :: js "name" ++ [DQUOTE]; js "age"; js "address";
   js "additional_info"].

(** The text and the values [insertBatch] hands to [client.query]
    (lines 119-132); [None] when it returns without a query. *)
Definition insert_query (rows : list Document)
  : option (jstring * list param) :=
  match rows with
  | [] => None
  | _ :: _ =>
      let '(placeholders, vals) := bind_rows rows 1 [] [] in
      Some (js "INSERT INTO public.users (" ++ join [COMMA] cols
            ++ js ") VALUES " ++ join [COMMA] placeholders, vals)
  end.

End Query.

(* ================================================================== *)
(** * Notions used to state the properties *)
(* ================================================================== *)

(** What precedes the first line break of a text. *)
Fixpoint until_break (s : jstring) : jstring :=
  match s with
  | [] => []
  | c :: s' => if N.eqb c LF || N.eqb c CR then [] else c :: until_break s'
  end.

(** The header line of an input: its first line, after the byte order
    mark. *)
Definition header_line (text : jstring) : jstring :=
  until_break (skip_bom text).

(** [EmptyLine text rest]: [text] starts with a line that has no content,
    and [rest] is what follows its line break. *)
Inductive EmptyLine : jstring -> jstring -> Prop :=
| EmptyLine_LF rest : EmptyLine (LF :: rest) rest
| EmptyLine_CRLF rest : EmptyLine (CR :: LF :: rest) rest
| EmptyLine_CR rest :
    match rest with c :: _ => c <> LF | [] => True end ->
    EmptyLine (CR :: rest) rest.

(** Every value of the record is the empty string. *)
Definition all_empty (rec : FlatRecord) : Prop :=
  Forall (fun kv => snd kv = []) rec.


(** A string that is an optionally signed, non-empty run of decimal digits
    and nothing else. *)
Definition is_decimal_integer (s : jstring) : bool :=
  let body := match s with
              | c :: s' => if N.eqb c MINUS || N.eqb c PLUS then s' else s
              | [] => s
              end in
  negb (is_empty body) && forallb is_digit body.

(** A string that begins, after an optional sign, with a decimal digit. *)
Definition starts_with_integer (s : jstring) : bool :=
  let body := match s with
              | c :: s' => if N.eqb c MINUS || N.eqb c PLUS then s' else s
              | [] => s
              end in
  match body with
  | c :: _ => is_digit c
  | [] => false
  end.

(** No character of [w] is a double quote. *)
Definition quote_free (w : jstring) : bool :=
  forallb (fun c => negb (N.eqb c DQUOTE)) w.

(** The header line used in the examples of quoting. *)
Definition H123 : jstring := js "h1,h2,h3".

(** The record obtained by [rec[h] = ''] for every header [h] in turn
    (an assignment to the key [__proto__] stores nothing, as in
    [assign_string]). *)
Definition empty_record (headers : list jstring) : FlatRecord :=
  fold_left (fun rec h => assign_string (fun s => s) h [] rec) headers [].

(** None of the three keys [mapRecordToDb] reads is found on
    [Object.prototype] instead of on the record itself. *)
Definition reads_own (P : object) (rec : FlatRecord) : Prop :=
  forall k, In k [K_FIRST; K_LAST; K_AGE] ->
    lookup k rec <> None \/ lookup k P = None.

(** A record with the three mandatory fields and nothing else. *)
Definition person (first last age : jstring) : FlatRecord :=
  [(K_FIRST, first); (K_LAST, last); (K_AGE, age)].

(** The decimal numeral of [10^309]: a one followed by 309 zeros. *)
Definition ten_pow_309 : jstring := js "1" ++ repeat 48%N 309.

(** The connection a run of the loop ends with, and whether it ended
    normally. *)
Definition ending (r : loop_state + loop_state) : client * bool :=
  match r with
  | inl st => (conn st, false)
  | inr st => (conn st, true)
  end.

(** An input with one data line, whose age has 310 digits. *)
Definition overflow_text : jstring :=
  js "name.firstName,name.lastName,age" ++ LF :: js "A,B," ++ ten_pow_309.

(** An input with three data lines, the second with an age of 310
    digits. *)
Definition overflow_among_three : jstring :=
  js "name.firstName,name.lastName,age" ++ LF :: js "A,B,5"
  ++ LF :: js "C,D," ++ ten_pow_309 ++ LF :: js "E,F,45".

(** The age of the Document is an integer. *)
Definition finite_age (d : Document) : Prop := exists z, age d = Int z.

(** A connection fresh from the pool, on a store holding [rows]. *)
Definition fresh_client (rows : list PersistedRow) : client :=
  {| db := {| table := rows; tx := None |}; sent := [] |}.

(** The input of the examples: a header and three valid lines. *)
Definition three_people : jstring :=
  js "name.firstName,name.lastName,age" ++ LF :: js "A,B,5"
  ++ LF :: js "C,D,25" ++ LF :: js "E,F,45".

(** The records of a text that has a header. *)
Definition records_of (text : jstring) : list FlatRecord :=
  match parseCSVText text with
  | inr records => records
  | inl _ => []
  end.

(** A store that rejects the second INSERT it receives, and one that
    rejects none. *)
Definition second_fails (k : nat) (rows : list Document) : bool := Nat.eqb k 1.
Definition never_fails (k : nat) (rows : list Document) : bool := false.

(** An input with a key [address.__proto__] and a key [__proto__.x]. *)
Definition proto_text : jstring :=
  js "name.firstName,name.lastName,age,address.__proto__,__proto__.x"
  ++ LF :: js "A,B,30,X,Y".

(** A row of age [a]. *)
Definition row_of_age (a : Z) : PersistedRow :=
  {| r_name := js "A B"; r_age := a;
     r_address := None; r_additional_info := None |}.

(** The number of the four CASE conditions that hold of an age. *)
Definition buckets_holding (a : Z) : nat :=
  (if lt20 a then 1 else 0) + (if btw20_40 a then 1 else 0)
  + (if btw40_60 a then 1 else 0) + (if gt60 a then 1 else 0).



(** No part of the dotted key [k] is [__proto__]. *)
Definition proto_free_key (k : jstring) : bool :=
  negb (existsb (eqb_str PROTO) (split DOT k)).

(** No key of the record has a part [__proto__]. *)
Definition proto_free (rec : FlatRecord) : Prop :=
  forall k v, In (k, v) rec -> proto_free_key k = true.

(** [Object.prototype] carries no object the program has put there. *)
Definition no_objects (P : object) : Prop :=
  forall k o, lookup k P <> Some (VObj o).

(** No key written on [Object.prototype] contains a dot. *)
Definition dotless (s : jstring) : bool :=
  forallb (fun c => negb (N.eqb c DOT)) s.

Definition dotless_keys (P : object) : Prop :=
  forall k v, In (k, v) P -> dotless k = true.

(** [Object.prototype] after [mapRecordToDb] has been called on each of
    the records in turn. *)
Definition proto_after (P : object) (records : list FlatRecord) : object :=
  fold_left (fun P rec => snd (mapRecordToDb P rec)) records P.

(** The state of [Object.prototype] in a run over records of the headers
    [hs]: dotless keys, and a property [age] only if the records have
    their own. *)
Definition run_state (hs : list jstring) (P : object) : Prop :=
  dotless_keys P /\ (lookup K_AGE P = None \/ In K_AGE hs).

(** The scenario of the specification: a valid line, and a line without
    first name. *)
Definition scenario : jstring :=
  js "name.firstName,name.lastName,age,address.city" ++ LF :: js "A,B,30,X"
  ++ LF :: js ",C,40,Y".

(** A line without quote character and without line break. *)
Definition plain_line (w : jstring) : bool :=
  forallb (fun c => negb (N.eqb c DQUOTE || N.eqb c LF || N.eqb c CR)) w.

(** The headers [parseCSVText] computes on line 74. *)
Definition headers_of (text : jstring) : list jstring :=
  List.map trim (fst (readLineAsFields (skip_bom text))).

(** The text ends with a line feed or a carriage return. *)
Definition ends_in_break (t : jstring) : bool :=
  let c := last t 0%N in N.eqb c LF || N.eqb c CR.

(** The three line breaks the reader knows. *)
Inductive LineBreak : jstring -> Prop :=
| LineBreak_LF : LineBreak [LF]
| LineBreak_CR : LineBreak [CR]
| LineBreak_CRLF : LineBreak [CR; LF].

(** What line 81 stores for column [k] of a line with the fields
    [fields]. *)
Definition cell (fields : list jstring) (k : nat) : jstring :=
  match nth_error fields k with
  | Some f => trim f
  | None => []
  end.

(** The field being read, put in front of the pieces of the rest of the
    line. *)
Definition glue (cur : jstring) (pieces : list jstring) : list jstring :=
  match pieces with
  | p :: ps => (cur ++ p) :: ps
  | [] => [cur]
  end.

(** The object reached from [o] through the own properties [path]. *)
Fixpoint get_obj (path : list jstring) (o : object) : option object :=
  match path with
  | [] => Some o
  | k :: path' =>
      match lookup k o with
      | Some (VObj o') => get_obj path' o'
      | _ => None
      end
  end.

(** What the own properties of [o] hold at the end of the path [parts]. *)
Fixpoint get_path (parts : list jstring) (o : object) : option value :=
  match parts with
  | [] => None
  | p :: rest =>
      match rest with
      | [] => lookup p o
      | _ :: _ =>
          match lookup p o with
          | Some (VObj o') => get_path rest o'
          | _ => None
          end
      end
  end.

(** [cur] is [Object.prototype] (the flag) and the parts left make the
    loop of [setNested] go through [null]. *)
Fixpoint reaches_null (at_prototype : bool) (parts : list jstring) : bool :=
  match parts with
  | [] => false
  | p :: rest =>
      match rest with
      | [] => false
      | _ :: _ =>
          if eqb_str p PROTO
          then if at_prototype then true else reaches_null true rest
          else reaches_null false rest
      end
  end.

(** Whether [cur] is [Object.prototype]. *)
Definition at_Object_prototype (c : cursor) : bool :=
  match c with
  | Null => false
  | At b path _ => is_Object_prototype b path
  end.

(** Where the loop of lines 100-109 sends a key: nowhere (a consumed
    key), to [address] under the path after the prefix ([true]), or to
    [additional] under the key itself ([false]). *)
Definition route (k : jstring) : option (bool * jstring) :=
  if is_consumed k then None
  else if startsWith ADDRESS_DOT k
       then Some (true, slice (length ADDRESS_DOT) k)
       else Some (false, k).

(** The field of the Document built from [address] ([true]) or from
    [additional] ([false]). *)
Definition built (d : Document) (from_address : bool) : option object :=
  if from_address then address d else additional_info d.





(** The test [batch.length >= BATCH_SIZE] fails for every length. *)
Definition never_full (B : number) : bool :=
  match B with
  | NaN | Infinity false => true
  | _ => false
  end.

(** The test [batch.length >= BATCH_SIZE] holds for every length from 1
    on. *)
Definition always_full (B : number) : bool :=
  match B with
  | Infinity true => true
  | Int b => (b <=? 1)%Z
  | _ => false
  end.

(** The ways a run ends its statements, after BEGIN and its INSERTs. *)
Definition closing_statements : list (list statement) :=
  [[ROLLBACK];
   [COMMIT; ROLLBACK];
   [COMMIT; SELECT_COUNT; ROLLBACK];
   [COMMIT; SELECT_COUNT];
   [COMMIT; SELECT_COUNT; SELECT_BUCKETS; ROLLBACK];
   [COMMIT; SELECT_COUNT; SELECT_BUCKETS]].

(* ================================================================== *)
(** * Properties *)
(* ================================================================== *)

(** ** Strings *)

Lemma eqb_str_eq (a b : jstring) : eqb_str a b = true <-> a = b.
Proof.
  revert b; induction a as [|x a IH]; intros [|y b]; simpl;
    try (split; [discriminate | congruence]); try tauto.
  rewrite andb_true_iff, N.eqb_eq, IH. split.
  - intros [-> ->]; reflexivity.
  - intros E; inversion E; auto.
Qed.

Lemma eqb_str_refl (a : jstring) : eqb_str a a = true.
Proof. apply eqb_str_eq; reflexivity. Qed.

Lemma eqb_str_neq (a b : jstring) : eqb_str a b = false <-> a <> b.
Proof.
  rewrite <- eqb_str_eq. destruct (eqb_str a b); split; congruence.
Qed.

Lemma is_empty_true (s : jstring) : is_empty s = true <-> s = [].
Proof. destruct s; simpl; split; congruence. Qed.

Lemma is_empty_false (s : jstring) : is_empty s = false <-> s <> [].
Proof. destruct s; simpl; split; congruence. Qed.

Lemma trimStart_all_ws (s : jstring) :
  forallb is_ws s = true -> trimStart s = [].
Proof.
  induction s as [|c s IH]; simpl; auto.
  destruct (is_ws c); simpl; auto; discriminate.
Qed.

Lemma trim_all_ws (s : jstring) : forallb is_ws s = true -> trim s = [].
Proof.
  intros H. unfold trim, trimEnd. rewrite (trimStart_all_ws _ H). reflexivity.
Qed.

(** [trimStart] drops a prefix of white space and stops at the first other
    character. *)
Lemma trimStart_split (s : jstring) :
  exists pre, s = pre ++ trimStart s /\ forallb is_ws pre = true
              /\ match trimStart s with
                 | c :: _ => is_ws c = false
                 | [] => True
                 end.
Proof.
  induction s as [|c s (pre & E & W & H)]; simpl.
  - exists []; auto.
  - destruct (is_ws c) eqn:Hc.
    + exists (c :: pre); simpl. rewrite Hc, W. repeat split; auto.
      f_equal; exact E.
    + exists []; simpl; auto.
Qed.

Lemma trimStart_fixed (s : jstring) :
  match s with c :: _ => is_ws c = false | [] => True end ->
  trimStart s = s.
Proof. destruct s as [|c s]; simpl; auto. intros ->; reflexivity. Qed.

(** The result of [trim] starts with no white space. *)
Lemma trim_head (s : jstring) :
  match trim s with c :: _ => is_ws c = false | [] => True end.
Proof.
  unfold trim, trimEnd.
  destruct (trimStart_split s) as (_ & _ & _ & Hs).
  set (t := trimStart s) in *.
  destruct (trimStart_split (rev t)) as (pre & E & _ & _).
  set (u := trimStart (rev t)) in *.
  assert (Et : t = rev u ++ rev pre).
  { rewrite <- (rev_involutive t), E, rev_app_distr. reflexivity. }
  destruct (rev u) as [|c w] eqn:Eu; auto.
  rewrite Et in Hs. exact Hs.
Qed.

Lemma trimStart_trim (s : jstring) : trimStart (trim s) = trim s.
Proof. apply trimStart_fixed, trim_head. Qed.

(** ** The line reader *)

(** One unfolding of [scan], as an equation. *)
Lemma scan_cons ch tl fields cur q :
  scan (ch :: tl) fields cur q =
  if N.eqb ch DQUOTE then
    match tl with
    | ch2 :: tl2 =>
        if q && N.eqb ch2 DQUOTE
        then scan tl2 fields (cur ++ [DQUOTE]) q
        else scan tl fields cur (negb q)
    | [] => scan tl fields cur (negb q)
    end
  else if negb q && N.eqb ch COMMA then scan tl (fields ++ [cur]) [] q
  else if negb q && (N.eqb ch LF || N.eqb ch CR) then
    (fields ++ [cur], [],
     match tl with
     | ch2 :: tl2 => if N.eqb ch CR && N.eqb ch2 LF then tl2 else tl
     | [] => tl
     end)
  else scan tl fields (cur ++ [ch]) q.
Proof. reflexivity. Qed.

(** Case analysis following the branches of [scan] on [ch :: t]. *)
Ltac scan_cases ch t q :=
  rewrite scan_cons;
  destruct (N.eqb ch DQUOTE) eqn:?;
  [ let c2 := fresh "c" in
    let t2 := fresh "t" in
    destruct t as [|c2 t2];
    [ | destruct (q && N.eqb c2 DQUOTE) eqn:? ]
  | destruct (negb q && N.eqb ch COMMA) eqn:?;
    [ | destruct (negb q && (N.eqb ch LF || N.eqb ch CR)) eqn:? ] ].

Local Abbreviation scan_fields r := (fst (fst r)) (only parsing).
Local Abbreviation scan_cur r := (snd (fst r)) (only parsing).
Local Abbreviation scan_rest r := (snd r) (only parsing).

(** The reader only moves forward. *)
Lemma scan_rest_length n : forall text fields cur q,
  length text <= n ->
  length (scan_rest (scan text fields cur q)) <= length text.
Proof.
  induction n as [|n IH]; intros [|ch t] fields cur q Hn; simpl in Hn;
    try (simpl; lia).
  assert (Htl : length t <= n) by lia.
  scan_cases ch t q; cbn [length snd] in *; try (simpl; lia);
    try (etransitivity; [apply IH; cbn [length]; lia | cbn [length]; lia]).
  destruct t as [|c2 tl2]; simpl; [lia|].
  destruct (N.eqb ch CR && N.eqb c2 LF); simpl; lia.
Qed.

Lemma readLineAsFields_rest ch t :
  length (snd (readLineAsFields (ch :: t))) <= length t.
Proof.
  unfold readLineAsFields, finish_line.
  destruct (scan (ch :: t) [] [] false) as [[f c] r] eqn:E.
  assert (H : length r <= length t).
  { change r with (scan_rest (f, c, r)). rewrite <- E. clear E.
    scan_cases ch t false; cbn [length snd]; try (simpl; lia);
      try (etransitivity;
           [eapply scan_rest_length; reflexivity | cbn [length]; lia]).
    destruct t as [|c2 tl2]; simpl; [lia|].
    destruct (N.eqb ch CR && N.eqb c2 LF); simpl; lia. }
  destruct r; [destruct (_ || _)|]; simpl in *; lia.
Qed.

(** Once something has been collected, the line has a field. *)
Lemma scan_collects n : forall text fields cur q,
  length text <= n ->
  fields <> [] \/ cur <> [] ->
  scan_fields (scan text fields cur q) <> []
  \/ scan_cur (scan text fields cur q) <> [].
Proof.
  assert (A : forall (l : list jstring) x, l ++ [x] <> [])
    by (intros [|? ?] ? ?; discriminate).
  assert (B : forall (l : jstring) x, l ++ [x] <> [])
    by (intros [|? ?] ? ?; discriminate).
  induction n as [|n IH]; intros [|ch t] fields cur q Hn H; simpl in Hn;
    try (simpl; tauto); try lia.
  scan_cases ch t q; cbn [length fst snd] in *;
    try (apply IH; [cbn [length] in *; lia | auto]).
  left; apply A.
Qed.

(** The reader stops before the end of the text only at a line break, where
    it has just stored a field. *)
Lemma scan_stops_with_field n : forall text fields cur q,
  length text <= n ->
  scan_rest (scan text fields cur q) <> [] ->
  scan_fields (scan text fields cur q) <> [].
Proof.
  induction n as [|n IH]; intros [|ch t] fields cur q Hn; simpl in Hn;
    try (simpl; congruence); try lia.
  scan_cases ch t q; cbn [length fst snd] in *;
    try (apply IH; cbn [length] in *; lia).
  intros _. destruct fields; discriminate.
Qed.

Lemma readLineAsFields_nil_inv text :
  fst (readLineAsFields text) = [] ->
  scan_fields (scan text [] [] false) = []
  /\ scan_cur (scan text [] [] false) = [].
Proof.
  unfold readLineAsFields, finish_line.
  pose proof (@scan_stops_with_field (length text) text [] [] false
                (le_n _)) as S.
  destruct (scan text [] [] false) as [[f c] r]; simpl in *.
  destruct r as [|x r].
  - destruct c as [|y c]; simpl.
    + destruct f; simpl; [auto | discriminate].
    + intros H. destruct f; discriminate.
  - simpl. intros ->. exfalso. apply S; [discriminate | reflexivity].
Qed.

(** The header reader finds no field exactly on the empty text and on a
    text made of one or two quote characters. *)
Lemma readLineAsFields_nil text :
  fst (readLineAsFields text) = [] <->
  text = [] \/ text = [DQUOTE] \/ text = [DQUOTE; DQUOTE].
Proof.
  split.
  - intros H. apply readLineAsFields_nil_inv in H. revert H.
    assert (K : forall t f c q, (f <> [] \/ c <> []) ->
                ~ (scan_fields (scan t f c q) = []
                   /\ scan_cur (scan t f c q) = [])).
    { intros t f c q Hfc [H1 H2].
      destruct (@scan_collects (length t) t f c q (le_n _) Hfc); auto. }
    destruct text as [|ch t]; [auto|].
    rewrite scan_cons.
    destruct (N.eqb ch DQUOTE) eqn:Hq.
    + apply N.eqb_eq in Hq; subst ch.
      destruct t as [|c2 tl2]; [auto|].
      simpl andb. cbv iota. simpl negb.
      rewrite scan_cons.
      destruct (N.eqb c2 DQUOTE) eqn:Hq2.
      * apply N.eqb_eq in Hq2; subst c2.
        destruct tl2 as [|c3 tl3]; [auto|].
        simpl andb.
        destruct (N.eqb c3 DQUOTE) eqn:Hq3.
        -- intros H; exfalso; revert H. apply K. right. discriminate.
        -- simpl negb. rewrite scan_cons, Hq3. simpl negb. simpl andb.
           destruct (N.eqb c3 COMMA).
           ++ intros H; exfalso; revert H. apply K. left. discriminate.
           ++ destruct (N.eqb c3 LF || N.eqb c3 CR).
              ** simpl. intros [? _]; discriminate.
              ** intros H; exfalso; revert H. apply K. right. discriminate.
      * simpl andb. cbv iota.
        intros H; exfalso; revert H. apply K. right. discriminate.
    + simpl negb. simpl andb.
      destruct (N.eqb ch COMMA).
      * intros H; exfalso; revert H. apply K. left. discriminate.
      * destruct (N.eqb ch LF || N.eqb ch CR).
        -- simpl. intros [? _]; discriminate.
        -- intros H; exfalso; revert H. apply K. right. discriminate.
  - intros [-> | [-> | ->]]; reflexivity.
Qed.

(** ** The parser fails only without a header field *)

Lemma parseCSVText_fails text :
  parseCSVText text = inl NoHeaders <->
  fst (readLineAsFields (skip_bom text)) = [].
Proof.
  unfold parseCSVText.
  destruct (readLineAsFields (skip_bom text)) as [hf rest]; simpl.
  destruct hf; simpl; split; congruence.
Qed.

(** C3, as the specification states it, fails: the first line of this text
    has no content, and [parseCSVText] returns a record (under one header
    named ['']) instead of throwing. *)
Lemma C3_first_line_without_content_is_accepted :
  header_line (LF :: js "A,B") = []
  /\ parseCSVText (LF :: js "A,B") = inr [[([], js "A")]].
Proof. split; reflexivity. Qed.

(** C3 (amended): [parseCSVText] throws 'No headers found in CSV' exactly
    when the text, after an optional byte order mark, is empty or consists
    of one or two double-quote characters; in particular the empty input
    fails, and no other text does. *)
Theorem C3_parse_fails_iff_no_header_field text :
  parseCSVText text = inl NoHeaders <->
  skip_bom text = [] \/ skip_bom text = [DQUOTE]
  \/ skip_bom text = [DQUOTE; DQUOTE].
Proof.
  rewrite parseCSVText_fails. apply readLineAsFields_nil.
Qed.

(** ** The loop over the lines terminates *)

Lemma rows_loop_fuel headers n : forall text f1 f2,
  length text <= n -> n <= f1 -> n <= f2 ->
  rows_loop f1 headers text = rows_loop f2 headers text.
Proof.
  induction n as [|n IH]; intros [|c t] f1 f2 Hn H1 H2;
    try (destruct f1, f2; reflexivity); cbn [length] in Hn; try lia.
  destruct f1 as [|f1]; [lia|]. destruct f2 as [|f2]; [lia|].
  cbn [rows_loop].
  pose proof (readLineAsFields_rest c t) as Hr.
  destruct (readLineAsFields (c :: t)) as [fields rest]; cbn [snd] in Hr.
  destruct (_ && _); [reflexivity|].
  f_equal. apply IH; lia.
Qed.

Lemma rows_loop_total headers n : forall text fuel,
  length text <= n -> n <= fuel ->
  rows_loop fuel headers text <> None.
Proof.
  induction n as [|n IH]; intros [|c t] fuel Hn Hf;
    try (destruct fuel; simpl; discriminate); cbn [length] in Hn; try lia.
  destruct fuel as [|fuel]; [lia|].
  cbn [rows_loop].
  pose proof (readLineAsFields_rest c t) as Hr.
  destruct (readLineAsFields (c :: t)) as [fields rest]; cbn [snd] in Hr.
  destruct (_ && _); [discriminate|].
  specialize (IH rest fuel).
  destruct (rows_loop fuel headers rest); simpl; [discriminate|].
  exfalso. apply IH; [lia | lia | reflexivity].
Qed.

(** The loop of lines 76-83, one iteration at a time. *)
Lemma parse_rows_cons headers c t :
  parse_rows headers (c :: t) =
  let '(fields, rest) := readLineAsFields (c :: t) in
  if (length fields =? 1) && is_empty (nth 0 fields []) && is_empty rest
  then []
  else make_record headers fields :: parse_rows headers rest.
Proof.
  unfold parse_rows. cbn [length rows_loop].
  pose proof (readLineAsFields_rest c t) as Hr.
  destruct (readLineAsFields (c :: t)) as [fields rest]; cbn [snd] in Hr.
  destruct (_ && _); [reflexivity|].
  rewrite (@rows_loop_fuel headers (length rest) rest (length t)
             (length rest)) by lia.
  pose proof (@rows_loop_total headers (length rest) rest (length rest)
                (le_n _) (le_n _)) as T.
  destruct (rows_loop (length rest) headers rest); [reflexivity|].
  exfalso; apply T; reflexivity.
Qed.

Lemma parse_rows_nil headers : parse_rows headers [] = [].
Proof. reflexivity. Qed.

(** ** Quoted fields *)

(** An opening quote. *)
Lemma scan_open t fields cur :
  scan (DQUOTE :: t) fields cur false = scan t fields cur true.
Proof. rewrite scan_cons. destruct t; reflexivity. Qed.

(** Inside quotes every character but the quote is appended, whether
    comma, line break or anything else. *)
Lemma scan_quoted w : forall t fields cur,
  quote_free w = true ->
  scan (w ++ t) fields cur true = scan t fields (cur ++ w) true.
Proof.
  induction w as [|c w IH]; intros t fields cur H; simpl app.
  - rewrite app_nil_r; reflexivity.
  - cbn [quote_free forallb] in H. apply andb_true_iff in H as [Hc Hw].
    apply negb_true_iff in Hc.
    rewrite scan_cons, Hc. cbn [negb andb]. rewrite IH by exact Hw.
    rewrite <- app_assoc. reflexivity.
Qed.

(** A doubled quote inside quotes is one literal quote. *)
Lemma scan_escape t fields cur :
  scan (DQUOTE :: DQUOTE :: t) fields cur true
  = scan t fields (cur ++ [DQUOTE]) true.
Proof. reflexivity. Qed.

(** A closing quote: one that no second quote follows. *)
Lemma scan_close t fields cur :
  match t with c :: _ => N.eqb c DQUOTE = false | [] => True end ->
  scan (DQUOTE :: t) fields cur true = scan t fields cur false.
Proof.
  intros H. rewrite scan_cons. destruct t as [|c t]; [reflexivity|].
  rewrite H. reflexivity.
Qed.

(** A whole quoted field, up to the character after its closing quote. *)
Lemma scan_quoted_field w t fields cur :
  quote_free w = true ->
  match t with c :: _ => N.eqb c DQUOTE = false | [] => True end ->
  scan (DQUOTE :: w ++ DQUOTE :: t) fields cur false
  = scan t fields (cur ++ w) false.
Proof.
  intros Hw Ht. rewrite scan_open, scan_quoted by exact Hw.
  apply scan_close; exact Ht.
Qed.

(** The same for a field with one escaped quote in it. *)
Lemma scan_quoted_field_escape x y t fields cur :
  quote_free x = true -> quote_free y = true ->
  match t with c :: _ => N.eqb c DQUOTE = false | [] => True end ->
  scan (DQUOTE :: x ++ DQUOTE :: DQUOTE :: y ++ DQUOTE :: t) fields cur false
  = scan t fields (cur ++ x ++ DQUOTE :: y) false.
Proof.
  intros Hx Hy Ht.
  rewrite scan_open, scan_quoted, scan_escape, scan_quoted by assumption.
  rewrite scan_close by exact Ht.
  rewrite <- !app_assoc. reflexivity.
Qed.

Lemma readLineAsFields_eq text :
  readLineAsFields text = finish_line (scan text [] [] false).
Proof. reflexivity. Qed.

(** A character that is neither quote, comma nor line break. *)
Lemma scan_plain c t fields cur q :
  N.eqb c DQUOTE = false -> N.eqb c COMMA = false ->
  N.eqb c LF || N.eqb c CR = false ->
  scan (c :: t) fields cur q = scan t fields (cur ++ [c]) q.
Proof.
  intros H1 H2 H3. rewrite scan_cons, H1, H2, H3, !andb_false_r.
  reflexivity.
Qed.

Lemma scan_comma t fields cur :
  scan (COMMA :: t) fields cur false = scan t (fields ++ [cur]) [] false.
Proof. reflexivity. Qed.

Lemma readLineAsFields_quoted_last w :
  quote_free w = true ->
  readLineAsFields (DQUOTE :: w ++ [DQUOTE])
  = (match w with [] => [] | _ :: _ => [w] end, []).
Proof.
  intros Hw. rewrite readLineAsFields_eq.
  rewrite (@scan_quoted_field w [] [] [] Hw I). cbn [scan app].
  destruct w; reflexivity.
Qed.

Lemma make_record_single h f :
  eqb_str h PROTO = false ->
  make_record [h] (match f with [] => [] | _ :: _ => [f] end)
  = [(h, trim f)].
Proof.
  intros Hh. unfold make_record.
  destruct f; cbn; unfold assign_string; rewrite Hh; reflexivity.
Qed.

(** A quoted field at the end of the input, under a header [h]. *)
Lemma parse_quoted_last w :
  quote_free w = true ->
  parseCSVText (js "h" ++ LF :: DQUOTE :: w ++ [DQUOTE])
  = inr [[(js "h", trim w)]].
Proof.
  intros Hw. unfold parseCSVText.
  change (readLineAsFields
            (skip_bom (js "h" ++ LF :: DQUOTE :: w ++ [DQUOTE])))
    with ([js "h"], DQUOTE :: w ++ [DQUOTE]).
  cbn [length Nat.eqb List.map].
  rewrite parse_rows_cons, readLineAsFields_quoted_last by exact Hw.
  change (trim (js "h")) with (js "h").
  rewrite parse_rows_nil.
  rewrite <- (@make_record_single (js "h") w) by reflexivity.
  destruct w; reflexivity.
Qed.

(** A quoted field followed by another field, under headers [h,k]. *)
Lemma parse_quoted_first w :
  quote_free w = true ->
  parseCSVText (js "h,k" ++ LF :: DQUOTE :: w ++ DQUOTE :: js ",x")
  = inr [[(js "h", trim w); (js "k", js "x")]].
Proof.
  intros Hw. unfold parseCSVText.
  change (readLineAsFields
            (skip_bom (js "h,k" ++ LF :: DQUOTE :: w ++ DQUOTE :: js ",x")))
    with ([js "h"; js "k"], DQUOTE :: w ++ DQUOTE :: js ",x").
  cbn [length Nat.eqb List.map].
  rewrite parse_rows_cons, readLineAsFields_eq.
  rewrite scan_quoted_field by (exact Hw || reflexivity).
  reflexivity.
Qed.

(** C9: a quoted field is trimmed after its quotes are removed.  For every
    content [w] without a double quote, the field made of [w] between
    double quotes stores [trim w], at the end of the input as well as
    before another field; so the quoted field with content space, a, space
    stores [a], and a quoted field of white space only stores the empty
    string. *)
Theorem C9_quoted_field_is_trimmed (w : jstring) :
  quote_free w = true ->
  parseCSVText (js "h" ++ LF :: DQUOTE :: w ++ [DQUOTE])
  = inr [[(js "h", trim w)]]
  /\ parseCSVText (js "h,k" ++ LF :: DQUOTE :: w ++ DQUOTE :: js ",x")
     = inr [[(js "h", trim w); (js "k", js "x")]]
  /\ (forallb is_ws w = true ->
      parseCSVText (js "h" ++ LF :: DQUOTE :: w ++ [DQUOTE])
      = inr [[(js "h", [])]]).
Proof.
  intros Hw. split; [|split].
  - apply parse_quoted_last; exact Hw.
  - apply parse_quoted_first; exact Hw.
  - intros Hws. rewrite parse_quoted_last by exact Hw.
    rewrite trim_all_ws by exact Hws. reflexivity.
Qed.

(** The quoted content space, a, space; and the quoted content of two
    spaces. *)
Lemma C9_quoted_field_is_trimmed_witness :
  parseCSVText (js "h" ++ LF :: DQUOTE :: js " a " ++ [DQUOTE])
  = inr [[(js "h", js "a")]]
  /\ parseCSVText (js "h" ++ LF :: DQUOTE :: js "  " ++ [DQUOTE])
     = inr [[(js "h", [])]].
Proof.
  split.
  - exact (proj1 (@C9_quoted_field_is_trimmed (js " a ") eq_refl)).
  - exact (proj2 (proj2 (@C9_quoted_field_is_trimmed (js "  ") eq_refl))
             eq_refl).
Defined.

(** A data line whose middle field is quoted, under the headers
    [h1,h2,h3]. *)
Lemma parse_quoted_middle body field :
  scan (DQUOTE :: body ++ DQUOTE :: js ",d") [js "a"] [] false
  = scan (js ",d") [js "a"] field false ->
  parseCSVText (H123 ++ LF :: js "a," ++ DQUOTE :: body ++ DQUOTE :: js ",d")
  = inr [[(js "h1", js "a"); (js "h2", trim field); (js "h3", js "d")]].
Proof.
  intros E. unfold parseCSVText.
  change (readLineAsFields
            (skip_bom (H123 ++ LF :: js "a," ++ DQUOTE :: body
                       ++ DQUOTE :: js ",d")))
    with ([js "h1"; js "h2"; js "h3"],
          js "a," ++ DQUOTE :: body ++ DQUOTE :: js ",d").
  cbn [length Nat.eqb List.map].
  change (js "a," ++ DQUOTE :: body ++ DQUOTE :: js ",d")
    with (97%N :: COMMA :: DQUOTE :: body ++ DQUOTE :: js ",d").
  rewrite parse_rows_cons, readLineAsFields_eq.
  rewrite scan_plain by reflexivity. rewrite scan_comma.
  change ([] ++ [[] ++ [97%N]]) with [js "a"].
  rewrite E. reflexivity.
Qed.

(** C6: quoting.  The data line with the fields [a], then [b], two double
    quotes and [c] between double quotes, then [d], yields for the middle
    column the value [b], one double quote, [c]; more generally a doubled
    quote inside quotes is one literal quote, and a quoted field is one
    field of one record whatever its content [w] is, line breaks (and
    commas) included: the record is not split. *)
Theorem C6_quoting_round_trip (w x y : jstring) :
  quote_free w = true -> quote_free x = true -> quote_free y = true ->
  parseCSVText (H123 ++ LF :: js "a," ++ DQUOTE
                  :: (js "b" ++ DQUOTE :: DQUOTE :: js "c")
                  ++ DQUOTE :: js ",d")
  = inr [[(js "h1", js "a"); (js "h2", js "b" ++ DQUOTE :: js "c");
          (js "h3", js "d")]]
  /\ parseCSVText (H123 ++ LF :: js "a," ++ DQUOTE
                     :: (x ++ DQUOTE :: DQUOTE :: y) ++ DQUOTE :: js ",d")
     = inr [[(js "h1", js "a"); (js "h2", trim (x ++ DQUOTE :: y));
             (js "h3", js "d")]]
  /\ parseCSVText (H123 ++ LF :: js "a," ++ DQUOTE :: w
                     ++ DQUOTE :: js ",d")
     = inr [[(js "h1", js "a"); (js "h2", trim w); (js "h3", js "d")]].
Proof.
  intros Hw Hx Hy. split; [|split].
  - reflexivity.
  - apply parse_quoted_middle. rewrite <- app_assoc. cbn [app].
    apply scan_quoted_field_escape; auto. reflexivity.
  - apply parse_quoted_middle.
    apply scan_quoted_field; auto. reflexivity.
Qed.

(** A quoted field holding a line break between [x] and [y], and one
    holding a comma and a carriage return. *)
Lemma C6_quoting_round_trip_witness :
  parseCSVText (H123 ++ LF :: js "a," ++ DQUOTE :: (js "x" ++ LF :: js "y")
                  ++ DQUOTE :: js ",d")
  = inr [[(js "h1", js "a"); (js "h2", js "x" ++ LF :: js "y");
          (js "h3", js "d")]]
  /\ parseCSVText (H123 ++ LF :: js "a," ++ DQUOTE
                     :: (js "p,q" ++ CR :: LF :: js "r")
                     ++ DQUOTE :: js ",d")
     = inr [[(js "h1", js "a"); (js "h2", js "p,q" ++ CR :: LF :: js "r");
             (js "h3", js "d")]].
Proof.
  split.
  - exact (proj2 (proj2 (@C6_quoting_round_trip (js "x" ++ LF :: js "y")
                           [] [] eq_refl eq_refl eq_refl))).
  - exact (proj2 (proj2 (@C6_quoting_round_trip
                           (js "p,q" ++ CR :: LF :: js "r")
                           [] [] eq_refl eq_refl eq_refl))).
Defined.

(** ** Empty lines *)

Lemma readLineAsFields_empty_line text rest :
  EmptyLine text rest -> rest <> [] ->
  readLineAsFields text = ([[]], rest).
Proof.
  intros [r | r | r Hr] Hne; rewrite readLineAsFields_eq.
  - destruct r as [|c r]; [congruence | reflexivity].
  - destruct r as [|c r]; [congruence | reflexivity].
  - destruct r as [|c r]; [congruence|].
    rewrite scan_cons. cbn [N.eqb CR DQUOTE COMMA LF Pos.eqb negb andb orb].
    apply N.eqb_neq in Hr. rewrite Hr. reflexivity.
Qed.

Lemma trim_nil : trim [] = [].
Proof. reflexivity. Qed.

Lemma fill_empty_fields fields :
  Forall (fun f => f = []) fields ->
  forall headers k rec,
    fill headers fields k rec
    = fold_left (fun r h => assign_string (fun s => s) h [] r) headers rec.
Proof.
  intros Hf. induction headers as [|h hs IH]; intros k rec; cbn [fill fold_left].
  - reflexivity.
  - rewrite IH. f_equal.
    destruct (nth_error fields k) as [f|] eqn:E; [|reflexivity].
    apply nth_error_In in E. rewrite Forall_forall in Hf.
    rewrite (Hf _ E). reflexivity.
Qed.

(** The record of an empty line. *)
Lemma make_record_empty_line headers :
  make_record headers [[]] = empty_record headers.
Proof.
  unfold make_record, empty_record. apply fill_empty_fields.
  unfold pad. apply Forall_app; split.
  - repeat constructor.
  - apply Forall_forall. intros f Hf. apply repeat_spec in Hf. exact Hf.
Qed.

Lemma set_own_all_empty k (rec : FlatRecord) :
  all_empty rec -> all_empty (set_own k [] rec).
Proof.
  unfold all_empty. induction rec as [|[k' v'] rec IH]; intros H; cbn [set_own].
  - repeat constructor.
  - inversion H; subst. destruct (eqb_str k k'); constructor; auto.
Qed.

Lemma empty_record_all_empty headers : all_empty (empty_record headers).
Proof.
  unfold empty_record.
  assert (G : forall hs rec, all_empty rec ->
            all_empty (fold_left
              (fun r h => assign_string (fun s => s) h [] r) hs rec)).
  { induction hs as [|h hs IH]; intros rec H; cbn [fold_left]; auto.
    apply IH. unfold assign_string.
    destruct (eqb_str h PROTO); auto using set_own_all_empty. }
  apply G. constructor.
Qed.

Lemma lookup_In {V} k (o : list (jstring * V)) v :
  lookup k o = Some v -> In (k, v) o.
Proof.
  induction o as [|[k' v'] o IH]; cbn [lookup]; [discriminate|].
  destruct (eqb_str k k') eqn:E.
  - apply eqb_str_eq in E; subst. intros [= ->]. left; reflexivity.
  - intros H. right. auto.
Qed.

(** On a record without values, every field the mapper reads is empty. *)
Lemma field_all_empty P rec k :
  all_empty rec -> In k [K_FIRST; K_LAST; K_AGE] -> reads_own P rec ->
  field P rec k = Some [].
Proof.
  intros He Hk Hr. unfold field, get_prop.
  destruct (lookup k rec) as [s|] eqn:E.
  - apply lookup_In in E. unfold all_empty in He.
    rewrite Forall_forall in He. apply He in E. cbn in E. subst s.
    reflexivity.
  - destruct (Hr k Hk) as [H | H]; [congruence|]. rewrite H. reflexivity.
Qed.

Lemma mapRecordToDb_all_empty P rec :
  all_empty rec -> reads_own P rec ->
  mapRecordToDb P rec = (inl (MandatoryMissing [] [] []), P).
Proof.
  intros He Hr. unfold mapRecordToDb.
  rewrite !(@field_all_empty P rec) by (auto; cbn; auto).
  reflexivity.
Qed.

(** ** The mapper: validation *)

Lemma digits_seen s : forall acc, digits s acc true <> None.
Proof.
  induction s as [|c s IH]; intros acc; cbn [digits]; [discriminate|].
  destruct (is_digit c); [apply IH | discriminate].
Qed.

Lemma toNumber_not_NaN z : isNaN (toNumber z) = false.
Proof.
  unfold toNumber. destruct (_ <? _)%Z; [reflexivity|].
  cbv zeta. destruct (_ <=? _)%Z; reflexivity.
Qed.

(** [parseInt] answers NaN exactly when no digit follows the white space
    and the optional sign. *)
Lemma parseInt_NaN s :
  isNaN (parseInt s) = negb (starts_with_integer (trimStart s)).
Proof.
  unfold parseInt, mathInt, starts_with_integer.
  destruct (trimStart s) as [|c t]; [reflexivity|].
  assert (D : forall u, isNaN match
                match digits u 0%Z false with
                | Some m => Some m | None => None end
              with Some z => toNumber z | None => NaN end
              = negb match u with c :: _ => is_digit c | [] => false end).
  { intros [|d u]; cbn [digits]; [reflexivity|].
    destruct (is_digit d); [|reflexivity].
    pose proof (@digits_seen u (10 * 0 + digit_val d)%Z) as S.
    destruct (digits u _ true); [apply toNumber_not_NaN | congruence]. }
  destruct (N.eqb c MINUS) eqn:Em; cbn [orb].
  - specialize (D t). cbn [digits] in *.
    destruct t as [|d u]; [reflexivity|]. cbn [digits] in *.
    destruct (is_digit d); [|reflexivity].
    pose proof (@digits_seen u (10 * 0 + digit_val d)%Z) as S.
    destruct (digits u _ true); [apply toNumber_not_NaN | congruence].
  - destruct (N.eqb c PLUS); [apply D | apply (D (c :: t))].
Qed.



(** The three outcomes of [mapRecordToDb] once the fields are read. *)
Lemma mapRecordToDb_read P rec f l a :
  field P rec K_FIRST = Some f -> field P rec K_LAST = Some l ->
  field P rec K_AGE = Some a ->
  mapRecordToDb P rec =
  if is_empty f || is_empty l || is_empty a
  then (inl (MandatoryMissing f l a), P)
  else if isNaN (parseInt a) then (inl (InvalidAge a), P)
  else
    let '(address, additional, P', ok) :=
      entries_loop (Object_entries rec) [] [] P in
    if ok then
      (inr {| name := f ++ js " " ++ l; age := parseInt a;
              address := or_null address;
              additional_info := or_null additional |}, P')
    else (inl TypeError, P').
Proof. intros Hf Hl Ha. unfold mapRecordToDb. rewrite Hf, Hl, Ha. reflexivity. Qed.



(** ** The mapper: the Document it builds *)

(** An integer below [2^53] in magnitude is its own Number value. *)
Lemma toNumber_exact z : (Z.abs z < 2 ^ 53)%Z -> toNumber z = Int z.
Proof.
  intros H. unfold toNumber. apply Z.ltb_lt in H. rewrite H. reflexivity.
Qed.

(** A magnitude of [2^1024] or more is beyond the finite Numbers. *)
Lemma toNumber_overflow z :
  (2 ^ 1024 <= Z.abs z)%Z -> toNumber z = Infinity (z <? 0)%Z.
Proof.
  intros H. unfold toNumber.
  set (a := Z.abs z) in *.
  assert (Ha : (0 < a)%Z) by (pose proof (Z.pow_pos_nonneg 2 1024); lia).
  assert (H53 : (2 ^ 53 < 2 ^ 1024)%Z) by (apply Z.pow_lt_mono_r; lia).
  destruct (a <? 2 ^ 53)%Z eqn:E; [apply Z.ltb_lt in E; lia|].
  cbv zeta.
  set (e := (Z.log2 a - 52)%Z).
  assert (Hlog : (1024 <= Z.log2 a)%Z).
  { rewrite <- (Z.log2_pow2 1024) by lia. apply Z.log2_le_mono. exact H. }
  assert (He : (0 <= e)%Z) by (unfold e; lia).
  set (q := Z.shiftr a e).
  assert (Hq : (2 ^ 52 <= q)%Z).
  { unfold q. rewrite Z.shiftr_div_pow2 by exact He.
    apply Z.div_le_lower_bound; [apply Z.pow_pos_nonneg; lia|].
    rewrite <- Z.pow_add_r by lia.
    replace (e + 52)%Z with (Z.log2 a) by (unfold e; lia).
    apply Z.log2_spec; exact Ha. }
  match goal with |- context [if ?b then (q + 1)%Z else q] =>
    set (q' := if b then (q + 1)%Z else q) end.
  assert (Hq' : (q <= q')%Z) by (unfold q'; destruct (_ || _); lia).
  assert (Hm : (2 ^ 1024 <= q' * 2 ^ e)%Z).
  { assert (P2 : (0 < 2 ^ e)%Z) by (apply Z.pow_pos_nonneg; lia).
    assert (L : (2 ^ 1024 <= 2 ^ 52 * 2 ^ e)%Z).
    { rewrite <- Z.pow_add_r by lia. apply Z.pow_le_mono_r; unfold e; lia. }
    nia. }
  apply Z.leb_le in Hm. rewrite Hm. reflexivity.
Qed.

(** What can be said of every Document that [mapRecordToDb] returns: its
    name is the trimmed first name, one space and the trimmed last name,
    both non-empty; its age is the Number value of the integer that the
    trimmed age field begins with, which is that integer itself as long
    as its magnitude is below [2^53]. *)
Lemma mapRecordToDb_document (P : object) (rec : FlatRecord)
    (d : Document) :
  fst (mapRecordToDb P rec) = inr d ->
  exists f l a z,
    field P rec K_FIRST = Some f /\ field P rec K_LAST = Some l
    /\ field P rec K_AGE = Some a
    /\ f <> [] /\ l <> []
    /\ name d = f ++ js " " ++ l
    /\ name d <> []
    /\ mathInt a = Some z
    /\ age d = toNumber z
    /\ isNaN (age d) = false
    /\ ((Z.abs z < 2 ^ 53)%Z -> age d = Int z)
    /\ ((2 ^ 1024 <= Z.abs z)%Z -> age d = Infinity (z <? 0)%Z).
Proof.
  intros H.
  destruct (field P rec K_FIRST) as [f|] eqn:Hf;
    [destruct (field P rec K_LAST) as [l|] eqn:Hl;
     [destruct (field P rec K_AGE) as [a|] eqn:Ha|]|];
    try (unfold mapRecordToDb in H; rewrite ?Hf, ?Hl, ?Ha in H;
         discriminate).
  rewrite (mapRecordToDb_read _ _ Hf Hl Ha) in H.
  destruct (is_empty f || is_empty l || is_empty a) eqn:E; [discriminate|].
  rewrite !orb_false_iff, !is_empty_false in E. destruct E as [[E1 E2] E3].
  destruct (isNaN (parseInt a)) eqn:En; [discriminate|].
  destruct (entries_loop _ _ _ _) as [[[ad ai] P'] ok].
  destruct ok; [|discriminate]. cbn [fst] in H. injection H as <-.
  cbn [name age].
  unfold parseInt in *. destruct (mathInt a) as [z|] eqn:Ez; [|discriminate].
  exists f, l, a, z. repeat split; auto.
  - destruct f; [congruence | discriminate].
  - apply toNumber_exact.
  - apply toNumber_overflow.
Qed.

(** C4 fails on the code.  The text [overflow_text] has one data line,
    with first name A, last name B and an age of 310 digits.  The parser
    returns its record and [mapRecordToDb] returns a Document for it: the
    check of line 95 lets the age pass, because [parseInt] of that numeral
    is [Infinity] and not NaN.  The name of the Document is as the claim
    says, but its age is no integer, and the Document has no row in a
    table whose age column holds integers. *)
Theorem C4_overflowing_age_is_not_finite :
  exists rec d,
    parseCSVText overflow_text = inr [rec]
    /\ mapRecordToDb pristine rec = (inr d, pristine)
    /\ name d = js "A B"
    /\ age d = Infinity false
    /\ (forall z, age d <> Int z)
    /\ to_row d = None.
Proof.
  eexists. eexists.
  split; [vm_compute; reflexivity|].
  split; [vm_compute; reflexivity|].
  cbn [name age]. repeat split. intros z H. discriminate H.
Qed.

(** ** The loader *)

Section LoaderProperties.

Variable insert_fails : nat -> list Document -> bool.
Variable BATCH_SIZE : number.

Local Abbreviation query_insert' := (query_insert insert_fails).
Local Abbreviation send_all' := (send_all insert_fails).
Local Abbreviation rejects' := (rejects insert_fails).
Local Abbreviation batches' := (batches BATCH_SIZE).
Local Abbreviation records_loop' := (records_loop insert_fails BATCH_SIZE).
Local Abbreviation flush' := (flush insert_fails).
Local Abbreviation load' := (load insert_fails BATCH_SIZE).
Local Abbreviation importCsvFile' := (importCsvFile insert_fails BATCH_SIZE).

Lemma insertBatch_nonempty c d ds :
  insertBatch insert_fails c (ds ++ [d]) = query_insert' c (ds ++ [d]).
Proof. destruct ds; reflexivity. Qed.

Lemma flush_sends st :
  ending (flush' st)
  = send_all' (conn st) (batches' (batch st) []).
Proof.
  unfold flush. cbn [batches].
  destruct (batch st) as [|d ds] eqn:E; cbn [length Nat.ltb Nat.leb].
  - reflexivity.
  - change (0 <? S (length ds)) with true. cbn [insertBatch send_all].
    destruct (query_insert' (conn st) (d :: ds)) as [c' [|]]; reflexivity.
Qed.

(** The loop and the flush send the batches of the mapped documents, one
    after the other, and stop at the first rejected one. *)
Lemma loop_sends records : forall i st,
  ending match records_loop' records i st with
         | inl st' => inl st'
         | inr st' => flush' st'
         end
  = send_all' (conn st)
      (batches' (batch st) (mapped (Object_prototype st) records)).
Proof.
  induction records as [|rec records IH]; intros i st.
  - cbn [records_loop mapped]. apply flush_sends.
  - cbn [records_loop mapped].
    destruct (mapRecordToDb (Object_prototype st) rec) as [[err | d] P'].
    + rewrite IH. reflexivity.
    + cbn [batches].
      destruct (ge_BATCH_SIZE BATCH_SIZE (length (batch st ++ [d]))).
      * rewrite insertBatch_nonempty. cbn [send_all].
        destruct (query_insert' (conn st) (batch st ++ [d])) as [c' [|]].
        -- rewrite IH. reflexivity.
        -- reflexivity.
      * rewrite IH. reflexivity.
Qed.

Lemma load_sends records st :
  ending (load' records st)
  = send_all' (conn st)
      (batches' (batch st) (mapped (Object_prototype st) records)).
Proof. unfold load. apply loop_sends. Qed.

(** *** One INSERT *)

Lemma inserts_sent_app c s d :
  inserts_sent (record_sent s c d)
  = inserts_sent c + (if is_insert s then 1 else 0).
Proof.
  unfold inserts_sent, record_sent. cbn [sent].
  rewrite filter_app, length_app. cbn [filter].
  destruct (is_insert s); reflexivity.
Qed.

Lemma query_insert_ok c rows :
  snd (query_insert' c rows) = negb (rejects' (inserts_sent c) rows).
Proof.
  unfold query_insert, rejects.
  destruct (insert_fails (inserts_sent c) rows); [reflexivity|].
  destruct (to_rows rows); reflexivity.
Qed.

Lemma query_insert_sent c rows :
  sent (fst (query_insert' c rows)) = sent c ++ [INSERT rows]
  /\ inserts_sent (fst (query_insert' c rows)) = S (inserts_sent c).
Proof.
  unfold query_insert.
  destruct (if insert_fails (inserts_sent c) rows then None else to_rows rows);
    cbn [fst]; rewrite inserts_sent_app; cbn; split; auto; lia.
Qed.

(** Inside a transaction an INSERT touches the pending rows only. *)
Lemma query_insert_tx c rows pending :
  tx (db c) = Some pending ->
  table (db (fst (query_insert' c rows))) = table (db c)
  /\ exists pending', tx (db (fst (query_insert' c rows))) = Some pending'.
Proof.
  intros H. unfold query_insert.
  destruct (if insert_fails (inserts_sent c) rows then None else to_rows rows);
    cbn [fst db record_sent]; rewrite ?H; cbn; eauto.
Qed.

Lemma query_insert_accepted c rows pending :
  tx (db c) = Some pending ->
  rejects' (inserts_sent c) rows = false ->
  exists rs, to_rows rows = Some rs
    /\ tx (db (fst (query_insert' c rows))) = Some (pending ++ rs).
Proof.
  intros H R. unfold rejects in R. apply orb_false_iff in R as [R1 R2].
  unfold query_insert. rewrite R1.
  destruct (to_rows rows) as [rs|]; [|discriminate].
  exists rs. cbn [fst db record_sent]. rewrite H. auto.
Qed.

(** *** A sequence of INSERTs *)

Lemma send_all_tx bs : forall c pending,
  tx (db c) = Some pending ->
  table (db (fst (send_all' c bs))) = table (db c)
  /\ exists pending', tx (db (fst (send_all' c bs))) = Some pending'.
Proof.
  induction bs as [|b bs IH]; intros c pending H; cbn [send_all].
  - cbn; eauto.
  - destruct (query_insert_tx c b H) as (T & p' & X).
    destruct (query_insert' c b) as [c' [|]]; cbn [fst] in *.
    + destruct (IH c' p' X) as (T' & X'). rewrite T'. auto.
    + eauto.
Qed.

(** The sequence stops exactly when some batch is rejected at its turn. *)
Lemma send_all_rejected bs : forall c,
  snd (send_all' c bs) = false <->
  exists k, k < length bs /\ rejects' (inserts_sent c + k) (nth k bs []) = true.
Proof.
  induction bs as [|b bs IH]; intros c; cbn [send_all].
  - cbn. split; [discriminate | intros (k & H & _); lia].
  - pose proof (query_insert_ok c b) as O.
    pose proof (query_insert_sent c b) as [_ N].
    destruct (query_insert' c b) as [c' ok]; cbn [fst snd] in *.
    destruct ok.
    + symmetry in O. apply negb_true_iff in O.
      rewrite IH, N. split.
      * intros (k & Hk & R). exists (S k). cbn [length nth].
        replace (inserts_sent c + S k) with (S (inserts_sent c) + k) by lia.
        split; [lia | exact R].
      * intros ([|k] & Hk & R); cbn [length nth] in *.
        -- rewrite Nat.add_0_r in R. congruence.
        -- exists k.
           replace (inserts_sent c + S k) with (S (inserts_sent c) + k)
             in R by lia.
           split; [lia | exact R].
    + symmetry in O. apply negb_false_iff in O. split; [|reflexivity].
      intros _. exists 0. cbn [length nth]. rewrite Nat.add_0_r.
      split; [lia | exact O].
Qed.

Lemma to_rows_app a : forall b ra rb,
  to_rows a = Some ra -> to_rows b = Some rb ->
  to_rows (a ++ b) = Some (ra ++ rb).
Proof.
  induction a as [|d a IH]; intros b ra rb Ha Hb; cbn [to_rows app] in *.
  - injection Ha as <-. exact Hb.
  - destruct (to_row d); [|discriminate].
    destruct (to_rows a) as [ra'|]; [|discriminate].
    injection Ha as <-. rewrite (IH b ra' rb eq_refl Hb). reflexivity.
Qed.

Lemma to_rows_length ds : forall rs,
  to_rows ds = Some rs -> length rs = length ds.
Proof.
  induction ds as [|d ds IH]; intros rs H; cbn [to_rows] in H.
  - injection H as <-. reflexivity.
  - destruct (to_row d); [|discriminate].
    destruct (to_rows ds) as [rs'|]; [|discriminate].
    injection H as <-. cbn [length]. f_equal. auto.
Qed.

(** When no batch is rejected, all of them are sent and their rows are the
    pending rows of the transaction. *)
Lemma send_all_accepted bs : forall c pending,
  tx (db c) = Some pending ->
  snd (send_all' c bs) = true ->
  sent (fst (send_all' c bs)) = sent c ++ List.map INSERT bs
  /\ exists rs, to_rows (concat bs) = Some rs
       /\ tx (db (fst (send_all' c bs))) = Some (pending ++ rs).
Proof.
  induction bs as [|b bs IH]; intros c pending H Hok; cbn [send_all] in *.
  - cbn. rewrite !app_nil_r. split; [reflexivity|]. exists []. 
    rewrite app_nil_r. auto.
  - pose proof (query_insert_ok c b) as O.
    pose proof (query_insert_sent c b) as [S _].
    pose proof (@query_insert_accepted c b pending H) as A.
    destruct (query_insert' c b) as [c' ok]; cbn [fst snd] in *.
    destruct ok; [|discriminate].
    symmetry in O. apply negb_true_iff in O.
    destruct (A O) as (rs & Hrs & Htx).
    destruct (IH c' _ Htx Hok) as (S' & rs' & Hrs' & Htx').
    split.
    + rewrite S', S, <- app_assoc. reflexivity.
    + exists (rs ++ rs'). cbn [concat]. rewrite <- app_assoc in Htx'.
      split; [apply to_rows_app; assumption | exact Htx'].
Qed.

End LoaderProperties.

(** Documents with integer ages have rows. *)
Lemma to_rows_finite ds :
  (forall d, In d ds -> finite_age d) -> exists rs, to_rows ds = Some rs.
Proof.
  induction ds as [|d ds IH]; intros H; cbn [to_rows]; [eauto|].
  destruct (H d (or_introl eq_refl)) as [z Hz].
  destruct IH as [rs ->]; [intros d' Hd'; apply H; right; exact Hd'|].
  unfold to_row. rewrite Hz. eauto.
Qed.

(** ** The batches *)

Lemma concat_batches BATCH_SIZE ds : forall cur,
  concat (batches BATCH_SIZE cur ds) = cur ++ ds.
Proof.
  induction ds as [|d ds IH]; intros cur; cbn [batches].
  - destruct cur; cbn; rewrite ?app_nil_r; reflexivity.
  - destruct (ge_BATCH_SIZE _ _); cbn [concat]; rewrite IH.
    + rewrite <- app_assoc. reflexivity.
    + rewrite <- app_assoc. reflexivity.
Qed.

(** For a batch size [B >= 1]: every batch has between 1 and [B] rows, all
    but the last have [B] rows, and their number is the rounded-up
    quotient. *)
Lemma batches_sizes (B : Z) ds : (1 <= B)%Z -> forall cur,
  (Z.of_nat (length cur) < B)%Z ->
  Forall (fun b => 1 <= length b /\ (Z.of_nat (length b) <= B)%Z)
         (batches (Int B) cur ds)
  /\ Forall (fun b => Z.of_nat (length b) = B)
            (removelast (batches (Int B) cur ds))
  /\ Z.of_nat (length (batches (Int B) cur ds))
     = ((Z.of_nat (length cur) + Z.of_nat (length ds) + B - 1) / B)%Z.
Proof.
  intros HB. induction ds as [|d ds IH]; intros cur Hc; cbn [batches].
  - destruct cur as [|x cur]; cbn [length Nat.ltb Nat.leb].
    + cbn. split; [constructor | split; [constructor|]].
      symmetry. apply Z.div_small. lia.
    + change (0 <? S (length cur)) with true.
      cbn [length removelast] in *.
      split; [|split; [constructor|]].
      * constructor; [|constructor]. cbn [length]. lia.
      * apply Z.div_unique with (r := Z.of_nat (length cur)); lia.
  - unfold ge_BATCH_SIZE. rewrite length_app. cbn [length].
    destruct (B <=? Z.of_nat (length cur + 1))%Z eqn:E.
    + apply Z.leb_le in E.
      destruct (IH []) as (F1 & F2 & F3); [cbn; lia|].
      split; [|split].
      * constructor; [rewrite length_app; cbn [length]; lia | exact F1].
      * cbn [removelast].
        destruct (batches (Int B) [] ds) eqn:Eb; [constructor|].
        constructor; [rewrite length_app; cbn [length]; lia | exact F2].
      * cbn [length] in *. rewrite Nat2Z.inj_succ, F3.
        replace (Z.of_nat (length cur) + Z.of_nat (S (length ds)) + B - 1)%Z
          with (0 + Z.of_nat (length ds) + B - 1 + 1 * B)%Z by lia.
        rewrite Z.div_add by lia. lia.
    + apply Z.leb_gt in E.
      destruct (IH (cur ++ [d])) as (F1 & F2 & F3);
        [rewrite length_app; cbn [length]; lia|].
      split; [exact F1 | split; [exact F2|]].
      rewrite F3, length_app. cbn [length]. f_equal. lia.
Qed.

Lemma insert_rows_app a b :
  insert_rows (a ++ b) = insert_rows a ++ insert_rows b.
Proof.
  induction a as [|s a IH]; [reflexivity|].
  destruct s; cbn [app insert_rows]; rewrite IH; reflexivity.
Qed.

Lemma insert_rows_map_INSERT bs : insert_rows (List.map INSERT bs) = bs.
Proof. induction bs; cbn; congruence. Qed.

(** ** The run as a whole *)

Section ImportProperties.

Variable insert_fails : nat -> list Document -> bool.

Lemma printAgeDistribution_db c :
  db (fst (printAgeDistribution c)) = db c
  /\ insert_rows (sent (fst (printAgeDistribution c))) = insert_rows (sent c).
Proof.
  unfold printAgeDistribution.
  destruct (_ =? _)%Z; cbn [fst db sent record_sent].
  - rewrite insert_rows_app. cbn. rewrite app_nil_r. auto.
  - rewrite !insert_rows_app. cbn. rewrite !app_nil_r. auto.
Qed.

(** The run, through what the loader sends after BEGIN. *)
Lemma importCsvFile_sends BATCH_SIZE text records c0 P0 :
  parseCSVText text = inr records ->
  let r := importCsvFile insert_fails BATCH_SIZE text c0 P0 in
  let s := send_all insert_fails (query_begin c0)
             (batches BATCH_SIZE [] (mapped P0 records)) in
  if snd s
  then (exists rep, result r = inr rep)
       /\ final r = fst (printAgeDistribution (query_commit (fst s)))
  else result r = inl InsertRejected /\ final r = query_rollback (fst s).
Proof.
  intros Hp. cbv zeta. unfold importCsvFile, importCsvFile_with. rewrite Hp.
  cbn [begin_rejected commit_rejected no_faults].
  pose proof (load_sends insert_fails BATCH_SIZE records
                {| batch := []; inserted := 0; conn := query_begin c0;
                   log := [Starting; Parsing; Parsed (length records)];
                   Object_prototype := P0 |}) as L.
  cbn [conn batch Object_prototype] in L. rewrite <- L.
  destruct (load _ _ _ _) as [st | st]; cbn [ending snd fst].
  - split; reflexivity.
  - unfold printAgeDistribution_with.
    cbn [count_rejected buckets_rejected no_faults].
    destruct (printAgeDistribution (query_commit (conn st))) as [c3 rep]
      eqn:E.
    destruct rep; cbn [result final fst]; eauto.
Qed.

Lemma query_begin_facts c0 :
  inserts_sent (query_begin c0) = inserts_sent c0
  /\ table (db (query_begin c0)) = table (db c0)
  /\ insert_rows (sent (query_begin c0)) = insert_rows (sent c0)
  /\ exists p, tx (db (query_begin c0)) = Some p
               /\ table (db c0) ++ p = visible (db c0).
Proof.
  unfold query_begin. rewrite inserts_sent_app.
  cbn [is_insert db table tx record_sent sent].
  rewrite insert_rows_app. cbn [insert_rows]. rewrite app_nil_r.
  split; [lia|]. split; [reflexivity|]. split; [reflexivity|].
  unfold visible. destruct (tx (db c0)) as [p|].
  - exists p. auto.
  - exists []. rewrite !app_nil_r. auto.
Qed.

(** A run in which the store rejects some batch. *)
Lemma import_rejected BATCH_SIZE text records c0 P0 :
  parseCSVText text = inr records ->
  let bs := batches BATCH_SIZE [] (mapped P0 records) in
  let r := importCsvFile insert_fails BATCH_SIZE text c0 P0 in
  (exists k, k < length bs
             /\ rejects insert_fails (inserts_sent c0 + k) (nth k bs []) = true)
  -> result r = inl InsertRejected
     /\ table (db (final r)) = table (db c0)
     /\ tx (db (final r)) = None
     /\ visible (db (final r)) = table (db c0)
     /\ last (sent (final r)) BEGIN = ROLLBACK.
Proof.
  intros Hp bs r Hk.
  pose proof (@importCsvFile_sends BATCH_SIZE text records c0 P0 Hp) as S.
  cbv zeta in S. fold bs r in S.
  destruct (query_begin_facts c0) as (N0 & T0 & _ & p0 & X0 & V0).
  pose proof (send_all_rejected insert_fails bs (query_begin c0)) as R.
  rewrite N0 in R. apply R in Hk.
  pose proof (@send_all_tx insert_fails bs _ _ X0) as (T & p' & X).
  destruct (send_all insert_fails (query_begin c0) bs) as [c ok];
    cbn [fst snd] in *.
  subst ok. destruct S as [S1 S2].
  rewrite S2. unfold query_rollback, visible.
  cbn [db table tx sent record_sent].
  rewrite last_last. repeat split; auto; congruence.
Qed.

(** A run in which the store rejects no batch. *)
Lemma import_accepted BATCH_SIZE text records c0 P0 :
  parseCSVText text = inr records ->
  let docs := mapped P0 records in
  let bs := batches BATCH_SIZE [] docs in
  let r := importCsvFile insert_fails BATCH_SIZE text c0 P0 in
  (forall k, k < length bs ->
     rejects insert_fails (inserts_sent c0 + k) (nth k bs []) = false)
  -> (exists rep, result r = inr rep)
     /\ insert_rows (sent (final r)) = insert_rows (sent c0) ++ bs
     /\ exists rows, to_rows docs = Some rows
          /\ table (db (final r)) = visible (db c0) ++ rows
          /\ tx (db (final r)) = None.
Proof.
  intros Hp docs bs r Hk.
  pose proof (@importCsvFile_sends BATCH_SIZE text records c0 P0 Hp) as S.
  cbv zeta in S. fold docs bs r in S.
  destruct (query_begin_facts c0) as (N0 & T0 & I0 & p0 & X0 & V0).
  pose proof (send_all_rejected insert_fails bs (query_begin c0)) as R.
  rewrite N0 in R.
  pose proof (@send_all_tx insert_fails bs _ _ X0) as (T & p' & X).
  pose proof (@send_all_accepted insert_fails bs _ _ X0) as A.
  destruct (send_all insert_fails (query_begin c0) bs) as [c ok];
    cbn [fst snd] in *.
  destruct ok.
  - destruct S as [S1 S2]. split; [exact S1|].
    destruct (A eq_refl) as (Hs & rs & Hrs & Htx).
    destruct (printAgeDistribution_db (query_commit c)) as [D1 D2].
    rewrite S2, D1, D2. split.
    + unfold query_commit. cbn [sent record_sent].
      rewrite insert_rows_app, Hs, insert_rows_app, I0,
        insert_rows_map_INSERT.
      cbn. rewrite app_nil_r. reflexivity.
    + exists rs. unfold bs in Hrs. rewrite concat_batches in Hrs.
      split; [exact Hrs|].
      rewrite <- V0. unfold query_commit. cbn [db table tx record_sent].
      unfold visible. rewrite Htx, T, T0, app_assoc. auto.
  - exfalso. destruct (proj1 R eq_refl) as (k & Hlt & Hr).
    rewrite (Hk k Hlt) in Hr. discriminate.
Qed.

(** C1: the import is atomic.  Let the documents of a run be cut into the
    batches [bs].  If the store rejects the INSERT of some batch [k], the
    run ends with ROLLBACK: the table is what it was before the run, no
    transaction is left open, and the run rethrows the error.  If the store
    rejects none, the run commits: the table gains the rows of all the
    documents at once. *)
Theorem C1_import_is_atomic
    (BATCH_SIZE : number) (text : jstring) (records : list FlatRecord)
    (c0 : client) (P0 : object) :
  parseCSVText text = inr records ->
  let docs := mapped P0 records in
  let bs := batches BATCH_SIZE [] docs in
  let r := importCsvFile insert_fails BATCH_SIZE text c0 P0 in
  ((exists k, k < length bs
              /\ rejects insert_fails (inserts_sent c0 + k) (nth k bs []) = true)
   -> result r = inl InsertRejected
      /\ table (db (final r)) = table (db c0)
      /\ tx (db (final r)) = None
      /\ visible (db (final r)) = table (db c0)
      /\ last (sent (final r)) BEGIN = ROLLBACK)
  /\ ((forall k, k < length bs ->
         rejects insert_fails (inserts_sent c0 + k) (nth k bs []) = false)
      -> (exists rep, result r = inr rep)
         /\ exists rows, to_rows docs = Some rows
              /\ table (db (final r)) = visible (db c0) ++ rows
              /\ tx (db (final r)) = None).
Proof.
  intros Hp docs bs r. split.
  - apply import_rejected; exact Hp.
  - intros Hk.
    destruct (@import_accepted BATCH_SIZE text records c0 P0 Hp Hk)
      as (H1 & _ & H2).
    split; assumption.
Qed.

(** C5 (amended): the batches of a run.  For a batch size [B >= 1], when
    every mapped document has an integer age and the store rejects no
    INSERT, the run sends one INSERT for each batch of the mapped documents
    and no other: their number is the number [N] of documents divided by
    [B], rounded up; each carries at least one and at most [B] rows, and
    all but the last carry [B]; together they carry the documents in
    order, the last one being the partial batch flushed at the end; and
    the table gains [N] rows. *)
Theorem C5_batches_of_a_run
    (B : Z) (text : jstring) (records : list FlatRecord) (c0 : client)
    (P0 : object) :
  (1 <= B)%Z ->
  parseCSVText text = inr records ->
  let docs := mapped P0 records in
  let bs := batches (Int B) [] docs in
  let r := importCsvFile insert_fails (Int B) text c0 P0 in
  (forall d, In d docs -> finite_age d) ->
  (forall k, k < length bs ->
     insert_fails (inserts_sent c0 + k) (nth k bs []) = false) ->
  insert_rows (sent (final r)) = insert_rows (sent c0) ++ bs
  /\ Z.of_nat (length bs) = ((Z.of_nat (length docs) + B - 1) / B)%Z
  /\ Forall (fun b => 1 <= length b /\ (Z.of_nat (length b) <= B)%Z) bs
  /\ Forall (fun b => Z.of_nat (length b) = B) (removelast bs)
  /\ concat bs = docs
  /\ exists rows, to_rows docs = Some rows
       /\ table (db (final r)) = visible (db c0) ++ rows
       /\ length rows = length docs.
Proof.
  intros HB Hp docs bs r Hfin Hins.
  assert (Hk : forall k, k < length bs ->
            rejects insert_fails (inserts_sent c0 + k) (nth k bs []) = false).
  { intros k Hlt. unfold rejects. rewrite (Hins k Hlt). cbn [orb].
    destruct (@to_rows_finite (nth k bs [])) as [rs ->]; [|reflexivity].
    intros d Hd. apply Hfin.
    pose proof (concat_batches (Int B) docs []) as CB. cbn [app] in CB.
    fold bs in CB. rewrite <- CB.
    apply in_concat. exists (nth k bs []). split; [|exact Hd].
    apply nth_In. exact Hlt. }
  destruct (@batches_sizes B docs HB []) as (F1 & F2 & F3); [cbn; lia|].
  fold bs in F1, F2, F3. cbn [length] in F3.
  destruct (@import_accepted (Int B) text records c0 P0 Hp Hk)
    as (_ & Hs & rows & Hr & Ht & _).
  repeat split; auto.
  - apply concat_batches.
  - exists rows. repeat split; auto. apply to_rows_length; exact Hr.
Qed.

End ImportProperties.

(** Three documents in batches of two: a store that rejects the second
    INSERT leaves the table empty; a store that rejects none gets all
    three rows. *)
Lemma C1_import_is_atomic_witness :
  (let r := importCsvFile second_fails (Int 2) three_people
              (fresh_client []) pristine in
   result r = inl InsertRejected
   /\ table (db (final r)) = []
   /\ tx (db (final r)) = None)
  /\ (let r := importCsvFile never_fails (Int 2) three_people
                 (fresh_client []) pristine in
      (exists rep, result r = inr rep)
      /\ exists rows,
           to_rows (mapped pristine (records_of three_people)) = Some rows
           /\ table (db (final r)) = rows).
Proof.
  split.
  - pose proof (proj1 (@C1_import_is_atomic second_fails (Int 2) three_people
                         (records_of three_people) (fresh_client []) pristine
                         eq_refl)) as H.
    cbv zeta in H.
    destruct H as (H1 & H2 & H3 & _).
    + exists 1. split; [vm_compute; lia | vm_compute; reflexivity].
    + cbv zeta. auto.
  - pose proof (proj2 (@C1_import_is_atomic never_fails (Int 2) three_people
                         (records_of three_people) (fresh_client []) pristine
                         eq_refl)) as H.
    cbv zeta in H.
    destruct H as (H1 & rows & H2 & H3 & _).
    + intros [|[|k]] Hk; try reflexivity.
      exfalso. vm_compute in Hk. lia.
    + cbv zeta. split; [exact H1 | exists rows; auto].
Defined.

(** C5, as the specification states it, fails.  With a batch size of 1,
    three mapped documents should give three INSERTs and three rows.  On
    the text [overflow_among_three] all three lines are mapped, the store
    rejects nothing of its own accord, and yet the run sends two INSERTs
    and persists no row: the second document has an age that is not
    finite, its INSERT fails and the transaction is rolled back.  On
    three valid lines, a store that rejects the second INSERT has the
    same effect. *)
Lemma C5_a_rejected_insert_ends_the_run :
  (let r := importCsvFile never_fails (Int 1) overflow_among_three
              (fresh_client []) pristine in
   length (mapped pristine (records_of overflow_among_three)) = 3
   /\ length (insert_rows (sent (final r))) = 2
   /\ table (db (final r)) = []
   /\ result r = inl InsertRejected)
  /\ (let r := importCsvFile second_fails (Int 1) three_people
                 (fresh_client []) pristine in
      length (mapped pristine (records_of three_people)) = 3
      /\ length (insert_rows (sent (final r))) = 2
      /\ table (db (final r)) = []
      /\ result r = inl InsertRejected).
Proof. vm_compute. repeat split. Qed.

(** Three documents and a batch size of two: two INSERTs, of two rows and
    of one row. *)
Lemma C5_batches_of_a_run_witness :
  let docs := mapped pristine (records_of three_people) in
  let bs := batches (Int 2) [] docs in
  let r := importCsvFile never_fails (Int 2) three_people
             (fresh_client []) pristine in
  insert_rows (sent (final r)) = bs
  /\ Z.of_nat (length bs) = ((3 + 2 - 1) / 2)%Z
  /\ List.map (@length Document) bs = [2; 1]
  /\ concat bs = docs
  /\ length (table (db (final r))) = 3.
Proof.
  cbv zeta.
  destruct (@C5_batches_of_a_run never_fails 2 three_people
              (records_of three_people) (fresh_client []) pristine)
    as (H1 & H2 & _ & _ & H5 & rows & H6 & H7 & H8).
  - lia.
  - reflexivity.
  - intros d Hd. vm_compute in Hd.
    destruct Hd as [<- | [<- | [<- | []]]]; eexists; reflexivity.
  - intros k Hk. reflexivity.
  - split; [exact H1 | split; [exact H2 | split; [reflexivity|]]].
    split; [exact H5|].
    rewrite H7. cbn [visible fresh_client db table tx app]. rewrite H8.
    reflexivity.
Defined.

(** ** The age report *)

Lemma buckets_partition a : buckets_holding a = 1.
Proof.
  unfold buckets_holding, lt20, btw20_40, btw40_60, gt60.
  destruct (Z.ltb_spec a 20), (Z.leb_spec 20 a), (Z.leb_spec a 40),
    (Z.ltb_spec 40 a), (Z.leb_spec a 60), (Z.ltb_spec 60 a);
    cbn [andb]; try reflexivity; lia.
Qed.





(** ** Keys through [__proto__] *)

(** C8 fails on the code.  The record of [proto_text] has a key that
    starts with [address.] and a key that is neither consumed nor an
    address key, and yet its Document has neither an address nor
    additional information: the write of [address.__proto__] is swallowed
    by the inherited setter, and the write of [__proto__.x] lands on
    [Object.prototype]. *)
Theorem C8_proto_keys_leave_null :
  exists rec d,
    parseCSVText proto_text = inr [rec]
    /\ existsb (fun kv => startsWith ADDRESS_DOT (fst kv)) rec = true
    /\ existsb (fun kv => negb (is_consumed (fst kv))
                          && negb (startsWith ADDRESS_DOT (fst kv))) rec
       = true
    /\ mapRecordToDb pristine rec = (inr d, [(js "x", VStr (js "Y"))])
    /\ address d = None
    /\ additional_info d = None.
Proof.
  eexists. eexists.
  split; [vm_compute; reflexivity|].
  split; [vm_compute; reflexivity|].
  split; [vm_compute; reflexivity|].
  split; [vm_compute; reflexivity|].
  split; reflexivity.
Qed.

(** *** Keys without [__proto__] *)

Lemma insert_by_index_In n e l x :
  In x (insert_by_index n e l) <-> x = (n, e) \/ In x l.
Proof.
  induction l as [|[m e'] l IH]; cbn [insert_by_index In].
  - intuition.
  - destruct (n <? m)%Z; cbn [In]; rewrite ?IH; intuition.
Qed.

Lemma index_entries_In rec n e :
  In (n, e) (index_entries rec) <->
  In e rec /\ array_index (fst e) = Some n.
Proof.
  induction rec as [|[k v] rec IH]; cbn [index_entries In].
  - tauto.
  - destruct (array_index k) as [m|] eqn:E.
    + rewrite insert_by_index_In, IH. split.
      * intros [[= -> ->] | [H1 H2]]; auto.
      * intros [[<- | H1] H2]; cbn [fst] in *; [left | right; auto].
        congruence.
    + rewrite IH. split.
      * intros [H1 H2]; auto.
      * intros [[<- | H1] H2]; cbn [fst] in *; [congruence | auto].
Qed.

(** [Object.entries] lists the own properties, each once. *)
Lemma Object_entries_In rec e : In e (Object_entries rec) <-> In e rec.
Proof.
  unfold Object_entries. rewrite in_app_iff, in_map_iff, filter_In. split.
  - intros [([n e'] & <- & H) | [H _]]; [|exact H].
    apply index_entries_In in H. tauto.
  - intros H. unfold is_index_key.
    destruct (array_index (fst e)) as [n|] eqn:E.
    + left. exists (n, e). split; [reflexivity|].
      apply index_entries_In. auto.
    + right. auto.
Qed.

Lemma split_not_nil sep s : split sep s <> [].
Proof.
  destruct s as [|c s]; cbn [split]; [discriminate|].
  destruct (N.eqb c sep); [discriminate|].
  destruct (split sep s); discriminate.
Qed.

Lemma set_own_not_nil {V} k (v : V) o : set_own k v o <> [].
Proof.
  destruct o as [|[k' v'] o]; cbn [set_own]; [discriminate|].
  destruct (eqb_str k k'); discriminate.
Qed.

Lemma upd_at_not_nil path f o :
  (forall o', f o' <> []) -> o <> [] \/ path = [] -> upd_at path f o <> [].
Proof.
  intros Hf H. destruct path as [|k path]; cbn [upd_at]; [apply Hf|].
  destruct H as [H | H]; [|discriminate].
  destruct (lookup k o) as [[s | o']|]; auto. apply set_own_not_nil.
Qed.

Lemma lookup_not_nil {V} k (o : list (jstring * V)) v :
  lookup k o = Some v -> o <> [].
Proof. destruct o; [discriminate | discriminate]. Qed.

(** While no part is [__proto__] and [Object.prototype] holds no object,
    the loop of [setNested] stays below the object it was given: it
    returns, leaves [Object.prototype] alone, and the object has a key
    afterwards. *)
Lemma walk_below_root value parts : forall path here h,
  parts <> [] ->
  Forall (fun p => eqb_str p PROTO = false) parts ->
  no_objects (proto h) ->
  snd (walk parts value (At Root path here) h) = true
  /\ proto (fst (walk parts value (At Root path here) h)) = proto h
  /\ (root h <> [] \/ (path = [] /\ here = root h) ->
      root (fst (walk parts value (At Root path here) h)) <> []).
Proof.
  induction parts as [|p rest IH]; intros path here h Hne Hp Hn;
    [congruence|].
  inversion Hp as [|? ? Hp1 Hp2]; subst.
  cbn [walk]. destruct rest as [|p2 rest'].
  - cbn [put write fst snd root proto].
    unfold assign_string. rewrite Hp1.
    repeat split; auto. intros H.
    apply upd_at_not_nil; [intros; apply set_own_not_nil | tauto].
  - assert (W : root h <> [] \/ path = [] /\ here = root h ->
                root (write Root path (set_own p (VObj [])) h) <> []).
    { intros H. cbn [write root].
      apply upd_at_not_nil; [intros; apply set_own_not_nil | tauto]. }
    assert (Fresh :
      snd (walk (p2 :: rest') value (At Root (path ++ [p]) [])
             (write Root path (set_own p (VObj [])) h)) = true
      /\ proto (fst (walk (p2 :: rest') value (At Root (path ++ [p]) [])
                       (write Root path (set_own p (VObj [])) h))) = proto h
      /\ (root h <> [] \/ path = [] /\ here = root h ->
          root (fst (walk (p2 :: rest') value (At Root (path ++ [p]) [])
                       (write Root path (set_own p (VObj [])) h))) <> [])).
    { destruct (IH (path ++ [p]) []
                  (write Root path (set_own p (VObj [])) h))
        as (A & B & C); [discriminate | exact Hp2 | exact Hn |].
      repeat split; [exact A | exact B |].
      intros H. apply C. left. apply W. exact H. }
    cbn [descend]. rewrite Hp1. cbn [is_Object_prototype].
    destruct (lookup p here) as [[s | o']|] eqn:El.
    + exact Fresh.
    + destruct (IH (path ++ [p]) o' h) as (A & B & C);
        [discriminate | exact Hp2 | exact Hn |].
      repeat split; [exact A | exact B |].
      intros H. apply C. left.
      destruct H as [H | [_ ->]]; [exact H|].
      eapply lookup_not_nil; exact El.
    + destruct (lookup p (proto h)) as [[s | o']|] eqn:E2;
        [exact Fresh | exfalso; exact (Hn _ _ E2) | exact Fresh].
Qed.

Lemma setNested_below P obj path value :
  proto_free_key path = true -> no_objects P ->
  exists obj', setNested P obj path value = (obj', P, true) /\ obj' <> [].
Proof.
  intros Hk Hn. unfold setNested.
  assert (Hp : Forall (fun p => eqb_str p PROTO = false) (split DOT path)).
  { unfold proto_free_key in Hk. apply negb_true_iff in Hk.
    apply Forall_forall. intros p Hin.
    destruct (eqb_str p PROTO) eqn:E; [|reflexivity].
    apply eqb_str_eq in E; subst p.
    assert (X : existsb (eqb_str PROTO) (split DOT path) = true).
    { apply existsb_exists. exists PROTO. split; [exact Hin|].
      apply eqb_str_refl. }
    congruence. }
  destruct (@walk_below_root value (split DOT path) [] obj
              {| root := obj; proto := P |} (@split_not_nil DOT path) Hp Hn)
    as (A & B & C).
  destruct (walk _ _ _ _) as [h ok]; cbn [fst snd root proto] in *.
  subst ok. exists (root h). rewrite B. split; [reflexivity|].
  apply C. auto.
Qed.

Lemma startsWith_app p : forall s,
  startsWith p s = true -> s = p ++ skipn (length p) s.
Proof.
  induction p as [|x p IH]; intros s H; [reflexivity|].
  destruct s as [|y s]; cbn [startsWith] in H; [discriminate|].
  apply andb_true_iff in H as [H1 H2]. apply N.eqb_eq in H1. subst y.
  cbn [length skipn app]. f_equal. apply IH. exact H2.
Qed.

Lemma split_address sub :
  split DOT (ADDRESS_DOT ++ sub) = js "address" :: split DOT sub.
Proof. reflexivity. Qed.

Lemma proto_free_key_address k :
  startsWith ADDRESS_DOT k = true -> proto_free_key k = true ->
  proto_free_key (slice (length ADDRESS_DOT) k) = true.
Proof.
  intros Hs Hk. unfold slice.
  rewrite (startsWith_app _ _ Hs) in Hk.
  unfold proto_free_key in *. rewrite split_address in Hk.
  cbn [existsb] in Hk. rewrite negb_orb in Hk.
  apply andb_true_iff in Hk as [_ Hk]. exact Hk.
Qed.

(** The loop of lines 100-109 on keys without [__proto__]: it returns,
    leaves [Object.prototype] alone, and [address] (and [additional]) stay
    empty exactly when no key was routed to them. *)
Lemma entries_loop_below es : forall address additional P,
  no_objects P ->
  (forall k v, In (k, v) es -> proto_free_key k = true) ->
  exists address' additional',
    entries_loop es address additional P = (address', additional', P, true)
    /\ (address' = [] <->
        address = []
        /\ forall k v, In (k, v) es ->
             is_consumed k = true \/ startsWith ADDRESS_DOT k = false)
    /\ (additional' = [] <->
        additional = []
        /\ forall k v, In (k, v) es ->
             is_consumed k = true \/ startsWith ADDRESS_DOT k = true).
Proof.
  induction es as [|[k v] es IH]; intros address additional P Hn Hk.
  - exists address, additional. cbn [entries_loop In]. intuition.
  - assert (Hk' : forall k0 v0, In (k0, v0) es -> proto_free_key k0 = true)
      by (intros; eapply Hk; right; eassumption).
    cbn [entries_loop].
    destruct (is_consumed k) eqn:Ec.
    + destruct (IH address additional P Hn Hk') as (a' & b' & E & Ha & Hb).
      exists a', b'. split; [exact E|]. rewrite Ha, Hb. split.
      * split; intros [H1 H2]; (split; [exact H1|]).
        -- intros k0 v0 [[= <- <-] | H]; eauto.
        -- intros k0 v0 H. apply (H2 k0 v0). right; exact H.
      * split; intros [H1 H2]; (split; [exact H1|]).
        -- intros k0 v0 [[= <- <-] | H]; eauto.
        -- intros k0 v0 H. apply (H2 k0 v0). right; exact H.
    + destruct (startsWith ADDRESS_DOT k) eqn:Es.
      * destruct (@setNested_below P address
                    (slice (length ADDRESS_DOT) k) v) as (a1 & E1 & N1);
          [apply proto_free_key_address; [exact Es | eapply Hk; left; eauto]
          | exact Hn |].
        rewrite E1.
        destruct (IH a1 additional P Hn Hk') as (a' & b' & E & Ha & Hb).
        exists a', b'. split; [exact E|]. rewrite Ha, Hb. split.
        -- split; [intros [H _]; contradiction|].
           intros [_ H]. exfalso.
           destruct (H k v (or_introl eq_refl)); congruence.
        -- split; intros [H1 H2]; (split; [exact H1|]).
           ++ intros k0 v0 [[= <- <-] | H]; eauto.
           ++ intros k0 v0 H. apply (H2 k0 v0). right; exact H.
      * destruct (@setNested_below P additional k v) as (b1 & E1 & N1);
          [eapply Hk; left; eauto | exact Hn |].
        rewrite E1.
        destruct (IH address b1 P Hn Hk') as (a' & b' & E & Ha & Hb).
        exists a', b'. split; [exact E|]. rewrite Ha, Hb. split.
        -- split; intros [H1 H2]; (split; [exact H1|]).
           ++ intros k0 v0 [[= <- <-] | H]; eauto.
           ++ intros k0 v0 H. apply (H2 k0 v0). right; exact H.
        -- split; [intros [H _]; contradiction|].
           intros [_ H]. exfalso.
           destruct (H k v (or_introl eq_refl)); congruence.
Qed.

Lemma or_null_None o : or_null o = None <-> o = [].
Proof. destruct o; cbn; split; congruence. Qed.

Lemma is_consumed_not_address k :
  is_consumed k = true -> startsWith ADDRESS_DOT k = false.
Proof.
  unfold is_consumed. rewrite !orb_true_iff, !eqb_str_eq.
  intros [[-> | ->] | ->]; reflexivity.
Qed.

(** For a record none of whose keys has a part [__proto__], as long as
    [Object.prototype] holds no object, the null fields are as the
    specification says: the
    Document has no address exactly when no key of the record starts with
    [address.], and no additional information exactly when every key is a
    consumed one or an address key. *)
Lemma mapRecordToDb_null_iff P rec d P' :
  no_objects P -> proto_free rec ->
  mapRecordToDb P rec = (inr d, P') ->
  P' = P
  /\ (address d = None <->
      forall k v, In (k, v) rec -> startsWith ADDRESS_DOT k = false)
  /\ (additional_info d = None <->
      forall k v, In (k, v) rec ->
        is_consumed k = true \/ startsWith ADDRESS_DOT k = true).
Proof.
  intros Hn Hf H.
  destruct (field P rec K_FIRST) as [f|] eqn:Hfi;
    [destruct (field P rec K_LAST) as [l|] eqn:Hl;
     [destruct (field P rec K_AGE) as [a|] eqn:Ha|]|];
    try (unfold mapRecordToDb in H; rewrite ?Hfi, ?Hl, ?Ha in H;
         discriminate).
  rewrite (mapRecordToDb_read _ _ Hfi Hl Ha) in H.
  destruct (_ || _); [discriminate|].
  destruct (isNaN _); [discriminate|].
  destruct (@entries_loop_below (Object_entries rec) [] [] P Hn)
    as (a' & b' & E & Ha' & Hb').
  { intros k v Hin. exact (Hf k v (proj1 (Object_entries_In _ _) Hin)). }
  rewrite E in H. injection H as <- <-. cbn [address additional_info].
  split; [reflexivity|]. rewrite !or_null_None, Ha', Hb'. split.
  - split.
    + intros [_ H] k v Hin.
      destruct (H k v (proj2 (Object_entries_In rec (k, v)) Hin)); auto.
      apply is_consumed_not_address; assumption.
    + intros H. split; [reflexivity|]. intros k v Hin.
      right. apply (H k v). apply Object_entries_In. exact Hin.
  - split.
    + intros [_ H] k v Hin.
      apply (H k v). apply Object_entries_In. exact Hin.
    + intros H. split; [reflexivity|]. intros k v Hin.
      apply (H k v). apply Object_entries_In. exact Hin.
Qed.

(** ** What a run can leave on [Object.prototype] *)

Lemma split_dotless s : Forall (fun p => dotless p = true) (split DOT s).
Proof.
  induction s as [|c s IH]; cbn [split].
  - repeat constructor.
  - destruct (N.eqb c DOT) eqn:E.
    + constructor; [reflexivity | exact IH].
    + destruct (split DOT s) as [|p ps]; inversion IH; subst.
      * repeat constructor. cbn. rewrite E. reflexivity.
      * constructor; [|assumption].
        cbn [dotless forallb]. rewrite E. assumption.
Qed.

Lemma set_own_In {V} k (v : V) o k' v' :
  In (k', v') (set_own k v o) -> (k' = k /\ v' = v) \/ In (k', v') o.
Proof.
  induction o as [|[k0 v0] o IH]; cbn [set_own In].
  - intros [[= -> ->] | []]. auto.
  - destruct (eqb_str k k0); cbn [In].
    + intros [[= -> ->] | H]; auto.
    + intros [H | H]; auto. destruct (IH H); auto.
Qed.

Lemma dotless_keys_set_own k v P :
  dotless k = true -> dotless_keys P -> dotless_keys (set_own k v P).
Proof.
  intros Hk HP k' v' H. apply set_own_In in H as [[-> _] | H]; eauto.
Qed.

Lemma dotless_keys_write b path p h :
  dotless p = true -> dotless_keys (proto h) ->
  (forall x, dotless_keys (proto (write b path (set_own p x) h)))
  /\ (forall s, dotless_keys
                  (proto (write b path (assign_string VStr p s) h))).
Proof.
  intros Hp HP. destruct b; cbn [write proto]; [auto|].
  assert (K : forall f, dotless_keys (f (proto h)) ->
                        dotless_keys (upd_at path f (proto h))).
  { intros f Hf. destruct path as [|k path]; cbn [upd_at]; [exact Hf|].
    destruct (lookup k (proto h)) as [[s | o']|] eqn:E; auto.
    apply dotless_keys_set_own; [|exact HP].
    apply lookup_In in E. eapply HP; exact E. }
  split; intros; apply K.
  - apply dotless_keys_set_own; assumption.
  - unfold assign_string. destruct (eqb_str p PROTO); [exact HP|].
    apply dotless_keys_set_own; assumption.
Qed.

Lemma walk_dotless value parts : forall c h,
  Forall (fun p => dotless p = true) parts ->
  dotless_keys (proto h) ->
  dotless_keys (proto (fst (walk parts value c h))).
Proof.
  induction parts as [|p rest IH]; intros c h Hp HP; [exact HP|].
  inversion Hp as [|? ? Hp1 Hp2]; subst.
  cbn [walk]. destruct rest as [|p2 rest'].
  - destruct c as [|b path here]; cbn [put fst]; [exact HP|].
    apply dotless_keys_write; assumption.
  - destruct c as [|b path here]; cbn [descend fst]; [exact HP|].
    assert (Fresh : dotless_keys
              (proto (fst (walk (p2 :: rest') value (At b (path ++ [p]) [])
                             (write b path (set_own p (VObj [])) h))))).
    { apply IH; [exact Hp2|]. apply dotless_keys_write; assumption. }
    destruct (eqb_str p PROTO).
    + destruct (is_Object_prototype b path); cbn [fst].
      * destruct rest'; cbn [walk put descend fst]; exact HP.
      * apply IH; assumption.
    + destruct (lookup p here) as [[s | o']|].
      * exact Fresh.
      * apply IH; assumption.
      * destruct (is_Object_prototype b path); [exact Fresh|].
        destruct (lookup p (proto h)) as [[s | o']|];
          [exact Fresh | apply IH; assumption | exact Fresh].
Qed.

Lemma setNested_dotless P obj path value :
  dotless_keys P ->
  dotless_keys (snd (fst (setNested P obj path value))).
Proof.
  intros HP. unfold setNested.
  pose proof (@walk_dotless value (split DOT path) (At Root [] obj)
                {| root := obj; proto := P |} (split_dotless path) HP) as W.
  destruct (walk _ _ _ _) as [h ok]. exact W.
Qed.

Lemma entries_loop_dotless es : forall address additional P,
  dotless_keys P ->
  dotless_keys (snd (fst (entries_loop es address additional P))).
Proof.
  induction es as [|[k v] es IH]; intros address additional P HP;
    cbn [entries_loop]; [exact HP|].
  destruct (is_consumed k); [apply IH; exact HP|].
  destruct (startsWith ADDRESS_DOT k).
  - pose proof (@setNested_dotless P address
                  (slice (length ADDRESS_DOT) k) v HP) as S.
    destruct (setNested P address _ v) as [[a1 P1] ok]; cbn [fst snd] in S.
    destruct ok; [apply IH; exact S | exact S].
  - pose proof (@setNested_dotless P additional k v HP) as S.
    destruct (setNested P additional k v) as [[b1 P1] ok]; cbn [fst snd] in S.
    destruct ok; [apply IH; exact S | exact S].
Qed.

(** Whatever [mapRecordToDb] writes on [Object.prototype] has a key
    without a dot. *)
Lemma mapRecordToDb_dotless P rec :
  dotless_keys P -> dotless_keys (snd (mapRecordToDb P rec)).
Proof.
  intros HP. unfold mapRecordToDb.
  destruct (field P rec K_FIRST); [|exact HP].
  destruct (field P rec K_LAST); [|exact HP].
  destruct (field P rec K_AGE); [|exact HP].
  destruct (_ || _); [exact HP|].
  destruct (isNaN _); [exact HP|].
  pose proof (@entries_loop_dotless (Object_entries rec) [] [] P HP) as E.
  destruct (entries_loop _ _ _ _) as [[[a b] P'] ok]; cbn [fst snd] in E.
  destruct ok; exact E.
Qed.

Lemma dotless_keys_lookup P k :
  dotless_keys P -> dotless k = false -> lookup k P = None.
Proof.
  intros HP Hk. destruct (lookup k P) as [v|] eqn:E; [|reflexivity].
  apply lookup_In in E. apply HP in E. congruence.
Qed.

Lemma lookup_set_own {V} k k' (v : V) o :
  lookup k (set_own k' v o) = if eqb_str k k' then Some v else lookup k o.
Proof.
  induction o as [|[k0 v0] o IH]; cbn [set_own lookup].
  - reflexivity.
  - destruct (eqb_str k' k0) eqn:E1; cbn [lookup].
    + apply eqb_str_eq in E1; subst k0.
      destruct (eqb_str k k'); reflexivity.
    + destruct (eqb_str k k0) eqn:E2.
      * apply eqb_str_eq in E2; subst k0.
        destruct (eqb_str k k') eqn:E3; [|reflexivity].
        apply eqb_str_eq in E3; subst k'.
        rewrite eqb_str_refl in E1. discriminate.
      * exact IH.
Qed.

(** The own keys of a record are the header keys other than [__proto__],
    whatever the fields of its line are. *)
Lemma fill_lookup k headers fields : forall i rec,
  lookup k (fill headers fields i rec) = None <->
  lookup k rec = None /\ (~ In k headers \/ k = PROTO).
Proof.
  induction headers as [|h hs IH]; intros i rec; cbn [fill In].
  - tauto.
  - rewrite IH. unfold assign_string.
    destruct (eqb_str h PROTO) eqn:Eh.
    + apply eqb_str_eq in Eh; subst h.
      destruct (list_eq_dec N.eq_dec k PROTO) as [-> | Hne];
        [tauto | intuition congruence].
    + rewrite lookup_set_own. destruct (eqb_str k h) eqn:Ek.
      * apply eqb_str_eq in Ek; subst h. apply eqb_str_neq in Eh.
        split; [intros [? _]; discriminate | intros [_ [H | H]]; tauto].
      * apply eqb_str_neq in Ek. intuition congruence.
Qed.

Lemma make_record_lookup k headers fields :
  lookup k (make_record headers fields) = None <->
  ~ In k headers \/ k = PROTO.
Proof. unfold make_record. rewrite fill_lookup. cbn [lookup]. tauto. Qed.

(** [Object.prototype] changes only in a call that has passed the
    validation, hence one that has read a non-empty age. *)
Lemma mapRecordToDb_changes P rec :
  snd (mapRecordToDb P rec) = P
  \/ exists a, field P rec K_AGE = Some a /\ a <> [].
Proof.
  unfold mapRecordToDb.
  destruct (field P rec K_FIRST) as [f|]; [|auto].
  destruct (field P rec K_LAST) as [l|]; [|auto].
  destruct (field P rec K_AGE) as [a|]; [|auto].
  destruct (is_empty f || is_empty l || is_empty a) eqn:E; [auto|].
  rewrite !orb_false_iff, !is_empty_false in E. right. exists a. tauto.
Qed.

Lemma run_state_step hs P fields :
  run_state hs P ->
  run_state hs (snd (mapRecordToDb P (make_record hs fields))).
Proof.
  intros [HD HA]. split; [apply mapRecordToDb_dotless; exact HD|].
  destruct (mapRecordToDb_changes P (make_record hs fields))
    as [-> | (a & Ha & Hne)]; [exact HA|].
  destruct HA as [HA | HA]; [|auto].
  right. unfold field, get_prop in Ha. rewrite HA in Ha.
  destruct (lookup K_AGE (make_record hs fields)) eqn:E.
  - destruct (in_dec (list_eq_dec N.eq_dec) K_AGE hs) as [I | I]; [exact I|].
    exfalso. assert (X : lookup K_AGE (make_record hs fields) = None)
      by (apply make_record_lookup; auto).
    congruence.
  - cbn in Ha. congruence.
Qed.

Lemma run_state_reads_own hs P fields :
  run_state hs P -> reads_own P (make_record hs fields).
Proof.
  intros [HD HA] k Hk. cbn [In] in Hk.
  destruct Hk as [<- | [<- | [<- | []]]].
  - right. apply dotless_keys_lookup; [exact HD | reflexivity].
  - right. apply dotless_keys_lookup; [exact HD | reflexivity].
  - destruct HA as [HA | HA]; [auto|]. left. intros X.
    apply make_record_lookup in X. destruct X as [X | X];
      [auto | discriminate].
Qed.

(** In a run that starts on a fresh [Object.prototype], the mapper reads
    the three mandatory fields of every record from the record itself. *)
Lemma reads_own_in_run hs pre fields :
  (forall r, In r pre -> exists f, r = make_record hs f) ->
  reads_own (proto_after pristine pre) (make_record hs fields).
Proof.
  intros Hpre. apply run_state_reads_own.
  assert (G : forall l P, run_state hs P ->
              (forall r, In r l -> exists f, r = make_record hs f) ->
              run_state hs (proto_after P l)).
  { induction l as [|r l IH]; intros P HP Hl; cbn [proto_after fold_left];
      [exact HP|].
    apply IH.
    - destruct (Hl r (or_introl eq_refl)) as [f ->].
      apply run_state_step; exact HP.
    - intros r' Hr'. apply Hl. right; exact Hr'. }
  apply G; [|exact Hpre].
  split; [intros k v []|]. left; reflexivity.
Qed.

(** Every record of the parser is built on the headers. *)
Lemma parse_rows_records hs n : forall text,
  length text <= n ->
  forall r, In r (parse_rows hs text) -> exists f, r = make_record hs f.
Proof.
  induction n as [|n IH]; intros [|c t] Hn r Hr; cbn [length] in Hn;
    try lia; try (rewrite parse_rows_nil in Hr; destruct Hr).
  rewrite parse_rows_cons in Hr.
  pose proof (readLineAsFields_rest c t) as L.
  destruct (readLineAsFields (c :: t)) as [fields rest]; cbn [snd] in L.
  destruct (_ && _); [destruct Hr|].
  destruct Hr as [<- | Hr]; [eauto|].
  apply (IH rest); [lia | exact Hr].
Qed.

Lemma parseCSVText_records text records :
  parseCSVText text = inr records ->
  exists hs, forall r, In r records -> exists f, r = make_record hs f.
Proof.
  unfold parseCSVText.
  destruct (readLineAsFields (skip_bom text)) as [hf rest].
  destruct (length hf =? 0); [discriminate|]. intros [= <-].
  exists (List.map trim hf). intros r Hr.
  eapply parse_rows_records; [apply le_n | exact Hr].
Qed.

(** ** Empty lines in a run *)

(** The record of an empty line has the header keys, each with the empty
    string as its value, and no other key. *)
Lemma empty_record_lookup headers k :
  (In k headers -> k <> PROTO -> lookup k (empty_record headers) = Some [])
  /\ (lookup k (empty_record headers) <> None -> In k headers).
Proof.
  pose proof (make_record_lookup k headers [[]]) as L.
  rewrite make_record_empty_line in L.
  pose proof (empty_record_all_empty headers) as E.
  split.
  - intros Hin Hne.
    destruct (lookup k (empty_record headers)) as [v|] eqn:Ev.
    + apply lookup_In in Ev. unfold all_empty in E.
      rewrite Forall_forall in E. apply E in Ev. cbn [snd] in Ev.
      subst v. reflexivity.
    + exfalso. destruct (proj1 L eq_refl); auto.
  - intros Hl.
    destruct (in_dec (list_eq_dec N.eq_dec) k headers) as [I | I];
      [exact I|].
    exfalso. apply Hl. apply L. left. exact I.
Qed.

(** C10: an empty line inside the input is not dropped.  When the text
    left to parse starts with an empty line after which more input
    follows, the parser stores for it a record that maps every header key
    to the empty string: each header is a key of the record and its value
    is the empty string (but for a header [__proto__], which no
    assignment makes a key of any record), the record has no other key,
    and all its values are empty.  In a run, whatever records [pre] of
    these headers have been mapped before, [mapRecordToDb] rejects that
    record with the 'Mandatory fields missing' error, and the import loop
    answers by printing the warning with the row number and going on with
    the next record, leaving batch and connection as they were. *)
Theorem C10_interior_empty_line_is_skipped
    (headers : list jstring) (text rest : jstring) (pre : list FlatRecord) :
  EmptyLine text rest -> rest <> [] ->
  (forall r, In r pre -> exists f, r = make_record headers f) ->
  let P := proto_after pristine pre in
  parse_rows headers text = empty_record headers :: parse_rows headers rest
  /\ (forall h, In h headers -> h <> PROTO ->
        lookup h (empty_record headers) = Some [])
  /\ (forall k, lookup k (empty_record headers) <> None -> In k headers)
  /\ all_empty (empty_record headers)
  /\ mapRecordToDb P (empty_record headers)
     = (inl (MandatoryMissing [] [] []), P)
  /\ is_validation_error (MandatoryMissing [] [] []) = true
  /\ forall insert_fails BATCH_SIZE records i st,
       Object_prototype st = P ->
       records_loop insert_fails BATCH_SIZE
         (empty_record headers :: records) i st
       = records_loop insert_fails BATCH_SIZE records (S i)
           {| batch := batch st; inserted := inserted st; conn := conn st;
              log := log st ++ [Skipping (i + 2) (MandatoryMissing [] [] [])];
              Object_prototype := P |}.
Proof.
  intros Hl Hne Hpre P.
  pose proof (empty_record_all_empty headers) as He.
  assert (Hr : reads_own P (empty_record headers)).
  { rewrite <- make_record_empty_line. apply reads_own_in_run. exact Hpre. }
  pose proof (mapRecordToDb_all_empty He Hr) as Hm.
  split; [|split; [|split; [|split; [|split; [|split]]]]]; auto.
  - destruct text as [|c t]; [inversion Hl|].
    rewrite parse_rows_cons, (readLineAsFields_empty_line Hl Hne).
    destruct rest; [congruence|].
    cbn [length Nat.eqb nth is_empty andb].
    rewrite make_record_empty_line. reflexivity.
  - intros h. apply empty_record_lookup.
  - intros k. apply empty_record_lookup.
  - intros insert_fails B records i st HP.
    cbn [records_loop]. rewrite HP, Hm. reflexivity.
Qed.

(** The header of the specification's scenario, and an empty line between
    two valid lines: the record of the first line has been mapped when the
    record of the empty line is. *)
Lemma C10_interior_empty_line_is_skipped_witness :
  let headers := [K_FIRST; K_LAST; K_AGE] in
  let pre := [make_record headers [js "A"; js "B"; js "30"]] in
  parse_rows headers (LF :: js "C,D,40")
  = empty_record headers :: parse_rows headers (js "C,D,40")
  /\ lookup K_AGE (empty_record headers) = Some []
  /\ mapRecordToDb (proto_after pristine pre) (empty_record headers)
     = (inl (MandatoryMissing [] [] []), proto_after pristine pre).
Proof.
  intros headers pre.
  assert (Hne : js "C,D,40" <> []) by discriminate.
  assert (Hpre : forall r, In r pre -> exists f, r = make_record headers f).
  { intros r [<- | []]. eexists. reflexivity. }
  pose proof (@C10_interior_empty_line_is_skipped
                headers _ _ pre (EmptyLine_LF (js "C,D,40")) Hne Hpre) as H.
  destruct H as (H1 & H2 & _ & _ & H5 & _).
  split; [exact H1|]. split; [|exact H5].
  apply H2; [simpl; auto | discriminate].
Defined.

(** ** The scenario of the specification *)

(** The loop hands [Object.prototype] from one record to the next. *)
Lemma records_loop_prototype insert_fails BATCH_SIZE records :
  forall i st st',
    records_loop insert_fails BATCH_SIZE records i st = inr st' ->
    Object_prototype st' = proto_after (Object_prototype st) records.
Proof.
  induction records as [|rec records IH]; intros i st st' H;
    cbn [records_loop proto_after fold_left] in *.
  - injection H as <-. reflexivity.
  - destruct (mapRecordToDb (Object_prototype st) rec) as [[err | d] P'];
      cbn [snd].
    + apply IH in H. exact H.
    + destruct (ge_BATCH_SIZE BATCH_SIZE _).
      * destruct (insertBatch _ _ _) as [c' [|]]; [|discriminate].
        apply IH in H. exact H.
      * apply IH in H. exact H.
Qed.

(** Row 3 is skipped for its missing first name, row 2 is stored with its
    address and without additional information, and the report counts one
    row between 20 and 40. *)
Example scenario_run :
  let r := importCsvFile never_fails (Int 1000) scenario (fresh_client [])
             pristine in
  result r = inr (Distribution 0 100 0 0)
  /\ printed r = [Starting; Parsing; Parsed 2;
                  Skipping 3 (MandatoryMissing [] (js "C") (js "40"));
                  InsertedFinal 1; Committed; ReportTitle;
                  ReportLine (js "< 20") 0; ReportLine (js "20 to 40") 100;
                  ReportLine (js "40 to 60") 0; ReportLine (js "> 60") 0]
  /\ table (db (final r))
     = [{| r_name := js "A B"; r_age := 30;
           r_address := Some [(js "city", VStr (js "X"))];
           r_additional_info := None |}]
  /\ sent (final r)
     = [BEGIN;
        INSERT [{| name := js "A B"; age := Int 30;
                   address := Some [(js "city", VStr (js "X"))];
                   additional_info := None |}];
        COMMIT; SELECT_COUNT; SELECT_BUCKETS].
Proof. vm_compute. repeat split. Qed.

(* ================================================================== *)
(** * Further properties of the code *)
(* ================================================================== *)

(** ** More on [trim] *)

Lemma trimStart_idem s : trimStart (trimStart s) = trimStart s.
Proof.
  apply trimStart_fixed.
  destruct (trimStart_split s) as (_ & _ & _ & H). exact H.
Qed.

Lemma trim_idem s : trim (trim s) = trim s.
Proof.
  unfold trim at 1. rewrite trimStart_trim. unfold trim, trimEnd.
  rewrite rev_involutive, trimStart_idem. reflexivity.
Qed.

Lemma trimStart_ws_app p s :
  forallb is_ws p = true -> trimStart (p ++ s) = trimStart s.
Proof.
  induction p as [|c p IH]; cbn [forallb app trimStart]; [reflexivity|].
  intros H. apply andb_true_iff in H as [-> H]. auto.
Qed.

Lemma trimStart_app s w :
  forallb is_ws w = true ->
  trimStart (s ++ w)
  = match trimStart s with [] => [] | _ :: _ => trimStart s ++ w end.
Proof.
  intros Hw. induction s as [|c s IH]; cbn [app trimStart].
  - apply trimStart_all_ws. exact Hw.
  - destruct (is_ws c); [exact IH | reflexivity].
Qed.

Lemma trimEnd_app_ws u w :
  forallb is_ws w = true -> trimEnd (u ++ w) = trimEnd u.
Proof.
  intros Hw. unfold trimEnd. rewrite rev_app_distr, trimStart_ws_app; auto.
  apply forallb_forall. intros x Hx. apply in_rev in Hx.
  rewrite forallb_forall in Hw. auto.
Qed.

(** White space at the end of a field does not reach the record. *)
Lemma trim_app_ws s w : forallb is_ws w = true -> trim (s ++ w) = trim s.
Proof.
  intros Hw. unfold trim. rewrite trimStart_app by exact Hw.
  destruct (trimStart s) as [|c t]; [reflexivity|].
  apply trimEnd_app_ws. exact Hw.
Qed.

(** ** The shape of the records *)

Lemma fill_trimmed headers fields : forall i rec,
  (forall h, In h headers -> trim h = h) ->
  (forall k v, In (k, v) rec -> trim k = k /\ trim v = v) ->
  forall k v, In (k, v) (fill headers fields i rec) ->
    trim k = k /\ trim v = v.
Proof.
  induction headers as [|h hs IH]; intros i rec Hh Hr k v; cbn [fill];
    [apply Hr|].
  apply IH; [intros; apply Hh; right; assumption|].
  intros k0 v0. unfold assign_string.
  destruct (eqb_str h PROTO); [apply Hr|].
  intros Hin. apply set_own_In in Hin as [[-> ->] | Hin]; [|auto].
  split; [apply Hh; left; reflexivity|].
  destruct (nth_error fields i); [apply trim_idem | apply trim_nil].
Qed.

Lemma parseCSVText_headers text records :
  parseCSVText text = inr records ->
  records = parse_rows (headers_of text)
              (snd (readLineAsFields (skip_bom text)))
  /\ headers_of text <> [].
Proof.
  unfold parseCSVText, headers_of.
  destruct (readLineAsFields (skip_bom text)) as [hf rest]; cbn [fst snd].
  destruct hf as [|h hf]; [discriminate|]. cbn [length Nat.eqb].
  intros [= <-]. split; [reflexivity | discriminate].
Qed.

(** X5: No key and no value of a record that [parseCSVText] returns begins
    or ends with white space: trimming it again changes nothing. *)
Theorem X5_parsed_records_are_trimmed (text : jstring)
    (records : list FlatRecord) (r : FlatRecord) (k v : jstring) :
  parseCSVText text = inr records ->
  In r records -> In (k, v) r ->
  trim k = k /\ trim v = v.
Proof.
  intros Hp Hr Hin. apply parseCSVText_headers in Hp as [-> _].
  destruct (@parse_rows_records (headers_of text) _ _ (le_n _) r Hr)
    as [f ->].
  unfold make_record in Hin. revert Hin. apply fill_trimmed.
  - unfold headers_of. intros h Hh. apply in_map_iff in Hh as (x & <- & _).
    apply trim_idem.
  - intros ? ? [].
Qed.

Lemma X5_parsed_records_are_trimmed_witness :
  trim (js "a") = js "a" /\ trim (js "x y") = js "x y".
Proof.
  apply (@X5_parsed_records_are_trimmed
           (js " a ,b" ++ LF :: js "  x y ,2")
           [[(js "a", js "x y"); (js "b", js "2")]]
           [(js "a", js "x y"); (js "b", js "2")]).
  - vm_compute. reflexivity.
  - simpl. left. reflexivity.
  - simpl. left. reflexivity.
Defined.

(** X4: Every record [parseCSVText] returns has exactly the trimmed header
    fields as keys, whatever the number of fields on its line, except that
    a header [__proto__] gives no key. *)
Theorem X4_parsed_records_have_the_header_keys (text : jstring)
    (records : list FlatRecord) (r : FlatRecord) (k : jstring) :
  parseCSVText text = inr records ->
  In r records ->
  (lookup k r <> None <-> In k (headers_of text) /\ k <> PROTO).
Proof.
  intros Hp Hr. apply parseCSVText_headers in Hp as [-> _].
  destruct (@parse_rows_records (headers_of text) _ _ (le_n _) r Hr)
    as [f ->].
  rewrite make_record_lookup.
  destruct (in_dec (list_eq_dec N.eq_dec) k (headers_of text));
    destruct (list_eq_dec N.eq_dec k PROTO); tauto.
Qed.

Lemma X4_parsed_records_have_the_header_keys_witness :
  (lookup (js "b") [(js "a", js "1"); (js "b", [])] <> None
   <-> In (js "b") (headers_of (js "a,b,__proto__" ++ LF :: js "1"))
       /\ js "b" <> PROTO)
  /\ (lookup PROTO [(js "a", js "1"); (js "b", [])] <> None
      <-> In PROTO (headers_of (js "a,b,__proto__" ++ LF :: js "1"))
          /\ PROTO <> PROTO).
Proof.
  split.
  - apply (@X4_parsed_records_have_the_header_keys
             (js "a,b,__proto__" ++ LF :: js "1")
             [[(js "a", js "1"); (js "b", [])]]
             [(js "a", js "1"); (js "b", [])] (js "b")).
    + vm_compute. reflexivity.
    + simpl. left. reflexivity.
  - apply (@X4_parsed_records_have_the_header_keys
             (js "a,b,__proto__" ++ LF :: js "1")
             [[(js "a", js "1"); (js "b", [])]]
             [(js "a", js "1"); (js "b", [])] PROTO).
    + vm_compute. reflexivity.
    + simpl. left. reflexivity.
Defined.

(** ** Which field goes to which key *)

Lemma fill_lookup_other h headers fields : forall i rec,
  ~ In h headers -> lookup h (fill headers fields i rec) = lookup h rec.
Proof.
  induction headers as [|h0 hs IH]; intros i rec Hn; cbn [fill];
    [reflexivity|].
  rewrite IH by (intros H; apply Hn; right; exact H).
  unfold assign_string. destruct (eqb_str h0 PROTO); [reflexivity|].
  rewrite lookup_set_own.
  destruct (eqb_str h h0) eqn:E; [|reflexivity].
  apply eqb_str_eq in E. subst h0. exfalso. apply Hn. left. reflexivity.
Qed.

Lemma fill_lookup_last h fields : forall headers j i rec,
  nth_error headers j = Some h -> h <> PROTO ->
  (forall j', j < j' -> nth_error headers j' <> Some h) ->
  lookup h (fill headers fields i rec) = Some (cell fields (i + j)).
Proof.
  induction headers as [|h0 hs IH]; intros j i rec Hj Hp Hlast.
  - destruct j; discriminate.
  - cbn [fill]. destruct j as [|j].
    + cbn [nth_error] in Hj. injection Hj as ->.
      rewrite fill_lookup_other.
      * unfold assign_string.
        apply eqb_str_neq in Hp. rewrite Hp, lookup_set_own, eqb_str_refl.
        rewrite Nat.add_0_r. reflexivity.
      * intros Hin. apply In_nth_error in Hin as [n Hn].
        apply (Hlast (S n)); [lia | exact Hn].
    + cbn [nth_error] in Hj.
      rewrite (IH j (S i)); [f_equal; f_equal; lia | exact Hj | exact Hp |].
      intros j' Hlt. apply (Hlast (S j')). lia.
Qed.

Lemma cell_pad n fields k : cell (pad n fields) k = cell fields k.
Proof.
  unfold cell, pad.
  destruct (Nat.lt_ge_cases k (length fields)) as [H | H].
  - rewrite nth_error_app1 by exact H. reflexivity.
  - rewrite nth_error_app2 by exact H.
    rewrite (proj2 (nth_error_None fields k) H).
    destruct (nth_error (repeat [] (n - length fields)) (k - length fields))
      as [x|] eqn:E; [|reflexivity].
    apply nth_error_In, repeat_spec in E. subst x. apply trim_nil.
Qed.

(** X3: The record of a line holds, under a header other than [__proto__],
    the trimmed field of the header's column, or the empty string when
    the line has no field in that column; of several columns with the same
    header the last one counts (this is the column [j] of the
    hypotheses).  Fields beyond the last header are not stored. *)
Theorem X3_record_value_is_the_trimmed_field (headers fields : list jstring)
    (j : nat) (h : jstring) :
  nth_error headers j = Some h -> h <> PROTO ->
  (forall j', j < j' -> nth_error headers j' <> Some h) ->
  lookup h (make_record headers fields) = Some (trim (nth j fields [])).
Proof.
  intros Hj Hp Hlast. unfold make_record.
  rewrite (@fill_lookup_last h _ _ j 0 [] Hj Hp Hlast), cell_pad.
  cbn [Nat.add]. unfold cell.
  destruct (nth_error fields j) as [f|] eqn:E.
  - rewrite (nth_error_nth _ _ _ E). reflexivity.
  - apply nth_error_None in E. rewrite nth_overflow by exact E.
    rewrite trim_nil. reflexivity.
Qed.

Lemma X3_record_value_is_the_trimmed_field_witness :
  lookup (js "b") (make_record [js "a"; js "b"; js "a"] [js "1"; js " 2 "])
  = Some (js "2")
  /\ lookup (js "a") (make_record [js "a"; js "b"; js "a"] [js "1"; js " 2 "])
     = Some [].
Proof.
  split.
  - apply (@X3_record_value_is_the_trimmed_field
             [js "a"; js "b"; js "a"] [js "1"; js " 2 "] 1 (js "b")).
    + reflexivity.
    + discriminate.
    + intros [|[|[|[|j']]]] H; try lia; discriminate.
  - apply (@X3_record_value_is_the_trimmed_field
             [js "a"; js "b"; js "a"] [js "1"; js " 2 "] 2 (js "a")).
    + reflexivity.
    + discriminate.
    + intros [|[|[|[|j']]]] H; try lia; discriminate.
Defined.

Lemma fill_ext headers f1 f2 :
  (forall k, cell f1 k = cell f2 k) ->
  forall i rec, fill headers f1 i rec = fill headers f2 i rec.
Proof.
  intros H. induction headers as [|h hs IH]; intros i rec; cbn [fill];
    [reflexivity|].
  specialize (H i). unfold cell in H. rewrite H. apply IH.
Qed.

(** A record depends on the fields of its line through their trimmed
    values only, a missing field counting as an empty one. *)
Lemma make_record_cells headers f1 f2 :
  (forall k, cell f1 k = cell f2 k) ->
  make_record headers f1 = make_record headers f2.
Proof.
  intros H. unfold make_record. apply fill_ext.
  intros k. rewrite !cell_pad. apply H.
Qed.

Lemma cell_snoc l x y k :
  trim x = trim y -> cell (l ++ [x]) k = cell (l ++ [y]) k.
Proof.
  intros H. unfold cell.
  destruct (Nat.lt_ge_cases k (length l)) as [L | L].
  - rewrite !nth_error_app1 by exact L. reflexivity.
  - rewrite !nth_error_app2 by exact L.
    destruct (k - length l) as [|m]; cbn [nth_error]; [exact H|].
    destruct m; reflexivity.
Qed.

Lemma cell_snoc_empty l x k : trim x = [] -> cell (l ++ [x]) k = cell l k.
Proof.
  intros H. unfold cell.
  destruct (Nat.lt_ge_cases k (length l)) as [L | L].
  - rewrite !nth_error_app1 by exact L. reflexivity.
  - rewrite !nth_error_app2 by exact L.
    rewrite (proj2 (nth_error_None l k) L).
    destruct (k - length l) as [|m]; cbn [nth_error]; [exact H|].
    destruct m; reflexivity.
Qed.

(** ** The test of line 78 *)

Lemma readLineAsFields_not_single_empty text :
  readLineAsFields text <> ([[]], []).
Proof.
  unfold readLineAsFields, finish_line.
  destruct (scan text [] [] false) as [[f c] r].
  destruct r as [|x r]; [|intros [= _ ?]; discriminate].
  destruct c as [|y c]; cbn [is_empty negb orb].
  - destruct f as [|f0 f]; cbn [length Nat.ltb Nat.leb];
      [discriminate|].
    change (0 <? S (length f)) with true. cbv iota.
    intros [= E]. destruct f; discriminate.
  - intros [= E]. destruct f as [|f0 f]; [discriminate|].
    destruct f; discriminate.
Qed.

(** The loop of lines 76-83 without the test of line 78, which cannot
    hold. *)
Lemma parse_rows_step headers c t :
  parse_rows headers (c :: t)
  = make_record headers (fst (readLineAsFields (c :: t)))
    :: parse_rows headers (snd (readLineAsFields (c :: t))).
Proof.
  rewrite parse_rows_cons.
  pose proof (readLineAsFields_not_single_empty (c :: t)) as H.
  destruct (readLineAsFields (c :: t)) as [fields rest]; cbn [fst snd].
  destruct ((length fields =? 1) && is_empty (nth 0 fields [])
            && is_empty rest) eqn:E; [|reflexivity].
  exfalso. apply H.
  apply andb_true_iff in E as [E E3]. apply andb_true_iff in E as [E1 E2].
  apply is_empty_true in E3. subst rest.
  destruct fields as [|f0 [|f1 fs]]; try discriminate.
  cbn [nth] in E2. apply is_empty_true in E2. subst f0. reflexivity.
Qed.

(** X7: The test of line 78 never holds: on no text does [readLineAsFields]
    return the single field [''] together with the end of the text.  So
    every line read from a non-empty text is stored as a record, and the
    loop goes on with the text after it. *)
Theorem X7_every_line_read_gives_a_record (headers : list jstring)
    (text : jstring) :
  readLineAsFields text <> ([[]], [])
  /\ (text <> [] ->
      parse_rows headers text
      = make_record headers (fst (readLineAsFields text))
        :: parse_rows headers (snd (readLineAsFields text))).
Proof.
  split; [apply readLineAsFields_not_single_empty|].
  destruct text as [|c t]; [congruence|]. intros _. apply parse_rows_step.
Qed.

Lemma X7_every_line_read_gives_a_record_witness :
  readLineAsFields [LF] <> ([[]], [])
  /\ parse_rows [js "a"] [LF]
     = make_record [js "a"] (fst (readLineAsFields [LF]))
       :: parse_rows [js "a"] (snd (readLineAsFields [LF])).
Proof.
  split.
  - exact (proj1 (@X7_every_line_read_gives_a_record [js "a"] [LF])).
  - apply (proj2 (@X7_every_line_read_gives_a_record [js "a"] [LF])).
    discriminate.
Defined.

(** ** Lines without quotes *)

Lemma glue_nil ps : ps <> [] -> glue [] ps = ps.
Proof. destruct ps; [congruence | reflexivity]. Qed.

Lemma scan_plain_line w : forall t f c,
  plain_line w = true ->
  scan (w ++ t) f c false
  = scan t (f ++ removelast (glue c (split COMMA w)))
         (last (glue c (split COMMA w)) []) false.
Proof.
  induction w as [|x w IH]; intros t f c Hw.
  - cbn [app split glue removelast last]. rewrite !app_nil_r. reflexivity.
  - cbn [plain_line forallb] in Hw. apply andb_true_iff in Hw as [Hx Hw].
    apply negb_true_iff in Hx. rewrite !orb_false_iff in Hx.
    destruct Hx as [[Hq Hl] Hr].
    cbn [app]. rewrite scan_cons, Hq, Hl, Hr. cbn [negb andb orb].
    cbn [split].
    pose proof (@split_not_nil COMMA w) as Hs.
    destruct (N.eqb x COMMA) eqn:Hc.
    + rewrite IH by exact Hw. rewrite glue_nil by exact Hs.
      cbn [glue]. rewrite app_nil_r.
      destruct (split COMMA w) as [|p ps] eqn:Es; [congruence|].
      cbn [removelast last]. rewrite <- app_assoc. reflexivity.
    + rewrite IH by exact Hw.
      destruct (split COMMA w) as [|p ps] eqn:Es; [congruence|].
      cbn [glue]. rewrite <- app_assoc. reflexivity.
Qed.

Lemma split_single_nil sep s : split sep s = [[]] -> s = [].
Proof.
  destruct s as [|c s]; [reflexivity|]. cbn [split].
  pose proof (@split_not_nil sep s) as Hs.
  destruct (N.eqb c sep).
  - intros [= E]. congruence.
  - destruct (split sep s); [congruence | discriminate].
Qed.

Lemma readLineAsFields_plain (w : jstring) :
  plain_line w = true ->
  (forall t rest, EmptyLine t rest ->
     readLineAsFields (w ++ t)
     = (split COMMA w ++ (if is_empty rest then [[]] else []), rest))
  /\ (w <> [] -> readLineAsFields w = (split COMMA w, [])).
Proof.
  intros Hw.
  pose proof (@split_not_nil COMMA w) as Hs.
  assert (G : glue [] (split COMMA w) = split COMMA w)
    by (apply glue_nil; exact Hs).
  split.
  - intros t rest Ht. unfold readLineAsFields.
    rewrite scan_plain_line by exact Hw. rewrite G. cbn [app].
    assert (E : forall f c, scan t f c false = (f ++ [c], [], rest)).
    { intros f c. destruct Ht as [rest | rest | rest Hn].
      - rewrite scan_cons. cbn. destruct rest; reflexivity.
      - reflexivity.
      - rewrite scan_cons. cbn.
        destruct rest as [|c2 rest]; [reflexivity|].
        destruct (N.eqb c2 LF) eqn:E2; [|reflexivity].
        apply N.eqb_eq in E2. contradiction. }
    rewrite E, <- app_removelast_last by exact Hs.
    unfold finish_line. destruct rest as [|c2 rest]; cbn [is_empty].
    + cbn [negb orb]. destruct (split COMMA w); [congruence|].
      reflexivity.
    + rewrite app_nil_r. reflexivity.
  - intros Hne. unfold readLineAsFields.
    rewrite <- (app_nil_r w) at 1.
    rewrite scan_plain_line by exact Hw. rewrite G. cbn [app scan].
    unfold finish_line.
    destruct (negb (is_empty (last (split COMMA w) []))
              || (0 <? length (removelast (split COMMA w)))) eqn:E.
    + rewrite <- app_removelast_last by exact Hs. reflexivity.
    + exfalso. apply orb_false_iff in E as [E1 E2].
      apply negb_false_iff, is_empty_true in E1.
      destruct (removelast (split COMMA w)) as [|? ?] eqn:E3;
        [|discriminate].
      apply Hne. apply (@split_single_nil COMMA).
      rewrite (app_removelast_last [] Hs), E3, E1. reflexivity.
Qed.

(** X2: On a line [w] without quote characters, [readLineAsFields] returns the
    pieces between the commas of the line, and leaves the text after the
    line break, be it a line feed, a carriage return followed by a line
    feed, or a carriage return alone; when that line break ends the input,
    one more, empty, field is returned.  On a last line that is not empty
    and has no line break it returns the pieces and the empty text. *)
Theorem X2_plain_line_fields (w : jstring) :
  plain_line w = true ->
  (forall t rest, EmptyLine t rest ->
     readLineAsFields (w ++ t)
     = (split COMMA w ++ (if is_empty rest then [[]] else []), rest))
  /\ (w <> [] -> readLineAsFields w = (split COMMA w, [])).
Proof. apply readLineAsFields_plain. Qed.

Lemma X2_plain_line_fields_witness :
  readLineAsFields (js "a,,b c" ++ CR :: LF :: js "x")
  = ([js "a"; []; js "b c"], js "x")
  /\ readLineAsFields (js "a,") = ([js "a"; []], []).
Proof.
  split.
  - exact (proj1 (@X2_plain_line_fields (js "a,,b c") eq_refl)
             _ _ (EmptyLine_CRLF (js "x"))).
  - apply (proj2 (@X2_plain_line_fields (js "a,") eq_refl)). discriminate.
Defined.

(** ** A line break at the end of the input *)

Lemma LineBreak_scan nl f c :
  LineBreak nl ->
  scan nl f c false = (f ++ [c], [], [])
  /\ scan nl f c true = (f, c ++ nl, []).
Proof.
  intros [| |]; (split; [reflexivity|]); cbn [scan]; cbn;
    rewrite <- ?app_assoc; reflexivity.
Qed.

Lemma LineBreak_ws nl : LineBreak nl -> forallb is_ws nl = true.
Proof. intros [| |]; reflexivity. Qed.

Lemma LineBreak_head nl :
  LineBreak nl -> exists n0 nl', nl = n0 :: nl' /\ N.eqb n0 DQUOTE = false.
Proof. intros [| |]; eexists; eexists; split; reflexivity. Qed.

Lemma ends_in_break_cons x y t :
  ends_in_break (x :: y :: t) = ends_in_break (y :: t).
Proof. reflexivity. Qed.


(** The reader on a text followed by one more line break: either it stops
    inside the text as before, or it reaches the added line break, which
    ends the field being read or, inside quotes, is added to it. *)
Lemma scan_app_break nl : LineBreak nl -> forall n t f c q,
  length t <= n -> ends_in_break t = false ->
  let r1 := scan t f c q in
  let r2 := scan (t ++ nl) f c q in
  (scan_rest r1 <> [] /\ ends_in_break (scan_rest r1) = false
   /\ length (scan_rest r1) <= length t
   /\ r2 = (scan_fields r1, scan_cur r1, scan_rest r1 ++ nl))
  \/ (scan_rest r1 = [] /\ scan_rest r2 = []
      /\ ((scan_fields r2 = scan_fields r1 ++ [scan_cur r1]
           /\ scan_cur r2 = [])
          \/ (scan_fields r2 = scan_fields r1
              /\ scan_cur r2 = scan_cur r1 ++ nl))).
Proof.
  intros Hnl. cbv zeta.
  destruct (LineBreak_head Hnl) as (n0 & nl' & Enl & Hq0).
  induction n as [|n IH]; intros [|ch t] f c q Hn He;
    cbn [length] in Hn; try lia.
  - right. cbn [app scan fst snd].
    destruct (LineBreak_scan f c Hnl) as [S0 S1].
    destruct q; [rewrite S1 | rewrite S0]; cbn [fst snd]; auto.
  - right. cbn [app scan fst snd].
    destruct (LineBreak_scan f c Hnl) as [S0 S1].
    destruct q; [rewrite S1 | rewrite S0]; cbn [fst snd]; auto.
  - assert (Ht : length t <= n) by lia.
    assert (Het : ends_in_break t = false).
    { destruct t as [|y t]; [reflexivity|].
      rewrite ends_in_break_cons in He. exact He. }
    assert (Step : forall f' c' q',
      let r1 := scan t f' c' q' in
      let r2 := scan (t ++ nl) f' c' q' in
      (scan_rest r1 <> [] /\ ends_in_break (scan_rest r1) = false
       /\ length (scan_rest r1) <= length (ch :: t)
       /\ r2 = (scan_fields r1, scan_cur r1, scan_rest r1 ++ nl))
      \/ (scan_rest r1 = [] /\ scan_rest r2 = []
          /\ ((scan_fields r2 = scan_fields r1 ++ [scan_cur r1]
               /\ scan_cur r2 = [])
              \/ (scan_fields r2 = scan_fields r1
                  /\ scan_cur r2 = scan_cur r1 ++ nl)))).
    { intros f' c' q'. cbv zeta.
      destruct (IH t f' c' q' Ht Het) as [(A & B & C & D) | H];
        [left | right; exact H].
      repeat split; auto. cbn [length]. lia. }
    cbv zeta in Step.
    cbn [app]. rewrite !scan_cons.
    destruct (N.eqb ch DQUOTE) eqn:Hq.
    + destruct t as [|c2 t2].
      * cbn [app]. rewrite Enl, Hq0, andb_false_r. rewrite <- Enl.
        apply (Step f c (negb q)).
      * cbn [app]. destruct (q && N.eqb c2 DQUOTE).
        -- assert (Ht2 : length t2 <= n) by (cbn [length] in Ht; lia).
           assert (Het2 : ends_in_break t2 = false).
           { destruct t2 as [|y t2]; [reflexivity|].
             rewrite ends_in_break_cons in Het. exact Het. }
           destruct (IH t2 f (c ++ [DQUOTE]) q Ht2 Het2)
             as [(A & B & C & D) | H]; [left | right; exact H].
           repeat split; auto. cbn [length]. lia.
        -- apply (Step f c (negb q)).
    + destruct (negb q && N.eqb ch COMMA).
      * apply (Step (f ++ [c]) [] q).
      * destruct (negb q && (N.eqb ch LF || N.eqb ch CR)) eqn:Hb.
        -- apply andb_true_iff in Hb as [_ Hb].
           left. cbn [fst snd].
           destruct t as [|c2 t2].
           ++ unfold ends_in_break in He. cbn [last] in He. congruence.
           ++ cbn [app].
              destruct (N.eqb ch CR && N.eqb c2 LF) eqn:Hcl.
              ** apply andb_true_iff in Hcl as [_ Hc2].
                 destruct t2 as [|c3 t3].
                 --- unfold ends_in_break in Het. cbn [last] in Het.
                     rewrite Hc2 in Het. discriminate.
                 --- repeat split; [discriminate | | cbn [length]; lia].
                     rewrite ends_in_break_cons in Het. exact Het.
              ** repeat split; [discriminate | exact Het |].
                 cbn [length]. lia.
        -- apply (Step f (c ++ [ch]) q).
Qed.

Lemma readLineAsFields_app_break nl t :
  LineBreak nl -> ends_in_break t = false ->
  let r1 := readLineAsFields t in
  let r2 := readLineAsFields (t ++ nl) in
  (snd r1 <> [] /\ ends_in_break (snd r1) = false
   /\ length (snd r1) <= length t
   /\ r2 = (fst r1, snd r1 ++ nl))
  \/ (snd r1 = [] /\ snd r2 = [] /\ fst r2 <> []
      /\ forall k, cell (fst r2) k = cell (fst r1) k).
Proof.
  intros Hnl He. cbv zeta. unfold readLineAsFields.
  pose proof (@scan_app_break nl Hnl (length t) t [] [] false (le_n _) He)
    as H. cbv zeta in H.
  pose proof (trim_all_ws _ (LineBreak_ws Hnl)) as Tnl.
  destruct (LineBreak_head Hnl) as (n0 & nl' & Enl & _).
  destruct (scan t [] [] false) as [[f1 c1] r1].
  destruct (scan (t ++ nl) [] [] false) as [[f2 c2] r2].
  cbn [fst snd] in H.
  destruct H as [(A & B & C & D) | (A & B & D)].
  - left. injection D as -> -> ->. unfold finish_line.
    destruct r1 as [|x r1]; [congruence|]. cbn [app fst snd].
    repeat split; auto.
  - right. subst r1 r2. unfold finish_line.
    destruct D as [[-> ->] | [-> ->]].
    + cbn [is_empty negb orb]. rewrite length_app. cbn [length].
      replace (0 <? length f1 + 1) with true
        by (symmetry; apply Nat.ltb_lt; lia).
      destruct (negb (is_empty c1) || (0 <? length f1)) eqn:E;
        cbn [fst snd].
      * repeat split; auto.
        -- destruct f1; discriminate.
        -- intros k. apply cell_snoc_empty, trim_nil.
      * apply orb_false_iff in E as [E1 E2].
        apply negb_false_iff, is_empty_true in E1. subst c1.
        destruct f1 as [|? ?]; [|discriminate].
        repeat split; auto; [discriminate|].
        intros k. cbn [app]. unfold cell.
        destruct k as [|[|k]]; cbn [nth_error]; try apply trim_nil.
        destruct k; reflexivity.
    + assert (N : is_empty (c1 ++ nl) = false).
      { rewrite Enl. destruct c1; reflexivity. }
      rewrite N. cbn [negb orb fst snd].
      destruct (negb (is_empty c1) || (0 <? length f1)) eqn:E;
        cbn [fst snd].
      * repeat split; auto.
        -- destruct f1; discriminate.
        -- intros k. apply cell_snoc.
           apply trim_app_ws, LineBreak_ws, Hnl.
      * apply orb_false_iff in E as [E1 E2].
        apply negb_false_iff, is_empty_true in E1. subst c1.
        destruct f1 as [|? ?]; [|discriminate].
        repeat split; auto; [discriminate|].
        intros k. cbn [app]. unfold cell.
        destruct k as [|k]; cbn [nth_error]; [exact Tnl|].
        destruct k; reflexivity.
Qed.

Lemma parse_rows_app_break headers nl : LineBreak nl -> forall n t,
  length t <= n -> t <> [] -> ends_in_break t = false ->
  parse_rows headers (t ++ nl) = parse_rows headers t.
Proof.
  intros Hnl. induction n as [|n IH]; intros [|c t] Hn Hne He;
    cbn [length] in Hn; try lia; try congruence.
  pose proof (@readLineAsFields_app_break nl (c :: t) Hnl He) as H.
  cbv zeta in H.
  pose proof (readLineAsFields_rest c t) as L.
  change ((c :: t) ++ nl) with (c :: (t ++ nl)) in *.
  rewrite !parse_rows_step.
  destruct (readLineAsFields (c :: t)) as [f1 r1].
  destruct (readLineAsFields (c :: t ++ nl)) as [f2 r2].
  cbn [fst snd] in *.
  destruct H as [(A & B & C & D) | (A & B & C & D)].
  - injection D as -> ->. f_equal. apply IH; [lia | exact A | exact B].
  - subst r1 r2. rewrite !parse_rows_nil. f_equal.
    apply make_record_cells. exact D.
Qed.

(** X6: One line break (a line feed, a carriage return, or both) added to an
    input that has a header and does not end with a line feed or a
    carriage return changes nothing: [parseCSVText] returns the same
    records, in particular no record for the added line end, also when the
    input ends inside an open quote. *)
Theorem X6_final_line_break_is_optional (text nl : jstring) :
  LineBreak nl ->
  ends_in_break text = false ->
  parseCSVText text <> inl NoHeaders ->
  parseCSVText (text ++ nl) = parseCSVText text.
Proof.
  intros Hnl He Hp.
  assert (Hs : skip_bom (text ++ nl) = skip_bom text ++ nl
               /\ ends_in_break (skip_bom text) = false).
  { destruct text as [|c t].
    - exfalso. apply Hp. reflexivity.
    - cbn [app skip_bom]. destruct (N.eqb c BOM); [|auto].
      split; [reflexivity|].
      destruct t as [|y t]; [reflexivity|].
      rewrite ends_in_break_cons in He. exact He. }
  destruct Hs as [Hs He'].
  rewrite parseCSVText_fails in Hp.
  unfold parseCSVText. rewrite Hs.
  pose proof (@readLineAsFields_app_break nl (skip_bom text) Hnl He') as H.
  cbv zeta in H.
  destruct (readLineAsFields (skip_bom text)) as [f1 r1].
  destruct (readLineAsFields (skip_bom text ++ nl)) as [f2 r2].
  cbn [fst snd] in *.
  destruct H as [(A & B & C & D) | (A & B & C & D)].
  - injection D as -> ->.
    destruct (length f1 =? 0); [reflexivity|]. f_equal.
    apply (@parse_rows_app_break _ nl Hnl (length r1)); auto.
  - subst r1 r2. rewrite !parse_rows_nil.
    destruct f1 as [|? ?]; [congruence|].
    destruct f2 as [|? ?]; [congruence|]. reflexivity.
Qed.

Lemma X6_final_line_break_is_optional_witness :
  parseCSVText (js "a,b" ++ LF :: js "1,2" ++ [CR; LF])
  = parseCSVText (js "a,b" ++ LF :: js "1,2").
Proof.
  apply (@X6_final_line_break_is_optional (js "a,b" ++ LF :: js "1,2")
           [CR; LF] LineBreak_CRLF).
  - reflexivity.
  - vm_compute. discriminate.
Defined.

(** X9: The loop of lines 76-83 ends: since every call of [readLineAsFields]
    consumes at least one character, as many iterations as the text has
    characters (or any larger number) are enough for the loop to return
    its rows. *)
Theorem X9_parser_loop_terminates (headers : list jstring) (text : jstring)
    (fuel : nat) :
  length text <= fuel ->
  rows_loop fuel headers text = Some (parse_rows headers text).
Proof.
  intros H. unfold parse_rows.
  rewrite (@rows_loop_fuel headers (length text) text fuel (length text))
    by lia.
  pose proof (@rows_loop_total headers (length text) text (length text)
                (le_n _) (le_n _)) as T.
  destruct (rows_loop (length text) headers text); [reflexivity|].
  exfalso. apply T. reflexivity.
Qed.

Lemma X9_parser_loop_terminates_witness :
  rows_loop 9 [js "a"] (js "1" ++ LF :: js "2")
  = Some (parse_rows [js "a"] (js "1" ++ LF :: js "2")).
Proof.
  apply (@X9_parser_loop_terminates [js "a"] (js "1" ++ LF :: js "2") 9).
  simpl. lia.
Defined.

(** ** An input without quotes, line by line *)

Lemma join_cons sep x y l :
  join sep (x :: y :: l) = x ++ sep ++ join sep (y :: l).
Proof. reflexivity. Qed.

Lemma join_not_nil sep l : last l [] <> [] -> join sep l <> [].
Proof.
  induction l as [|x l IH]; [cbn; congruence|].
  destruct l as [|y l]; [cbn; auto|].
  rewrite join_cons. intros H E.
  apply app_eq_nil in E as [_ E]. apply app_eq_nil in E as [_ E].
  revert E. apply IH. exact H.
Qed.

Lemma parse_rows_plain_lines headers lines :
  Forall (fun w => plain_line w = true) lines ->
  last lines [] <> [] ->
  parse_rows headers (join [LF] lines)
  = List.map (fun w => make_record headers (split COMMA w)) lines.
Proof.
  induction lines as [|w lines IH]; intros Hp Hl; [cbn in Hl; congruence|].
  inversion Hp as [|? ? Hw Hp']; subst.
  destruct (@readLineAsFields_plain w Hw) as [R1 R2].
  destruct lines as [|w2 lines].
  - cbn [join List.map last] in *.
    destruct w as [|c t]; [congruence|].
    rewrite parse_rows_step, R2 by discriminate. cbn [fst snd].
    rewrite parse_rows_nil. reflexivity.
  - rewrite join_cons. cbn [List.map].
    change (last (w :: w2 :: lines) []) with (last (w2 :: lines) []) in Hl.
    pose proof (@join_not_nil [LF] (w2 :: lines) Hl) as Hn.
    specialize (R1 _ _ (EmptyLine_LF (join [LF] (w2 :: lines)))).
    cbn [app].
    destruct (w ++ LF :: join [LF] (w2 :: lines)) as [|c t] eqn:E;
      [destruct w; discriminate|].
    rewrite parse_rows_step, R1. cbn [fst snd].
    destruct (join [LF] (w2 :: lines)) as [|c2 t2] eqn:E2; [congruence|].
    cbn [is_empty]. rewrite app_nil_r. f_equal.
    apply IH; assumption.
Qed.

(** X1: An input without quote characters is parsed line by line.  Let the
    header line [h] and the data lines [lines] contain neither a quote
    character nor a line break, let the text be these lines joined by line
    feeds, the header not starting with a byte order mark and the last line
    not being empty.  Then [parseCSVText] returns one record for each data
    line, in order (a data line that is empty included): the record built
    on the trimmed pieces between the commas of the header from the pieces
    between the commas of that line. *)
Theorem X1_plain_input_parses_line_by_line (h : jstring)
    (lines : list jstring) :
  Forall (fun w => plain_line w = true) (h :: lines) ->
  skip_bom h = h ->
  last (h :: lines) [] <> [] ->
  parseCSVText (join [LF] (h :: lines))
  = inr (List.map
           (fun w => make_record (List.map trim (split COMMA h))
                       (split COMMA w))
           lines).
Proof.
  intros Hp Hb Hl. inversion Hp as [|? ? Hh Hp']; subst.
  destruct (@readLineAsFields_plain h Hh) as [R1 R2].
  pose proof (@split_not_nil COMMA h) as Hs.
  unfold parseCSVText.
  destruct lines as [|w lines].
  - cbn [join last List.map] in *. rewrite Hb, R2 by exact Hl.
    destruct (split COMMA h); [congruence | reflexivity].
  - rewrite join_cons.
    change (last (h :: w :: lines) []) with (last (w :: lines) []) in Hl.
    pose proof (@join_not_nil [LF] (w :: lines) Hl) as Hn.
    assert (B : skip_bom (h ++ [LF] ++ join [LF] (w :: lines))
                = h ++ [LF] ++ join [LF] (w :: lines)).
    { destruct h as [|c t]; [reflexivity|].
      cbn [app skip_bom] in *. destruct (N.eqb c BOM); [|reflexivity].
      exfalso. apply (f_equal (@length N)) in Hb. cbn [length] in Hb.
      lia. }
    rewrite B. cbn [app].
    rewrite (R1 _ _ (EmptyLine_LF (join [LF] (w :: lines)))).
    destruct (join [LF] (w :: lines)) as [|c2 t2] eqn:E2; [congruence|].
    cbn [is_empty]. rewrite app_nil_r.
    destruct (split COMMA h) as [|p ps] eqn:Es; [congruence|].
    cbn [length Nat.eqb]. f_equal. rewrite <- E2.
    apply parse_rows_plain_lines; assumption.
Qed.

Lemma X1_plain_input_parses_line_by_line_witness :
  parseCSVText (join [LF] [js "a, b"; js "1,2"; []; js "3"])
  = inr [make_record [js "a"; js "b"] [js "1"; js "2"];
         make_record [js "a"; js "b"] [[]];
         make_record [js "a"; js "b"] [js "3"]].
Proof.
  apply (@X1_plain_input_parses_line_by_line (js "a, b")
           [js "1,2"; []; js "3"]).
  - repeat constructor.
  - reflexivity.
  - simpl. discriminate.
Defined.

(** ** An unterminated quote *)

(** X8: A quote that is never closed is closed by the end of the input.  When
    the text after an opening quote has no further quote character,
    [readLineAsFields] returns it as one field, commas and line breaks
    included (no field at all when it is empty), which is what it returns
    when the closing quote is there. *)
Theorem X8_unterminated_quote_is_closed_by_the_end (w : jstring) :
  quote_free w = true ->
  readLineAsFields (DQUOTE :: w)
  = (match w with [] => [] | _ :: _ => [w] end, [])
  /\ readLineAsFields (DQUOTE :: w)
     = readLineAsFields (DQUOTE :: w ++ [DQUOTE]).
Proof.
  intros Hw.
  assert (E : readLineAsFields (DQUOTE :: w)
              = (match w with [] => [] | _ :: _ => [w] end, [])).
  { rewrite readLineAsFields_eq, scan_open.
    rewrite <- (app_nil_r w) at 1. rewrite scan_quoted by exact Hw.
    cbn [scan app]. destruct w; reflexivity. }
  split; [exact E|].
  rewrite E, readLineAsFields_quoted_last by exact Hw. reflexivity.
Qed.

Lemma X8_unterminated_quote_is_closed_by_the_end_witness :
  readLineAsFields (DQUOTE :: js "a,b" ++ LF :: js "c")
  = ([js "a,b" ++ LF :: js "c"], [])
  /\ readLineAsFields (DQUOTE :: js "a,b" ++ LF :: js "c")
     = readLineAsFields (DQUOTE :: (js "a,b" ++ LF :: js "c") ++ [DQUOTE]).
Proof.
  exact (@X8_unterminated_quote_is_closed_by_the_end
           (js "a,b" ++ LF :: js "c") eq_refl).
Defined.

(** ** Numbers and their numerals *)

Lemma is_digit_bounds c : is_digit c = true <-> (48 <= c <= 57)%N.
Proof.
  unfold is_digit. rewrite andb_true_iff, !N.leb_le. tauto.
Qed.

Lemma is_digit_not_ws c : is_digit c = true -> is_ws c = false.
Proof.
  rewrite is_digit_bounds. intros H. apply not_true_is_false. unfold is_ws.
  rewrite !orb_true_iff, !andb_true_iff, !N.leb_le, !N.eqb_eq. lia.
Qed.

Lemma is_digit_not_sign c :
  is_digit c = true -> N.eqb c MINUS = false /\ N.eqb c PLUS = false.
Proof.
  rewrite is_digit_bounds. intros H. unfold MINUS, PLUS.
  split; apply N.eqb_neq; lia.
Qed.

Lemma digit_char n :
  (0 <= n < 10)%Z ->
  is_digit (Z.to_N (48 + n)) = true /\ digit_val (Z.to_N (48 + n)) = n.
Proof.
  intros H. split.
  - apply is_digit_bounds. lia.
  - unfold digit_val. lia.
Qed.

Lemma decimal_digits_S f n acc :
  decimal_digits (S f) n acc
  = if (n <? 10)%Z then Z.to_N (48 + n mod 10) :: acc
    else decimal_digits f (n / 10) (Z.to_N (48 + n mod 10) :: acc).
Proof. reflexivity. Qed.

Lemma digits_decimal_digits : forall f n acc seen,
  (0 <= n < 2 ^ Z.of_nat (S f))%Z ->
  digits (decimal_digits (S f) n acc) 0 seen = digits acc n true.
Proof.
  induction f as [|f IH]; intros n acc seen Hn.
  - cbn [decimal_digits].
    assert (Hm : (0 <= n mod 10 < 10)%Z) by (apply Z.mod_pos_bound; lia).
    destruct (digit_char Hm) as [D V].
    change (2 ^ Z.of_nat 1)%Z with 2%Z in Hn.
    replace (n <? 10)%Z with true by (symmetry; apply Z.ltb_lt; lia).
    cbn [digits]. rewrite D, V. f_equal. rewrite Z.mod_small; lia.
  - rewrite decimal_digits_S.
    assert (Hm : (0 <= n mod 10 < 10)%Z) by (apply Z.mod_pos_bound; lia).
    destruct (digit_char Hm) as [D V].
    destruct (Z.ltb_spec n 10) as [L | L].
    + cbn [digits]. rewrite D, V. f_equal. rewrite Z.mod_small; lia.
    + rewrite IH.
      * cbn [digits]. rewrite D, V. f_equal.
        pose proof (Z.div_mod n 10). lia.
      * split; [apply Z.div_pos; lia|].
        apply Z.div_lt_upper_bound; [lia|].
        rewrite (Nat2Z.inj_succ (S f)), Z.pow_succ_r in Hn by lia. lia.
Qed.

Lemma decimal_digits_head : forall f n acc,
  (0 <= n)%Z ->
  exists c rest, decimal_digits (S f) n acc = c :: rest
                 /\ is_digit c = true.
Proof.
  induction f as [|f IH]; intros n acc Hn.
  - assert (Hm : (0 <= n mod 10 < 10)%Z) by (apply Z.mod_pos_bound; lia).
    destruct (digit_char Hm) as [D _].
    cbn [decimal_digits]. destruct (n <? 10)%Z; eauto.
  - assert (Hm : (0 <= n mod 10 < 10)%Z) by (apply Z.mod_pos_bound; lia).
    destruct (digit_char Hm) as [D _].
    rewrite decimal_digits_S. destruct (n <? 10)%Z; [eauto|].
    apply IH. apply Z.div_pos; lia.
Qed.

Lemma mathInt_decimal z : mathInt (decimal z) = Some z.
Proof.
  unfold decimal.
  set (a := Z.abs z).
  assert (Ha : (0 <= a)%Z) by (unfold a; lia).
  assert (Hf : (0 <= a < 2 ^ Z.of_nat (S (Z.to_nat (Z.log2 a))))%Z).
  { split; [exact Ha|].
    rewrite Nat2Z.inj_succ, Z2Nat.id by apply Z.log2_nonneg.
    destruct (Z.eq_dec a 0) as [-> | Hne]; [reflexivity|].
    apply Z.log2_spec. lia. }
  destruct (@decimal_digits_head (Z.to_nat (Z.log2 a)) a [] Ha)
    as (c & rest & E & D).
  pose proof (@digits_decimal_digits _ _ [] false Hf) as G.
  cbn [digits] in G.
  destruct (is_digit_not_sign _ D) as [S1 S2].
  pose proof (is_digit_not_ws _ D) as W.
  unfold mathInt.
  destruct (Z.ltb_spec z 0) as [L | L].
  - cbn [trimStart]. change (is_ws MINUS) with false. cbv iota.
    change (N.eqb MINUS MINUS) with true. cbv iota.
    rewrite G. f_equal. unfold a. lia.
  - rewrite E in *. cbn [trimStart]. rewrite W, S1, S2, G.
    f_equal. unfold a. lia.
Qed.

(** X12: An integer of a magnitude below [2^53], written in decimal, is read
    back by [parseInt] as the same integer; this is the case of the counts
    that [printAgeDistribution] passes through [parseInt], and of a
    BATCH_SIZE variable that holds a decimal numeral. *)
Theorem X12_parseInt_reads_back_an_integer (z : Z) :
  (Z.abs z < 2 ^ 53)%Z ->
  parseInt (decimal z) = Int z
  /\ BATCH_SIZE_of (Some (decimal z)) = Int z.
Proof.
  intros H.
  assert (E : parseInt (decimal z) = Int z).
  { unfold parseInt. rewrite mathInt_decimal. apply toNumber_exact.
    exact H. }
  split; [exact E|].
  unfold BATCH_SIZE_of, env_number.
  destruct (decimal z) as [|c s] eqn:Ed; [|exact E].
  exfalso. pose proof (mathInt_decimal z) as M. rewrite Ed in M.
  discriminate M.
Qed.

Lemma X12_parseInt_reads_back_an_integer_witness :
  parseInt (decimal (-250)) = Int (-250)
  /\ BATCH_SIZE_of (Some (decimal (-250))) = Int (-250).
Proof.
  apply (@X12_parseInt_reads_back_an_integer (-250)). vm_compute. reflexivity.
Defined.

(** X10: [parseInt(s, 10)] is NaN exactly when [s], after its leading white
    space and an optional sign, does not begin with a decimal digit. *)
Theorem X10_parseInt_is_NaN_iff (s : jstring) :
  parseInt s = NaN <-> starts_with_integer (trimStart s) = false.
Proof.
  pose proof (parseInt_NaN s) as H.
  destruct (parseInt s), (starts_with_integer (trimStart s));
    cbn in H; split; congruence.
Qed.

Lemma digits_prefix b c t :
  forallb is_digit b = true -> is_digit c = false -> forall acc seen,
  digits (b ++ c :: t) acc seen
  = if seen || negb (is_empty b) then digits b acc seen else None.
Proof.
  intros Hb Hc. induction b as [|x b IH]; intros acc seen.
  - cbn [app digits is_empty negb]. rewrite Hc, orb_false_r.
    destruct seen; reflexivity.
  - cbn [forallb] in Hb. apply andb_true_iff in Hb as [Hx Hb].
    cbn [app digits is_empty negb]. rewrite Hx, orb_true_r.
    rewrite IH by exact Hb. reflexivity.
Qed.

(** X11: [parseInt] ignores what follows the digits: for an optionally signed
    run of digits [s] and a character [c] that is not a digit, the text
    [s] followed by [c] and anything else is read as [s] is.  So an age
    like 30 followed by a space and a word is read as 30. *)
Theorem X11_parseInt_ignores_what_follows (s t : jstring) (c : char) :
  is_decimal_integer s = true -> is_digit c = false ->
  parseInt (s ++ c :: t) = parseInt s.
Proof.
  intros Hs Hc. unfold parseInt. f_equal.
  unfold is_decimal_integer in Hs.
  assert (D : forall b, negb (is_empty b) && forallb is_digit b = true ->
            digits (b ++ c :: t) 0 false = digits b 0 false).
  { intros b Hb. apply andb_true_iff in Hb as [H1 H2].
    rewrite digits_prefix by assumption. rewrite H1. reflexivity. }
  unfold mathInt.
  destruct s as [|x s]; [discriminate|]. cbn [app].
  assert (W : is_ws x = false).
  { destruct (N.eqb x MINUS || N.eqb x PLUS) eqn:Ex.
    - apply orb_true_iff in Ex as [Ex | Ex]; apply N.eqb_eq in Ex; subst x;
        reflexivity.
    - cbn [is_empty negb forallb andb] in Hs.
      apply andb_true_iff in Hs as [Hx _]. apply is_digit_not_ws, Hx. }
  cbn [trimStart]. rewrite W.
  destruct (N.eqb x MINUS) eqn:E1.
  - cbn [orb] in Hs. rewrite (D s Hs). reflexivity.
  - destruct (N.eqb x PLUS) eqn:E2.
    + cbn [orb] in Hs. rewrite (D s Hs). reflexivity.
    + cbn [orb] in Hs. change (x :: s ++ c :: t) with ((x :: s) ++ c :: t).
      rewrite (D (x :: s) Hs). reflexivity.
Qed.

Lemma X11_parseInt_ignores_what_follows_witness :
  parseInt (js "30" ++ 32%N :: js "years") = parseInt (js "30").
Proof.
  apply (@X11_parseInt_ignores_what_follows (js "30") (js "years") 32%N);
    reflexivity.
Defined.

(** ** [setNested] below the object it is given *)

Lemma get_obj_upd_at path f : forall o here,
  get_obj path o = Some here ->
  get_obj path (upd_at path f o) = Some (f here).
Proof.
  induction path as [|k path IH]; intros o here H; cbn [get_obj upd_at] in *.
  - congruence.
  - destruct (lookup k o) as [[s | o']|] eqn:E; try discriminate.
    rewrite lookup_set_own, eqb_str_refl. apply IH. exact H.
Qed.

Lemma get_obj_snoc p : forall path o,
  get_obj (path ++ [p]) o
  = match get_obj path o with
    | Some here =>
        match lookup p here with Some (VObj o') => Some o' | _ => None end
    | None => None
    end.
Proof.
  induction path as [|k path IH]; intros o; cbn [app get_obj].
  - destruct (lookup p o) as [[s | o']|]; reflexivity.
  - destruct (lookup k o) as [[s | o']|]; auto.
Qed.

Lemma upd_at_lookup_other k path f o :
  match path with
  | [] => forall o', lookup k (f o') = lookup k o'
  | q :: _ => k <> q
  end ->
  lookup k (upd_at path f o) = lookup k o.
Proof.
  destruct path as [|q path]; cbn [upd_at]; intros H; [apply H|].
  destruct (lookup q o) as [[s | o']|]; try reflexivity.
  rewrite lookup_set_own. apply eqb_str_neq in H. rewrite H. reflexivity.
Qed.

(** The loop of [setNested], on parts other than [__proto__] and while
    [Object.prototype] holds no object: afterwards the value is found at
    the end of the parts, and the keys beside the first part are as
    before. *)
Lemma walk_stores value parts : forall path here h,
  parts <> [] ->
  Forall (fun p => eqb_str p PROTO = false) parts ->
  no_objects (proto h) ->
  get_obj path (root h) = Some here ->
  (exists here',
     get_obj path (root (fst (walk parts value (At Root path here) h)))
     = Some here'
     /\ get_path parts here' = Some (VStr value))
  /\ forall k,
       match path with [] => k <> hd [] parts | q :: _ => k <> q end ->
       lookup k (root (fst (walk parts value (At Root path here) h)))
       = lookup k (root h).
Proof.
  induction parts as [|p rest IH]; intros path here h Hne Hp Hn Hg;
    [congruence|].
  inversion Hp as [|? ? Hp1 Hp2]; subst.
  cbn [walk]. destruct rest as [|p2 rest'].
  - cbn [put write fst snd root proto].
    unfold assign_string. rewrite Hp1. split.
    + exists (set_own p (VStr value) here). split.
      * apply get_obj_upd_at. exact Hg.
      * cbn [get_path]. rewrite lookup_set_own, eqb_str_refl. reflexivity.
    + intros k Hk. apply upd_at_lookup_other.
      destruct path as [|q path]; [|exact Hk].
      intros o'. rewrite lookup_set_own. cbn [hd] in Hk.
      apply eqb_str_neq in Hk. rewrite Hk. reflexivity.
  - set (h1 := write Root path (set_own p (VObj [])) h).
    assert (G1 : get_obj (path ++ [p]) (root h1) = Some []).
    { rewrite get_obj_snoc. unfold h1. cbn [write root].
      rewrite (get_obj_upd_at _ _ _ Hg), lookup_set_own, eqb_str_refl.
      reflexivity. }
    assert (F1 : forall k,
      match path with [] => k <> p | q :: _ => k <> q end ->
      lookup k (root h1) = lookup k (root h)).
    { intros k Hk. unfold h1. cbn [write root]. apply upd_at_lookup_other.
      destruct path as [|q path]; [|exact Hk].
      intros o'. rewrite lookup_set_own.
      apply eqb_str_neq in Hk. rewrite Hk. reflexivity. }
    assert (Sub : forall k,
      match path with [] => k <> p | q :: _ => k <> q end ->
      match path ++ [p] with
      | [] => k <> hd [] (p2 :: rest')
      | q :: _ => k <> q
      end).
    { intros k Hk. destruct path; exact Hk. }
    assert (Up : forall child h',
      get_obj (path ++ [p]) (root h') = Some child ->
      no_objects (proto h') ->
      (forall k, match path with [] => k <> p | q :: _ => k <> q end ->
                 lookup k (root h') = lookup k (root h)) ->
      (exists here',
         get_obj path
           (root (fst (walk (p2 :: rest') value (At Root (path ++ [p]) child)
                         h'))) = Some here'
         /\ get_path (p :: p2 :: rest') here' = Some (VStr value))
      /\ forall k,
           match path with
           | [] => k <> hd [] (p :: p2 :: rest')
           | q :: _ => k <> q
           end ->
           lookup k
             (root (fst (walk (p2 :: rest') value (At Root (path ++ [p]) child)
                           h'))) = lookup k (root h)).
    { intros child h' Gc Hn' Fr.
      destruct (IH (path ++ [p]) child h') as ((o'' & A & B) & C);
        [discriminate | exact Hp2 | exact Hn' | exact Gc |].
      split.
      - rewrite get_obj_snoc in A.
        destruct (get_obj path (root (fst (walk _ _ _ _)))) as [here'|];
          [|discriminate].
        exists here'. split; [reflexivity|].
        cbn [get_path] in *.
        destruct (lookup p here') as [[s | o3]|]; try discriminate.
        injection A as ->. exact B.
      - intros k Hk. cbn [hd] in Hk.
        rewrite C by (apply Sub; exact Hk). apply Fr. exact Hk. }
    cbn [descend]. rewrite Hp1. cbn [is_Object_prototype].
    destruct (lookup p here) as [[s | o']|] eqn:El.
    + apply Up; [exact G1 | exact Hn | exact F1].
    + apply Up; [| exact Hn | reflexivity].
      rewrite get_obj_snoc, Hg, El. reflexivity.
    + destruct (lookup p (proto h)) as [[s | o']|] eqn:E2;
        [ | exfalso; exact (Hn _ _ E2) | ];
        (apply Up; [exact G1 | exact Hn | exact F1]).
Qed.

Lemma proto_free_key_parts path :
  proto_free_key path = true ->
  Forall (fun p => eqb_str p PROTO = false) (split DOT path).
Proof.
  intros Hk. unfold proto_free_key in Hk. apply negb_true_iff in Hk.
  apply Forall_forall. intros p Hin.
  destruct (eqb_str p PROTO) eqn:E; [|reflexivity].
  apply eqb_str_eq in E; subst p.
  assert (X : existsb (eqb_str PROTO) (split DOT path) = true).
  { apply existsb_exists. exists PROTO. split; [exact Hin|].
    apply eqb_str_refl. }
  congruence.
Qed.

Lemma setNested_stores P obj path value :
  proto_free_key path = true -> no_objects P ->
  exists obj',
    setNested P obj path value = (obj', P, true)
    /\ get_path (split DOT path) obj' = Some (VStr value)
    /\ forall k, k <> hd [] (split DOT path) -> lookup k obj' = lookup k obj.
Proof.
  intros Hk Hn. unfold setNested.
  pose proof (proto_free_key_parts _ Hk) as Hp.
  destruct (@walk_below_root value (split DOT path) [] obj
              {| root := obj; proto := P |} (@split_not_nil DOT path) Hp Hn)
    as (A & B & _).
  destruct (@walk_stores value (split DOT path) [] obj
              {| root := obj; proto := P |} (@split_not_nil DOT path) Hp Hn
              eq_refl) as ((here' & G & V) & F).
  destruct (walk _ _ _ _) as [h ok]; cbn [fst snd root proto get_obj] in *.
  subst ok. injection G as <-. exists (root h). rewrite B.
  split; [reflexivity|]. split; [exact V | exact F].
Qed.

(** X13: What [setNested] stores can be read back.  For a path no part of
    which is [__proto__], while [Object.prototype] holds no object,
    [setNested(obj, path, value)] returns, leaves [Object.prototype] as it
    is, the value is found in the new object at the end of the parts of
    the path (whatever the object held there before), and every key of the
    object other than the first part of the path has the value it had. *)
Theorem X13_setNested_stores_at_the_path (P obj : object)
    (path value : jstring) :
  proto_free_key path = true -> no_objects P ->
  exists obj',
    setNested P obj path value = (obj', P, true)
    /\ get_path (split DOT path) obj' = Some (VStr value)
    /\ forall k, k <> hd [] (split DOT path) -> lookup k obj' = lookup k obj.
Proof. apply setNested_stores. Qed.

Lemma X13_setNested_stores_at_the_path_witness :
  exists obj',
    setNested pristine [(js "a", VStr (js "old")); (js "b", VStr (js "kept"))]
      (js "a.c") (js "new") = (obj', pristine, true)
    /\ get_path [js "a"; js "c"] obj' = Some (VStr (js "new"))
    /\ forall k, k <> js "a" ->
         lookup k obj'
         = lookup k [(js "a", VStr (js "old")); (js "b", VStr (js "kept"))].
Proof.
  apply (@X13_setNested_stores_at_the_path pristine
           [(js "a", VStr (js "old")); (js "b", VStr (js "kept"))]
           (js "a.c") (js "new")).
  - reflexivity.
  - intros k o. simpl. discriminate.
Defined.

(** ** [setNested] through [__proto__] *)

Lemma split_dotless_one k : dotless k = true -> split DOT k = [k].
Proof.
  induction k as [|c k IH]; cbn [dotless forallb split]; [reflexivity|].
  intros H. apply andb_true_iff in H as [Hc Hk].
  apply negb_true_iff in Hc. rewrite Hc.
  change (forallb (fun c => negb (N.eqb c DOT)) k) with (dotless k) in Hk.
  rewrite (IH Hk). reflexivity.
Qed.

(** X14: A path [__proto__.k], for a key [k] without dot and other than
    [__proto__], makes [setNested] write [k] on [Object.prototype] and
    leave the object it was given untouched. *)
Theorem X14_proto_key_writes_on_Object_prototype (P obj : object)
    (k value : jstring) :
  dotless k = true -> k <> PROTO ->
  setNested P obj (PROTO ++ DOT :: k) value
  = (obj, set_own k (VStr value) P, true).
Proof.
  intros Hd Hk. unfold setNested.
  change (split DOT (PROTO ++ DOT :: k)) with (PROTO :: split DOT k).
  rewrite (split_dotless_one _ Hd).
  cbn [walk descend]. rewrite eqb_str_refl. cbn [is_Object_prototype].
  cbn [put write root proto]. unfold assign_string.
  apply eqb_str_neq in Hk. rewrite Hk. reflexivity.
Qed.

Lemma X14_proto_key_writes_on_Object_prototype_witness :
  setNested pristine [] (js "__proto__.age") (js "7")
  = ([], [(js "age", VStr (js "7"))], true).
Proof.
  apply (@X14_proto_key_writes_on_Object_prototype pristine [] (js "age")
           (js "7")).
  - reflexivity.
  - discriminate.
Defined.

(** When the loop throws: the cursor is [null] and parts are left. *)
Lemma walk_throws value parts : forall c h,
  snd (walk parts value c h)
  = match c with
    | Null => match parts with [] => true | _ :: _ => false end
    | At _ _ _ => negb (reaches_null (at_Object_prototype c) parts)
    end.
Proof.
  induction parts as [|p rest IH]; intros c h.
  - destruct c; reflexivity.
  - cbn [walk reaches_null]. destruct rest as [|p2 rest'].
    + destruct c; reflexivity.
    + destruct c as [|b path here]; [reflexivity|].
      cbn [descend at_Object_prototype].
      destruct (eqb_str p PROTO) eqn:Ep.
      * destruct (is_Object_prototype b path); rewrite IH; reflexivity.
      * assert (Fr : at_Object_prototype (At b (path ++ [p]) []) = false).
        { cbn. destruct b; [reflexivity|]. destruct path; reflexivity. }
        assert (Ch : forall o', at_Object_prototype (At b (path ++ [p]) o')
                                = false).
        { intros o'. exact Fr. }
        destruct (lookup p here) as [[s | o']|].
        -- rewrite IH, Fr. reflexivity.
        -- rewrite IH, Ch. reflexivity.
        -- destruct (is_Object_prototype b path).
           ++ rewrite IH, Fr. reflexivity.
           ++ destruct (lookup p (proto h)) as [[s | o']|];
                rewrite IH; [rewrite Fr | | rewrite Fr]; reflexivity.
Qed.

Lemma reaches_null_mono parts :
  reaches_null false parts = true -> reaches_null true parts = true.
Proof.
  destruct parts as [|p [|q rest]]; cbn [reaches_null]; auto.
  destruct (eqb_str p PROTO); auto.
Qed.

Lemma reaches_null_cons b p q rest :
  reaches_null b (p :: q :: rest)
  = if eqb_str p PROTO
    then if b then true else reaches_null true (q :: rest)
    else reaches_null false (q :: rest).
Proof. reflexivity. Qed.

Lemma reaches_null_spec parts :
  reaches_null false parts = true <->
  exists pre x post, parts = pre ++ PROTO :: PROTO :: x :: post.
Proof.
  split.
  - induction parts as [|p rest IH]; cbn [reaches_null]; [discriminate|].
    destruct rest as [|q rest']; [discriminate|].
    destruct (eqb_str p PROTO) eqn:Ep.
    + apply eqb_str_eq in Ep. subst p. cbn [reaches_null].
      destruct rest' as [|x post]; [discriminate|].
      destruct (eqb_str q PROTO) eqn:Eq.
      * apply eqb_str_eq in Eq. subst q. intros _.
        exists [], x, post. reflexivity.
      * intros H.
        assert (H' : reaches_null false (q :: x :: post) = true).
        { cbn [reaches_null]. rewrite Eq. exact H. }
        destruct (IH H') as (pre & y & post' & E).
        exists (PROTO :: pre), y, post'. rewrite E. reflexivity.
    + intros H. destruct (IH H) as (pre & y & post' & E).
      exists (p :: pre), y, post'. rewrite E. reflexivity.
  - intros (pre & x & post & ->).
    induction pre as [|a pre IH].
    + cbn [app reaches_null]. rewrite eqb_str_refl. reflexivity.
    + cbn [app].
      destruct (pre ++ PROTO :: PROTO :: x :: post) as [|q rest'] eqn:E.
      * destruct pre; discriminate.
      * rewrite reaches_null_cons.
        destruct (eqb_str a PROTO); [apply reaches_null_mono|]; exact IH.
Qed.

(** X15: [setNested] throws (a TypeError) exactly when the parts of the path
    contain [__proto__] twice in a row with at least one more part after
    them, whatever the object and [Object.prototype] hold. *)
Theorem X15_setNested_throws_iff (P obj : object) (path value : jstring) :
  snd (setNested P obj path value) = false <->
  exists pre x post,
    split DOT path = pre ++ PROTO :: PROTO :: x :: post.
Proof.
  rewrite <- reaches_null_spec. unfold setNested.
  pose proof (@walk_throws value (split DOT path) (At Root [] obj)
                {| root := obj; proto := P |}) as H.
  destruct (walk _ _ _ _) as [h ok]. cbn [fst snd at_Object_prototype
    is_Object_prototype] in *. subst ok.
  destruct (reaches_null false (split DOT path)); cbn; split; congruence.
Qed.

(** ** The mapper on keys without [__proto__] *)

Lemma field_no_objects P rec k : no_objects P -> field P rec k <> None.
Proof.
  intros Hn. unfold field, get_prop.
  destruct (lookup k rec); [discriminate|].
  destruct (lookup k P) as [[s | o]|] eqn:E; try discriminate.
  exfalso. exact (Hn _ _ E).
Qed.

(** X16: On a record no key of which has a part [__proto__], while
    [Object.prototype] holds no object, [mapRecordToDb] leaves
    [Object.prototype] as it is and throws no TypeError, so that mapping
    the same record again gives the same result. *)
Theorem X16_mapping_is_repeatable (P : object) (rec : FlatRecord) :
  no_objects P -> proto_free rec ->
  snd (mapRecordToDb P rec) = P
  /\ fst (mapRecordToDb P rec) <> inl TypeError
  /\ mapRecordToDb (snd (mapRecordToDb P rec)) rec = mapRecordToDb P rec.
Proof.
  intros Hn Hf.
  assert (A : snd (mapRecordToDb P rec) = P
              /\ fst (mapRecordToDb P rec) <> inl TypeError).
  { pose proof (@field_no_objects P rec K_FIRST Hn) as F1.
    pose proof (@field_no_objects P rec K_LAST Hn) as F2.
    pose proof (@field_no_objects P rec K_AGE Hn) as F3.
    unfold mapRecordToDb.
    destruct (field P rec K_FIRST) as [f|]; [|congruence].
    destruct (field P rec K_LAST) as [l|]; [|congruence].
    destruct (field P rec K_AGE) as [a|]; [|congruence].
    destruct (_ || _); [split; [reflexivity | discriminate]|].
    destruct (isNaN _); [split; [reflexivity | discriminate]|].
    destruct (@entries_loop_below (Object_entries rec) [] [] P Hn)
      as (a' & b' & E & _).
    { intros k v Hin. exact (Hf k v (proj1 (Object_entries_In _ _) Hin)). }
    rewrite E. split; [reflexivity | discriminate]. }
  destruct A as [A B]. rewrite A. auto.
Qed.

Lemma X16_mapping_is_repeatable_witness :
  snd (mapRecordToDb pristine
         (person (js "A") (js "B") (js "30") ++ [(js "x.y", js "z")]))
  = pristine
  /\ fst (mapRecordToDb pristine
            (person (js "A") (js "B") (js "30") ++ [(js "x.y", js "z")]))
     <> inl TypeError
  /\ mapRecordToDb
       (snd (mapRecordToDb pristine
               (person (js "A") (js "B") (js "30") ++ [(js "x.y", js "z")])))
       (person (js "A") (js "B") (js "30") ++ [(js "x.y", js "z")])
     = mapRecordToDb pristine
         (person (js "A") (js "B") (js "30") ++ [(js "x.y", js "z")]).
Proof.
  apply (@X16_mapping_is_repeatable pristine
           (person (js "A") (js "B") (js "30") ++ [(js "x.y", js "z")])).
  - intros k o. simpl. discriminate.
  - intros k v H. simpl in H.
    destruct H as [H | [H | [H | [H | []]]]]; injection H as <- <-;
      reflexivity.
Defined.

Lemma get_path_head parts o o' :
  lookup (hd [] parts) o = lookup (hd [] parts) o' ->
  get_path parts o = get_path parts o'.
Proof.
  destruct parts as [|p [|q rest]]; cbn [hd get_path]; intros H;
    [reflexivity | exact H | rewrite H; reflexivity].
Qed.

Lemma pair_eq_dec (a b : jstring * jstring) : {a = b} + {a <> b}.
Proof.
  destruct a as [k v], b as [k' v'].
  destruct (list_eq_dec N.eq_dec k k') as [-> | H];
    [destruct (list_eq_dec N.eq_dec v v') as [-> | H]|];
    [left; reflexivity | right; congruence | right; congruence].
Qed.

(** The loop of lines 100-109 keeps a value readable at its path as long
    as the keys that follow start with another part. *)
Lemma entries_loop_stores k v b sub :
  route k = Some (b, sub) ->
  forall es address additional P,
    no_objects P ->
    (forall k' v', In (k', v') es -> proto_free_key k' = true) ->
    (forall k' v' sub', In (k', v') es -> (k', v') <> (k, v) ->
       route k' = Some (b, sub') ->
       hd [] (split DOT sub') <> hd [] (split DOT sub)) ->
    In (k, v) es
    \/ get_path (split DOT sub) (if b then address else additional)
       = Some (VStr v) ->
    exists address' additional',
      entries_loop es address additional P = (address', additional', P, true)
      /\ get_path (split DOT sub) (if b then address' else additional')
         = Some (VStr v).
Proof.
  intros Hr.
  induction es as [|[k0 v0] es IH]; intros address additional P Hn Hk Hd H.
  - destruct H as [[] | H]. exists address, additional. auto.
  - assert (Hk' : forall k' v', In (k', v') es -> proto_free_key k' = true)
      by (intros; eapply Hk; right; eassumption).
    assert (Hd' : forall k' v' sub', In (k', v') es -> (k', v') <> (k, v) ->
              route k' = Some (b, sub') ->
              hd [] (split DOT sub') <> hd [] (split DOT sub))
      by (intros k' v' sub' Hin; apply Hd; right; exact Hin).
    assert (Hk0 : proto_free_key k0 = true) by (eapply Hk; left; eauto).
    cbn [entries_loop].
    destruct (pair_eq_dec (k0, v0) (k, v)) as [E | E].
    + injection E as -> ->. unfold route in Hr.
      destruct (is_consumed k); [discriminate|].
      destruct (startsWith ADDRESS_DOT k) eqn:Es; injection Hr as <- <-.
      * destruct (@setNested_stores P address
                    (slice (length ADDRESS_DOT) k) v) as (a1 & E1 & G1 & _);
          [apply proto_free_key_address; assumption | exact Hn |].
        rewrite E1. apply IH; auto.
      * destruct (@setNested_stores P additional k v) as (a1 & E1 & G1 & _);
          [assumption | exact Hn |].
        rewrite E1. apply IH; auto.
    + assert (Hin : In (k, v) es
                    \/ get_path (split DOT sub)
                         (if b then address else additional) = Some (VStr v)).
      { destruct H as [[H | H] | H]; [congruence | auto | auto]. }
      pose proof (Hd k0 v0) as D0. unfold route in D0.
      destruct (is_consumed k0); [apply IH; auto|].
      destruct (startsWith ADDRESS_DOT k0) eqn:Es.
      * destruct (@setNested_stores P address
                    (slice (length ADDRESS_DOT) k0) v0) as (a1 & E1 & _ & F1);
          [apply proto_free_key_address; assumption | exact Hn |].
        rewrite E1. apply IH; auto.
        destruct Hin as [Hin | Hin]; [auto | right].
        destruct b; [|exact Hin].
        rewrite <- Hin. apply get_path_head. apply F1.
        intros X. symmetry in X. revert X.
        apply (D0 _ (or_introl eq_refl) E eq_refl).
      * destruct (@setNested_stores P additional k0 v0)
          as (a1 & E1 & _ & F1); [assumption | exact Hn |].
        rewrite E1. apply IH; auto.
        destruct Hin as [Hin | Hin]; [auto | right].
        destruct b; [exact Hin|].
        rewrite <- Hin. apply get_path_head. apply F1.
        intros X. symmetry in X. revert X.
        apply (D0 _ (or_introl eq_refl) E eq_refl).
Qed.

Lemma get_path_not_nil parts o v : get_path parts o = Some v -> o <> [].
Proof.
  destruct parts as [|p [|q rest]]; cbn [get_path]; [discriminate| |];
    destruct o; cbn [lookup]; discriminate.
Qed.

(** X17: The Document holds each value at the path its key names.  Let a
    record without [__proto__] keys be mapped to a Document, and let [k]
    be one of its keys, with value [v], that is not one of the three
    consumed keys; [k] goes to [address] under its text after the prefix
    [address.], or else to [additional_info] under [k] itself.  If no
    other key that goes to the same field begins with the same first
    part, that field of the Document is an object in which [v] is found at
    the end of the dotted path. *)
Theorem X17_mapped_value_is_at_its_path (P P' : object) (rec : FlatRecord)
    (d : Document) (k v : jstring) (b : bool) (sub : jstring) :
  no_objects P -> proto_free rec ->
  mapRecordToDb P rec = (inr d, P') ->
  In (k, v) rec ->
  route k = Some (b, sub) ->
  (forall k' v' sub', In (k', v') rec -> (k', v') <> (k, v) ->
     route k' = Some (b, sub') ->
     hd [] (split DOT sub') <> hd [] (split DOT sub)) ->
  exists o, built d b = Some o
            /\ get_path (split DOT sub) o = Some (VStr v).
Proof.
  intros Hn Hf H Hin Hr Hd.
  destruct (field P rec K_FIRST) as [f|] eqn:Hfi;
    [destruct (field P rec K_LAST) as [l|] eqn:Hl;
     [destruct (field P rec K_AGE) as [a|] eqn:Ha|]|];
    try (unfold mapRecordToDb in H; rewrite ?Hfi, ?Hl, ?Ha in H;
         discriminate).
  rewrite (mapRecordToDb_read _ _ Hfi Hl Ha) in H.
  destruct (_ || _); [discriminate|].
  destruct (isNaN _); [discriminate|].
  destruct (@entries_loop_stores k v b sub Hr (Object_entries rec) [] [] P Hn)
    as (a' & b' & E & G).
  - intros k' v' Hin'. exact (Hf k' v' (proj1 (Object_entries_In _ _) Hin')).
  - intros k' v' sub' Hin'. apply Hd. apply Object_entries_In. exact Hin'.
  - left. apply Object_entries_In. exact Hin.
  - rewrite E in H. injection H as <- <-.
    pose proof (@get_path_not_nil _ _ _ G) as N.
    unfold built. cbn [address additional_info].
    destruct b.
    + exists a'. split; [|exact G]. unfold or_null, keys_length.
      destruct a'; [congruence | reflexivity].
    + exists b'. split; [|exact G]. unfold or_null, keys_length.
      destruct b'; [congruence | reflexivity].
Qed.

Lemma X17_mapped_value_is_at_its_path_witness :
  exists o,
    built {| name := js "A B"; age := Int 30;
             address := Some [(js "city", VStr (js "X"))];
             additional_info :=
               Some [(js "contact", VObj [(js "phone", VStr (js "1"))])] |}
          false = Some o
    /\ get_path [js "contact"; js "phone"] o = Some (VStr (js "1")).
Proof.
  apply (@X17_mapped_value_is_at_its_path pristine pristine
           (person (js "A") (js "B") (js "30")
            ++ [(js "address.city", js "X"); (js "contact.phone", js "1")])
           _ (js "contact.phone") (js "1") false (js "contact.phone")).
  - intros k o. simpl. discriminate.
  - intros k v H. simpl in H.
    destruct H as [H | [H | [H | [H | [H | []]]]]]; injection H as <- <-;
      reflexivity.
  - vm_compute. reflexivity.
  - simpl. auto 10.
  - reflexivity.
  - intros k' v' sub' H. simpl in H.
    destruct H as [H | [H | [H | [H | [H | []]]]]]; injection H as <- <-;
      intros Hne Hr; try discriminate Hr; congruence.
Defined.

(** X18: For a record no key of which has a part [__proto__], while
    [Object.prototype] holds no object: the Document has no address
    exactly when no key of the record starts with [address.], and no
    additional information exactly when every key is one of the three
    consumed keys or starts with [address.]. *)
Theorem X18_null_fields_without_proto_keys (P P' : object) (rec : FlatRecord)
    (d : Document) :
  no_objects P -> proto_free rec ->
  mapRecordToDb P rec = (inr d, P') ->
  (address d = None <->
   forall k v, In (k, v) rec -> startsWith ADDRESS_DOT k = false)
  /\ (additional_info d = None <->
      forall k v, In (k, v) rec ->
        is_consumed k = true \/ startsWith ADDRESS_DOT k = true).
Proof.
  intros Hn Hf H.
  destruct (mapRecordToDb_null_iff Hn Hf H) as (_ & A & B). auto.
Qed.

Lemma X18_null_fields_without_proto_keys_witness :
  (@None object = None <->
   forall k v, In (k, v) (person (js "A") (js "B") (js "30")) ->
     startsWith ADDRESS_DOT k = false)
  /\ (@None object = None <->
      forall k v, In (k, v) (person (js "A") (js "B") (js "30")) ->
        is_consumed k = true \/ startsWith ADDRESS_DOT k = true).
Proof.
  apply (@X18_null_fields_without_proto_keys pristine pristine
           (person (js "A") (js "B") (js "30"))
           {| name := js "A B"; age := Int 30;
              address := None; additional_info := None |}).
  - intros k o. simpl. discriminate.
  - intros k v H. simpl in H.
    destruct H as [H | [H | [H | []]]]; injection H as <- <-; reflexivity.
  - vm_compute. reflexivity.
Defined.

(** ** What a run prints *)








(** ** The statements of a run *)

Lemma batches_not_empty B ds : forall cur,
  Forall (fun b => b <> []) (batches B cur ds).
Proof.
  induction ds as [|d ds IH]; intros cur; cbn [batches].
  - destruct cur; cbn; repeat constructor. discriminate.
  - destruct (ge_BATCH_SIZE B _); [|apply IH].
    constructor; [|apply IH]. destruct cur; discriminate.
Qed.

(** A sequence of INSERTs sends the batches up to the first rejected one,
    that one included. *)
Lemma send_all_sends insert_fails bs : forall c,
  exists j, j <= length bs
    /\ (bs <> [] -> 1 <= j)
    /\ sent (fst (send_all insert_fails c bs))
       = sent c ++ List.map INSERT (firstn j bs)
    /\ (snd (send_all insert_fails c bs) = true -> j = length bs).
Proof.
  induction bs as [|b bs IH]; intros c; cbn [send_all].
  - exists 0. cbn. rewrite app_nil_r. repeat split; auto. congruence.
  - pose proof (query_insert_sent insert_fails c b) as [Hs _].
    destruct (query_insert insert_fails c b) as [c' [|]]; cbn [fst] in Hs.
    + destruct (IH c') as (j & L & _ & E & F). exists (S j).
      cbn [length firstn List.map]. split; [lia|]. split; [lia|]. split.
      * rewrite E, Hs, <- app_assoc. reflexivity.
      * intros H. rewrite (F H). reflexivity.
    + exists 1. cbn [length firstn List.map fst snd]. split; [lia|].
      split; [lia|]. split; [exact Hs | discriminate].
Qed.

Lemma printAgeDistribution_with_db f c :
  db (fst (printAgeDistribution_with f c)) = db c.
Proof.
  unfold printAgeDistribution_with.
  destruct (count_rejected f); [reflexivity|].
  pose proof (printAgeDistribution_db c) as [D _].
  destruct (printAgeDistribution c) as [c' r]; cbn [fst] in D.
  destruct r; [exact D|]. destruct (buckets_rejected f); exact D.
Qed.

(** The statements [printAgeDistribution] sends, and whether it
    returns. *)
Lemma printAgeDistribution_with_sends f c :
  exists tail,
    sent (fst (printAgeDistribution_with f c)) = sent c ++ tail
    /\ ((tail = [SELECT_COUNT] \/ tail = [SELECT_COUNT; SELECT_BUCKETS])
        /\ (forall s, snd (printAgeDistribution_with f c) = inl s ->
              last tail BEGIN = s /\ s <> ROLLBACK)).
Proof.
  unfold printAgeDistribution_with.
  destruct (count_rejected f).
  - exists [SELECT_COUNT]. cbn. split; [reflexivity|]. split; [auto|].
    intros s [= <-]. split; [reflexivity | discriminate].
  - unfold printAgeDistribution.
    destruct (_ =? _)%Z; cbn [fst snd].
    + exists [SELECT_COUNT]. cbn. split; [reflexivity|]. split; [auto|].
      intros s H. discriminate H.
    + exists [SELECT_COUNT; SELECT_BUCKETS].
      destruct (buckets_rejected f); cbn [fst snd sent record_sent];
        rewrite <- app_assoc; (split; [reflexivity|]); (split; [auto|]).
      * intros s [= <-]. split; [reflexivity | discriminate].
      * intros s H. discriminate H.
Qed.

Lemma caught_facts f err c out P :
  sent (final (caught f err c out P)) = sent c ++ [ROLLBACK]
  /\ result (caught f err c out P) = inl err
  /\ (rollback_rejected f = false ->
      tx (db (final (caught f err c out P))) = None).
Proof.
  unfold caught. cbn [final result].
  destruct (rollback_rejected f); cbn; repeat split; auto. discriminate.
Qed.

(** The statements of a run on an input that has a header. *)
Lemma import_statements insert_fails BATCH_SIZE f text records c0 P0 :
  parseCSVText text = inr records ->
  let r := importCsvFile_with insert_fails BATCH_SIZE f text c0 P0 in
  let bs := batches BATCH_SIZE [] (mapped P0 records) in
  exists j closing,
    j <= length bs
    /\ In closing closing_statements
    /\ sent (final r)
       = sent c0 ++ BEGIN :: List.map INSERT (firstn j bs) ++ closing
    /\ (closing <> [ROLLBACK] -> j = length bs)
    /\ (if begin_rejected f then j = 0 else bs <> [] -> 1 <= j)
    /\ ((exists rep, result r = inr rep) <-> last closing BEGIN <> ROLLBACK)
    /\ (rollback_rejected f = false \/ (exists rep, result r = inr rep) ->
        tx (db (final r)) = None).
Proof.
  intros Hp. cbv zeta. unfold importCsvFile_with. rewrite Hp.
  set (bs := batches BATCH_SIZE [] (mapped P0 records)).
  destruct (begin_rejected f) eqn:Eb.
  { destruct (caught_facts f (Rejected BEGIN) (query_rejected BEGIN c0)
                [Starting; Parsing; Parsed (length records)] P0)
      as (S1 & R1 & T1).
    exists 0, [ROLLBACK]. split; [lia|]. split; [cbn; auto|].
    split; [rewrite S1; cbn; rewrite <- app_assoc; reflexivity|].
    split; [congruence|]. split; [reflexivity|]. split.
    - rewrite R1. cbn. split; [intros [rep H]; discriminate H | congruence].
    - rewrite R1. intros [H | [rep H]]; [auto | discriminate H]. }
  pose proof (load_sends insert_fails BATCH_SIZE records
                {| batch := []; inserted := 0; conn := query_begin c0;
                   log := [Starting; Parsing; Parsed (length records)];
                   Object_prototype := P0 |}) as L.
  cbn [conn batch Object_prototype] in L. fold bs in L.
  destruct (@send_all_sends insert_fails bs (query_begin c0))
    as (j & Lj & J1 & E & F).
  assert (E' : sent (fst (send_all insert_fails (query_begin c0) bs))
               = sent c0 ++ BEGIN :: List.map INSERT (firstn j bs)).
  { rewrite E. unfold query_begin. cbn [sent record_sent].
    rewrite <- app_assoc. reflexivity. }
  clear E.
  destruct (load _ _ _ _) as [st | st]; cbn [ending] in L;
    rewrite <- L in E', F; cbn [fst snd] in E', F.
  - destruct (caught_facts f InsertRejected (conn st) (log st)
                (Object_prototype st)) as (S1 & R1 & T1).
    exists j, [ROLLBACK]. split; [exact Lj|]. split; [cbn; auto|].
    split; [rewrite S1, E', <- app_assoc; reflexivity|].
    split; [congruence|]. split; [exact J1|]. split.
    + rewrite R1. cbn. split; [intros [rep H]; discriminate H | congruence].
    + rewrite R1. intros [H | [rep H]]; [auto | discriminate H].
  - specialize (F eq_refl).
    destruct (commit_rejected f).
    { destruct (caught_facts f (Rejected COMMIT)
                  (query_rejected COMMIT (conn st)) (log st)
                  (Object_prototype st)) as (S1 & R1 & T1).
      exists j, [COMMIT; ROLLBACK]. split; [exact Lj|].
      split; [cbn; auto|].
      split; [rewrite S1; cbn [sent query_rejected record_sent];
              rewrite E', <- !app_assoc; reflexivity|].
      split; [auto|]. split; [exact J1|]. split.
      - rewrite R1. cbn.
        split; [intros [rep H]; discriminate H | congruence].
      - rewrite R1. intros [H | [rep H]]; [auto | discriminate H]. }
    pose proof (printAgeDistribution_with_db f (query_commit (conn st)))
      as D.
    destruct (printAgeDistribution_with_sends f (query_commit (conn st)))
      as (tail & St & Ht & Hs).
    cbn [sent query_commit record_sent] in St. rewrite E' in St.
    destruct (printAgeDistribution_with f (query_commit (conn st)))
      as [c3 [s | rep]]; cbn [fst snd] in *.
    + destruct (caught_facts f (Rejected s) c3 (log st ++ [Committed])
                  (Object_prototype st)) as (S1 & R1 & T1).
      destruct (Hs s eq_refl) as [Hl Hne].
      exists j, (COMMIT :: tail ++ [ROLLBACK]). split; [exact Lj|].
      split; [destruct Ht as [-> | ->]; cbn; auto 10|].
      split; [rewrite S1, St, <- !app_assoc; reflexivity|].
      split; [auto|]. split; [exact J1|]. split.
      * rewrite R1. split; [intros [rep H]; discriminate H|].
        intros H. exfalso. apply H.
        destruct Ht as [-> | ->]; reflexivity.
      * rewrite R1. intros [H | [rep H]]; [auto | discriminate H].
    + exists j, (COMMIT :: tail). split; [exact Lj|].
      split; [destruct Ht as [-> | ->]; cbn; auto 10|].
      cbn [final result].
      split; [rewrite St, <- !app_assoc; reflexivity|].
      split; [auto|]. split; [exact J1|]. split.
      * split; [|eauto]. intros _.
        destruct Ht as [-> | ->]; cbn; discriminate.
      * intros _. rewrite D. reflexivity.
Qed.

(** X20: The statements of a run on an input that has a header, whatever
    the batch size and whichever statements the store rejects.  After
    what the connection had sent before come BEGIN, then the INSERTs of
    the first [j] batches of the mapped documents, none of which is empty,
    then one of six endings: ROLLBACK alone (BEGIN or the last INSERT was
    rejected), or, only after all the batches, COMMIT followed by
    ROLLBACK, by the COUNT query, by the COUNT query and ROLLBACK, by both
    queries of the report, or by both queries and ROLLBACK.  The run
    returns its report exactly when it sends no ROLLBACK; and unless
    ROLLBACK itself is rejected, no transaction is open in the end. *)
Theorem X20_statements_of_a_run
    (insert_fails : nat -> list Document -> bool) (BATCH_SIZE : number)
    (f : faults) (text : jstring) (records : list FlatRecord) (c0 : client)
    (P0 : object) :
  parseCSVText text = inr records ->
  let r := importCsvFile_with insert_fails BATCH_SIZE f text c0 P0 in
  let bs := batches BATCH_SIZE [] (mapped P0 records) in
  Forall (fun b => b <> []) bs
  /\ exists j closing,
       j <= length bs
       /\ In closing closing_statements
       /\ sent (final r)
          = sent c0 ++ BEGIN :: List.map INSERT (firstn j bs) ++ closing
       /\ (closing <> [ROLLBACK] -> j = length bs)
       /\ ((exists rep, result r = inr rep)
           <-> last closing BEGIN <> ROLLBACK)
       /\ (rollback_rejected f = false \/ (exists rep, result r = inr rep)
           -> tx (db (final r)) = None).
Proof.
  intros Hp. cbv zeta. split; [apply batches_not_empty|].
  destruct (@import_statements insert_fails BATCH_SIZE f text records c0 P0
              Hp) as (j & closing & A & B & C & D & _ & E & F).
  exists j, closing. auto 10.
Qed.

Lemma X20_statements_of_a_run_witness :
  let f := {| begin_rejected := false; commit_rejected := true;
              count_rejected := false; buckets_rejected := false;
              rollback_rejected := false |} in
  let r := importCsvFile_with second_fails (Int 2) f three_people
             (fresh_client []) pristine in
  let bs := batches (Int 2) [] (mapped pristine (records_of three_people)) in
  Forall (fun b => b <> []) bs
  /\ exists j closing,
       j <= length bs
       /\ In closing closing_statements
       /\ sent (final r)
          = sent (fresh_client []) ++ BEGIN
            :: List.map INSERT (firstn j bs) ++ closing
       /\ (closing <> [ROLLBACK] -> j = length bs)
       /\ ((exists rep, result r = inr rep)
           <-> last closing BEGIN <> ROLLBACK)
       /\ (rollback_rejected f = false \/ (exists rep, result r = inr rep)
           -> tx (db (final r)) = None).
Proof.
  apply (@X20_statements_of_a_run second_fails (Int 2)
           {| begin_rejected := false; commit_rejected := true;
              count_rejected := false; buckets_rejected := false;
              rollback_rejected := false |}
           three_people (records_of three_people) (fresh_client [])
           pristine).
  vm_compute. reflexivity.
Defined.

(** A rejected COMMIT is followed by ROLLBACK; when ROLLBACK is rejected
    too, the transaction stays open.  A rejected COUNT query comes after
    the commit, so its run fails with the rows kept, and the query of the
    buckets is not sent. *)
Example rejected_commit_and_count :
  (let f := {| begin_rejected := false; commit_rejected := true;
               count_rejected := false; buckets_rejected := false;
               rollback_rejected := true |} in
   let r := importCsvFile_with never_fails (Int 1000) f three_people
              (fresh_client []) pristine in
   List.map is_insert (sent (final r)) = [false; true; false; false]
   /\ last (sent (final r)) BEGIN = ROLLBACK
   /\ tx (db (final r)) <> None
   /\ result r = inl (Rejected COMMIT)
   /\ last (printed r) Starting = Failed)
  /\ (let f := {| begin_rejected := false; commit_rejected := false;
                  count_rejected := true; buckets_rejected := false;
                  rollback_rejected := false |} in
      let r := importCsvFile_with never_fails (Int 1000) f three_people
                 (fresh_client []) pristine in
      List.map is_insert (sent (final r)) = [false; true; false; false; false]
      /\ last (sent (final r)) BEGIN = ROLLBACK
      /\ length (table (db (final r))) = 3
      /\ result r = inl (Rejected SELECT_COUNT)
      /\ last (printed r) Starting = Failed).
Proof. vm_compute. repeat split; discriminate. Qed.

(** ** Batch sizes that are not positive numbers *)

Lemma batches_never_full B : never_full B = true -> forall ds cur,
  batches B cur ds
  = match cur ++ ds with [] => [] | _ :: _ => [cur ++ ds] end.
Proof.
  intros HB.
  assert (G : forall n, ge_BATCH_SIZE B n = false).
  { intros n. destruct B as [|[|]|b]; try discriminate; reflexivity. }
  induction ds as [|d ds IH]; intros cur; cbn [batches].
  - rewrite app_nil_r. destruct cur; reflexivity.
  - rewrite G, IH, <- app_assoc. cbn [app].
    destruct (cur ++ d :: ds) eqn:E; [|reflexivity].
    destruct cur; discriminate.
Qed.

Lemma batches_always_full B : always_full B = true -> forall ds,
  batches B [] ds = List.map (fun d => [d]) ds.
Proof.
  intros HB.
  assert (G : ge_BATCH_SIZE B 1 = true).
  { destruct B as [|[|]|b]; try discriminate; [reflexivity|].
    cbn in *. apply Z.leb_le in HB. apply Z.leb_le. lia. }
  induction ds as [|d ds IH]; cbn [batches List.map]; [reflexivity|].
  cbn [app length]. rewrite G, IH. reflexivity.
Qed.

Lemma closing_has_no_insert closing :
  In closing closing_statements -> insert_rows closing = [].
Proof.
  cbn. intros [<-|[<-|[<-|[<-|[<-|[<-|[]]]]]]]; reflexivity.
Qed.

(** The rows of the INSERTs of a run: those of the first [j] batches. *)
Lemma import_insert_rows insert_fails BATCH_SIZE f text records c0 P0 :
  parseCSVText text = inr records ->
  let r := importCsvFile_with insert_fails BATCH_SIZE f text c0 P0 in
  let bs := batches BATCH_SIZE [] (mapped P0 records) in
  exists j,
    j <= length bs
    /\ (if begin_rejected f then j = 0 else bs <> [] -> 1 <= j)
    /\ insert_rows (sent (final r)) = insert_rows (sent c0) ++ firstn j bs
    /\ ((exists rep, result r = inr rep) -> j = length bs).
Proof.
  intros Hp. cbv zeta.
  destruct (@import_statements insert_fails BATCH_SIZE f text records c0 P0
              Hp) as (j & closing & A & B & C & D & E & F & _).
  exists j. split; [exact A|]. split; [exact E|]. split.
  - rewrite C, insert_rows_app. cbn [insert_rows].
    rewrite insert_rows_app, insert_rows_map_INSERT,
      (closing_has_no_insert B), app_nil_r. reflexivity.
  - intros H. apply D. intros ->. apply F in H. apply H. reflexivity.
Qed.

(** With a batch size that no length reaches, a run sends one INSERT with
    all its documents, unless it has none or BEGIN is rejected. *)
Lemma run_never_full insert_fails BATCH_SIZE f text records c0 P0 :
  never_full BATCH_SIZE = true ->
  parseCSVText text = inr records ->
  insert_rows
    (sent (final (importCsvFile_with insert_fails BATCH_SIZE f text c0 P0)))
  = insert_rows (sent c0)
    ++ (if begin_rejected f then []
        else match mapped P0 records with
             | [] => []
             | _ :: _ => [mapped P0 records]
             end).
Proof.
  intros HB Hp.
  destruct (@import_insert_rows insert_fails BATCH_SIZE f text records c0 P0
              Hp) as (j & A & E & C & _).
  rewrite C. f_equal.
  rewrite (@batches_never_full _ HB (mapped P0 records) []) in *.
  cbn [app] in *.
  destruct (begin_rejected f); [rewrite E; reflexivity|].
  destruct (mapped P0 records) as [|d ds]; [destruct j; reflexivity|].
  cbn [length] in A. assert (j = 1) as -> by (assert (1 <= j) by
    (apply E; discriminate); lia).
  reflexivity.
Qed.

(** X22: Batch sizes that are not positive numbers, in a run on an input
    that has a header, whatever the store rejects.  With a BATCH_SIZE that
    is NaN or positive infinity the test of line 173 never holds: the run
    sends one INSERT, that of the final flush, with all the mapped
    documents (none when there is no document or BEGIN is rejected).  With
    a BATCH_SIZE of at most 1 (zero and the negative numbers included)
    every INSERT of the run carries one document: the run sends those of
    the first [j] documents, in order, at least one when there is a
    document and BEGIN is accepted, and all of them when it returns its
    report. *)
Theorem X22_degenerate_batch_sizes
    (insert_fails : nat -> list Document -> bool) (B : number) (f : faults)
    (text : jstring) (records : list FlatRecord) (c0 : client)
    (P0 : object) :
  parseCSVText text = inr records ->
  let r := importCsvFile_with insert_fails B f text c0 P0 in
  let docs := mapped P0 records in
  (never_full B = true ->
   insert_rows (sent (final r))
   = insert_rows (sent c0)
     ++ (if begin_rejected f then []
         else match docs with [] => [] | _ :: _ => [docs] end))
  /\ (always_full B = true ->
      exists j,
        j <= length docs
        /\ (if begin_rejected f then j = 0 else docs <> [] -> 1 <= j)
        /\ insert_rows (sent (final r))
           = insert_rows (sent c0)
             ++ List.map (fun d => [d]) (firstn j docs)
        /\ ((exists rep, result r = inr rep) -> j = length docs)).
Proof.
  intros Hp. cbv zeta. split.
  - intros HB. apply run_never_full; assumption.
  - intros HB.
    destruct (@import_insert_rows insert_fails B f text records c0 P0 Hp)
      as (j & A & E & C & D).
    rewrite (@batches_always_full _ HB) in *.
    rewrite length_map in *. exists j. split; [exact A|]. split.
    + destruct (begin_rejected f); [exact E|].
      intros H. apply E. destruct (mapped P0 records); [congruence|].
      discriminate.
    + split; [|exact D]. rewrite C, firstn_map. reflexivity.
Qed.

Lemma X22_degenerate_batch_sizes_witness :
  insert_rows
    (sent (final (importCsvFile_with never_fails NaN no_faults three_people
                    (fresh_client []) pristine)))
  = [mapped pristine (records_of three_people)]
  /\ exists j,
       j <= 3
       /\ (mapped pristine (records_of three_people) <> [] -> 1 <= j)
       /\ insert_rows
            (sent (final (importCsvFile_with second_fails (Int 0) no_faults
                            three_people (fresh_client []) pristine)))
          = List.map (fun d => [d])
              (firstn j (mapped pristine (records_of three_people)))
       /\ ((exists rep,
              result (importCsvFile_with second_fails (Int 0) no_faults
                        three_people (fresh_client []) pristine) = inr rep)
           -> j = 3).
Proof.
  split.
  - exact (proj1 (@X22_degenerate_batch_sizes never_fails NaN no_faults
                    three_people (records_of three_people) (fresh_client [])
                    pristine eq_refl) eq_refl).
  - exact (proj2 (@X22_degenerate_batch_sizes second_fails (Int 0) no_faults
                    three_people (records_of three_people) (fresh_client [])
                    pristine eq_refl) eq_refl).
Defined.

(** X23: A BATCH_SIZE variable that is set but does not begin (after white
    space and an optional sign) with a digit gives the batch size NaN
    (line 7), and a run with it on an input that has a header sends one
    INSERT, that of the final flush, with all the mapped documents (none
    when there is no document or BEGIN is rejected), whatever else the
    store rejects. *)
Theorem X23_unreadable_BATCH_SIZE_gives_one_insert
    (insert_fails : nat -> list Document -> bool) (f : faults) (s : jstring)
    (text : jstring) (records : list FlatRecord) (c0 : client)
    (P0 : object) :
  s <> [] -> starts_with_integer (trimStart s) = false ->
  parseCSVText text = inr records ->
  let r := importCsvFile_with insert_fails (BATCH_SIZE_of (Some s)) f text
             c0 P0 in
  BATCH_SIZE_of (Some s) = NaN
  /\ insert_rows (sent (final r))
     = insert_rows (sent c0)
       ++ (if begin_rejected f then []
           else match mapped P0 records with
                | [] => []
                | _ :: _ => [mapped P0 records]
                end).
Proof.
  intros Hs Hi Hp. cbv zeta.
  assert (E : BATCH_SIZE_of (Some s) = NaN).
  { unfold BATCH_SIZE_of, env_number.
    destruct s as [|c s]; [congruence|]. cbn [is_empty].
    pose proof (parseInt_NaN (c :: s)) as H. rewrite Hi in H.
    destruct (parseInt (c :: s)); [reflexivity | discriminate | discriminate]. }
  split; [exact E|]. rewrite E.
  apply run_never_full; [reflexivity | exact Hp].
Qed.

Lemma X23_unreadable_BATCH_SIZE_gives_one_insert_witness :
  BATCH_SIZE_of (Some (js "ten")) = NaN
  /\ insert_rows
       (sent (final (importCsvFile_with never_fails
                       (BATCH_SIZE_of (Some (js "ten"))) no_faults
                       three_people (fresh_client []) pristine)))
     = [mapped pristine (records_of three_people)].
Proof.
  apply (@X23_unreadable_BATCH_SIZE_gives_one_insert never_fails no_faults
           (js "ten") three_people (records_of three_people)
           (fresh_client []) pristine).
  - discriminate.
  - reflexivity.
  - vm_compute. reflexivity.
Defined.

(** ** The counts of the report *)

(** X25: The four counts of the report add up to the number of rows: every
    row is counted in exactly one bucket. *)
Theorem X25_bucket_counts_add_up (rows : list PersistedRow) :
  (sum_case lt20 rows + sum_case btw20_40 rows + sum_case btw40_60 rows
   + sum_case gt60 rows)%Z = Z.of_nat (length rows).
Proof.
  unfold sum_case. induction rows as [|r rows IH]; [reflexivity|].
  cbn [filter length].
  pose proof (buckets_partition (r_age r)) as H. unfold buckets_holding in H.
  destruct (lt20 (r_age r)), (btw20_40 (r_age r)), (btw40_60 (r_age r)),
    (gt60 (r_age r)); cbn [length] in *; try discriminate H; lia.
Qed.

(** ** A row the store cannot hold *)

Lemma to_rows_In ds : forall rs d,
  to_rows ds = Some rs -> In d ds -> to_row d <> None.
Proof.
  induction ds as [|d0 ds IH]; intros rs d H Hin; [destruct Hin|].
  cbn [to_rows] in H.
  destruct (to_row d0) as [r0|] eqn:E0; [|discriminate].
  destruct (to_rows ds) as [rs'|] eqn:E1; [|discriminate].
  destruct Hin as [<- | Hin]; [congruence|].
  eapply IH; [reflexivity | exact Hin].
Qed.

Lemma In_concat_nth {A} (bs : list (list A)) (d : A) :
  In d (concat bs) -> exists k, k < length bs /\ In d (nth k bs []).
Proof.
  induction bs as [|b bs IH]; cbn [concat]; [intros []|].
  intros H. apply in_app_or in H as [H | H].
  - exists 0. cbn. split; [lia | exact H].
  - destruct (IH H) as (k & L & I). exists (S k). cbn. split; [lia | exact I].
Qed.

(** X21: One document whose age is not finite (the age read from a numeral
    of 400 digits, say) is enough to lose the import: the integer column
    rejects the INSERT that carries it, the run fails with the error of
    that INSERT, and what the connection sees afterwards is the table as
    it was before the run. *)
Theorem X21_an_infinite_age_rolls_the_import_back
    (insert_fails : nat -> list Document -> bool) (BATCH_SIZE : number)
    (text : jstring) (records : list FlatRecord) (c0 : client) (P0 : object)
    (d : Document) (negative : bool) :
  parseCSVText text = inr records ->
  In d (mapped P0 records) ->
  age d = Infinity negative ->
  let r := importCsvFile insert_fails BATCH_SIZE text c0 P0 in
  result r = inl InsertRejected
  /\ table (db (final r)) = table (db c0)
  /\ visible (db (final r)) = table (db c0).
Proof.
  intros Hp Hin Ha. cbv zeta.
  destruct (@import_rejected insert_fails BATCH_SIZE text records c0 P0 Hp)
    as (A & B & _ & C & _); [|auto].
  pose proof (concat_batches BATCH_SIZE (mapped P0 records) []) as CB.
  cbn [app] in CB. rewrite <- CB in Hin.
  apply In_concat_nth in Hin as (k & L & I).
  exists k. split; [exact L|].
  unfold rejects. apply orb_true_iff. right.
  destruct (to_rows (nth k (batches BATCH_SIZE [] (mapped P0 records)) []))
    as [rs|] eqn:E; [|reflexivity].
  exfalso. apply (@to_rows_In _ _ _ E I). unfold to_row. rewrite Ha.
  reflexivity.
Qed.

Lemma X21_an_infinite_age_rolls_the_import_back_witness :
  result (importCsvFile never_fails (Int 1000)
            (js "name.firstName,name.lastName,age" ++ LF :: js "A,B,5"
             ++ LF :: js "C,D," ++ ten_pow_309)
            (fresh_client [row_of_age 7]) pristine)
  = inl InsertRejected
  /\ table (db (final (importCsvFile never_fails (Int 1000)
            (js "name.firstName,name.lastName,age" ++ LF :: js "A,B,5"
             ++ LF :: js "C,D," ++ ten_pow_309)
            (fresh_client [row_of_age 7]) pristine)))
     = [row_of_age 7]
  /\ visible (db (final (importCsvFile never_fails (Int 1000)
            (js "name.firstName,name.lastName,age" ++ LF :: js "A,B,5"
             ++ LF :: js "C,D," ++ ten_pow_309)
            (fresh_client [row_of_age 7]) pristine)))
     = [row_of_age 7].
Proof.
  apply (@X21_an_infinite_age_rolls_the_import_back never_fails (Int 1000)
           (js "name.firstName,name.lastName,age" ++ LF :: js "A,B,5"
            ++ LF :: js "C,D," ++ ten_pow_309)
           (records_of
              (js "name.firstName,name.lastName,age" ++ LF :: js "A,B,5"
               ++ LF :: js "C,D," ++ ten_pow_309))
           (fresh_client [row_of_age 7]) pristine
           {| name := js "C D"; age := Infinity false;
              address := None; additional_info := None |} false).
  - vm_compute. reflexivity.
  - vm_compute. right. left. reflexivity.
  - reflexivity.
Defined.

(** ** The query of [insertBatch] *)

Section QueryProperties.

Variable JSON_stringify : object -> jstring.

Lemma bind_rows_closed rows : forall p ph vals,
  bind_rows JSON_stringify rows p ph vals
  = (ph ++ List.map (fun i => placeholder (p + 4 * i)) (seq 0 (length rows)),
     vals ++ flat_map (row_values JSON_stringify) rows).
Proof.
  induction rows as [|r rows IH]; intros p ph vals;
    cbn [bind_rows length seq List.map flat_map].
  - rewrite !app_nil_r. reflexivity.
  - rewrite IH, <- !app_assoc. cbn [app].
    rewrite Nat.mul_0_r, Nat.add_0_r. do 3 f_equal.
    rewrite <- seq_shift, map_map. apply map_ext. intros i.
    f_equal. lia.
Qed.

Lemma nth_error_row_values rows : forall i r j,
  nth_error rows i = Some r -> j < 4 ->
  nth_error (flat_map (row_values JSON_stringify) rows) (4 * i + j)
  = nth_error (row_values JSON_stringify r) j.
Proof.
  induction rows as [|r0 rows IH]; intros i r j Hi Hj.
  - destruct i; discriminate.
  - cbn [flat_map]. destruct i as [|i]; cbn [nth_error] in Hi.
    + injection Hi as ->. rewrite Nat.mul_0_r.
      rewrite nth_error_app1 by (cbn; lia). reflexivity.
    + rewrite nth_error_app2 by (cbn; lia).
      replace (4 * S i + j - length (row_values JSON_stringify r0))
        with (4 * i + j) by (cbn; lia).
      apply IH; assumption.
Qed.

(** X24: The placeholders and the values of the INSERT line up.  For a
    non-empty list of rows [insertBatch] builds a query with one
    placeholder tuple and four values a row; the tuple of the row of
    index [i] names the parameters [4i+1] to [4i+4], and the values at
    these (1-based) positions are the name, the age, the address and the
    additional information of that row, the last two as JSON text or
    null. *)
Theorem X24_insert_parameters_line_up (rows : list Document) (i : nat)
    (r : Document) :
  nth_error rows i = Some r ->
  exists placeholders vals,
    insert_query JSON_stringify rows
    = Some (js "INSERT INTO public.users (" ++ join [COMMA] cols
            ++ js ") VALUES " ++ join [COMMA] placeholders, vals)
    /\ length placeholders = length rows
    /\ length vals = 4 * length rows
    /\ nth_error placeholders i = Some (placeholder (4 * i + 1))
    /\ nth_error vals (4 * i + 1 - 1) = Some (PString (name r))
    /\ nth_error vals (4 * i + 2 - 1) = Some (PNumber (age r))
    /\ nth_error vals (4 * i + 3 - 1)
       = Some (json_or_null JSON_stringify (address r))
    /\ nth_error vals (4 * i + 4 - 1)
       = Some (json_or_null JSON_stringify (additional_info r)).
Proof.
  intros Hi. unfold insert_query.
  destruct rows as [|r0 rows'] eqn:Er; [destruct i; discriminate|].
  rewrite <- Er in *. rewrite bind_rows_closed. cbn [app].
  eexists. eexists. split; [reflexivity|].
  assert (Li : i < length rows) by (apply nth_error_Some; congruence).
  split; [rewrite length_map, length_seq; reflexivity|].
  split.
  { clear. induction rows as [|x rows IH]; [reflexivity|].
    cbn [flat_map length]. rewrite length_app, IH. cbn. lia. }
  split.
  { rewrite nth_error_map, nth_error_seq.
    apply Nat.ltb_lt in Li. rewrite Li. cbn [option_map].
    f_equal. f_equal. lia. }
  replace (4 * i + 1 - 1) with (4 * i + 0) by lia.
  replace (4 * i + 2 - 1) with (4 * i + 1) by lia.
  replace (4 * i + 3 - 1) with (4 * i + 2) by lia.
  replace (4 * i + 4 - 1) with (4 * i + 3) by lia.
  rewrite !(@nth_error_row_values rows i r) by (assumption || lia).
  repeat split.
Qed.

End QueryProperties.

Lemma X24_insert_parameters_line_up_witness :
  exists placeholders vals,
    insert_query (fun _ => js "{}")
      [{| name := js "A B"; age := Int 5; address := None;
          additional_info := None |};
       {| name := js "C D"; age := Int 25; address := None;
          additional_info := Some [] |}]
    = Some (js "INSERT INTO public.users (" ++ join [COMMA] cols
            ++ js ") VALUES " ++ join [COMMA] placeholders, vals)
    /\ length placeholders = 2
    /\ length vals = 8
    /\ nth_error placeholders 1 = Some (js "($5, $6, $7::jsonb, $8::jsonb)")
    /\ nth_error vals 4 = Some (PString (js "C D"))
    /\ nth_error vals 5 = Some (PNumber (Int 25))
    /\ nth_error vals 6 = Some PNull
    /\ nth_error vals 7 = Some (PString (js "{}")).
Proof.
  exact (@X24_insert_parameters_line_up (fun _ => js "{}")
           [{| name := js "A B"; age := Int 5; address := None;
               additional_info := None |};
            {| name := js "C D"; age := Int 25; address := None;
               additional_info := Some [] |}]
           1 _ eq_refl).
Defined.
